(** * Verification of the phishing-triage backend (backend/main.py)

    The development embeds the content-transformation core of
    [backend/main.py] (risk scoring, header inspection, the rule-based
    rewrite and the word-level diff) as Rocq functions and proves the
    properties its specification states about them.

    Text model.  A Python [str] is a [list ascii]; a character is a code
    point in U+0000..U+00FF.  On that range [str.lower] maps A-Z and
    U+00C0..U+00DE (except the multiplication sign U+00D7) 32 places up, and
    [str.isspace] holds of U+0009..U+000D, U+001C..U+0020, U+0085, U+00A0. *)

From Stdlib Require Import ZArith List Ascii String Bool Lia Arith.
From stdpp Require Import gmap strings list sorting.
Import ListNotations.

Open Scope Z_scope.
Open Scope list_scope.

(** ** Text *)

Abbreviation text := (list ascii).

Definition str (s : string) : text := list_ascii_of_string s.

Definition is_upper (c : ascii) : bool :=
  let n := nat_of_ascii c in
  ((65 <=? n)%nat && (n <=? 90)%nat)
  || ((192 <=? n)%nat && (n <=? 222)%nat && negb (n =? 215)%nat).

Definition lower_char (c : ascii) : ascii :=
  if is_upper c then ascii_of_nat (nat_of_ascii c + 32) else c.

(** [s.lower()] *)
Definition lower (s : text) : text := map lower_char s.

(** [c.isspace()] *)
Definition isspace (c : ascii) : bool :=
  let n := nat_of_ascii c in
  ((9 <=? n)%nat && (n <=? 13)%nat) || ((28 <=? n)%nat && (n <=? 32)%nat)
  || (n =? 133)%nat || (n =? 160)%nat.

Definition ascii_eqb (a b : ascii) : bool := Ascii.eqb a b.

(** [s.startswith(p)] *)
Fixpoint starts_with (p s : text) : bool :=
  match p, s with
  | [], _ => true
  | _ :: _, [] => false
  | a :: p', b :: s' => ascii_eqb a b && starts_with p' s'
  end.

(** [p in s] for two strings: some position of [s] starts with [p]. *)
Fixpoint contains (p s : text) : bool :=
  starts_with p s ||
  match s with
  | [] => false
  | _ :: s' => contains p s'
  end.

(** [sep.join(parts)] *)
Fixpoint join (sep : text) (parts : list text) : text :=
  match parts with
  | [] => []
  | [w] => w
  | w :: rest => w ++ sep ++ join sep rest
  end.

(** ** Risk scorer *)

Definition phishing_keywords : list text :=
  [str "password"; str "verify"; str "account"; str "login";
   str "click"; str "reset"; str "urgent"].

(** One iteration of [for word in phishing_keywords]. *)
Definition keyword_step (txt : text) (st : Z * list text) (word : text)
  : Z * list text :=
  let '(score, reasons) := st in
  if contains word txt
  then (score + 15, reasons ++ [str "Contains keyword: " ++ word])
  else (score, reasons).

Definition has_link (txt : text) : bool :=
  contains (str "http://") txt || contains (str "https://") txt.

Definition has_financial (txt : text) : bool :=
  contains (str "bank") txt || contains (str "paypal") txt
  || contains (str "crypto") txt.

Definition simple_heuristic_score (subject body : text) : Z * list text :=
  let txt := lower (subject ++ str " " ++ body) in
  let '(score, reasons) := fold_left (keyword_step txt) phishing_keywords (10, []) in
  let '(score, reasons) :=
    if has_link txt
    then (score + 20, reasons ++ [str "Contains a link"])
    else (score, reasons) in
  let '(score, reasons) :=
    if has_financial txt
    then (score + 15, reasons ++ [str "Mentions financial service or money"])
    else (score, reasons) in
  let score := if 100 <? score then 100 else score in
  (score, reasons).

Definition score_to_verdict (score : Z) : text :=
  if score <=? 30 then str "SAFE"
  else if score <=? 69 then str "SUSPICIOUS"
  else str "PHISHING".

(** ** Header inspector *)

Record HeaderAnalysis := mkHeaderAnalysis {
  spf_pass : option bool;
  dkim_pass : option bool;
  dmarc_pass : option bool;
  from_domain : option text;
  return_path_domain : option text;
  reply_to_domain : option text;
  suspicious_flags : list text
}.

(** Python truthiness of an [Optional[str]]: [None] and [""] are false. *)
Definition truthy (raw_headers : option text) : bool :=
  match raw_headers with
  | None => false
  | Some [] => false
  | Some (_ :: _) => true
  end.

Definition fake_header_analysis (raw_headers : option text) : HeaderAnalysis :=
  if negb (truthy raw_headers) then
    mkHeaderAnalysis None None None None None None [str "No headers provided"]
  else
    let lower_ := lower (default [] raw_headers) in
    let flags : list text := [] in
    let spf := contains (str "spf=pass") lower_ in
    let dkim := contains (str "dkim=pass") lower_ in
    let dmarc := contains (str "dmarc=pass") lower_ in
    let flags :=
      if contains (str "spf=fail") lower_
      then flags ++ [str "SPF fail found in Authentication-Results"]
      else flags in
    let flags :=
      if contains (str "dkim=fail") lower_
      then flags ++ [str "DKIM fail found in Authentication-Results"]
      else flags in
    let flags :=
      if contains (str "dmarc=fail") lower_
      then flags ++ [str "DMARC fail found in Authentication-Results"]
      else flags in
    mkHeaderAnalysis (Some spf) (Some dkim) (Some dmarc) None None None flags.

(** ** Specification-level definitions *)

(** The rules of the scorer, in the order the code evaluates them. *)
Inductive rule :=
| RKeyword (word : text)
| RLink
| RFinancial.

Definition all_rules : list rule :=
  map RKeyword phishing_keywords ++ [RLink; RFinancial].

Definition triggers (txt : text) (r : rule) : bool :=
  match r with
  | RKeyword w => contains w txt
  | RLink => has_link txt
  | RFinancial => has_financial txt
  end.

Definition weight (r : rule) : Z :=
  match r with
  | RKeyword _ => 15
  | RLink => 20
  | RFinancial => 15
  end.

Definition reason_of (r : rule) : text :=
  match r with
  | RKeyword w => str "Contains keyword: " ++ w
  | RLink => str "Contains a link"
  | RFinancial => str "Mentions financial service or money"
  end.

(** The text the scorer matches against. *)
Definition normalized (subject body : text) : text :=
  lower (subject ++ str " " ++ body).

Definition triggered (subject body : text) : list rule :=
  List.filter (triggers (normalized subject body)) all_rules.

Definition sumZ (l : list Z) : Z := fold_right Z.add 0 l.

(** ** More string methods *)

(** [s.lstrip()], [s.rstrip()], [s.strip()] *)
Fixpoint lstrip (s : text) : text :=
  match s with
  | [] => []
  | c :: s' => if isspace c then lstrip s' else s
  end.

Definition rstrip (s : text) : text := rev (lstrip (rev s)).

Definition strip (s : text) : text := rstrip (lstrip s).

(** [s.split()]: the maximal runs of non-whitespace characters.  [cur] is
    the run being read. *)
Fixpoint split_from (cur : text) (s : text) : list text :=
  match s with
  | [] => match cur with [] => [] | _ => [cur] end
  | c :: s' =>
      if isspace c
      then match cur with
           | [] => split_from [] s'
           | _ => cur :: split_from [] s'
           end
      else split_from (cur ++ [c]) s'
  end.

Definition split (s : text) : list text := split_from [] s.

(** ** Regular expressions ([re])

    The patterns of the program use literals, [.], [\S], greedy [*], [+]
    and [?] on one-character classes, and alternation.  Matching is the
    backtracking search of [re]: alternatives left to right, greedy
    repetitions longest first. *)

Inductive cls :=
| CAny                      (* [.]: any character but a line feed *)
| CNonSpace                 (* [\S] *)
| CLit (x : ascii)          (* a literal character *)
| CLitI (x : ascii).        (* a literal character under IGNORECASE *)

Definition cls_matches (k : cls) (c : ascii) : bool :=
  match k with
  | CAny => negb (ascii_eqb "010" c)
  | CNonSpace => negb (isspace c)
  | CLit x => ascii_eqb x c
  | CLitI x => ascii_eqb (lower_char x) (lower_char c)
  end.

Inductive regex :=
| Eps
| Chr (k : cls)
| Cat (r1 r2 : regex)
| Alt (r1 r2 : regex)
| Star (k : cls).

(** Greedy [k*] followed by the continuation [cont]. *)
Fixpoint star_k (k : cls) (cont : text -> option text) (s : text) : option text :=
  match s with
  | c :: s' =>
      if cls_matches k c
      then match star_k k cont s' with
           | Some r => Some r
           | None => cont s
           end
      else cont s
  | [] => cont s
  end.

(** [match_k r s cont]: match [r] at the start of [s], then [cont] on what
    is left; the first success in the search order of [re]. *)
Fixpoint match_k (r : regex) (s : text) (cont : text -> option text) : option text :=
  match r with
  | Eps => cont s
  | Chr k =>
      match s with
      | c :: s' => if cls_matches k c then cont s' else None
      | [] => None
      end
  | Cat r1 r2 => match_k r1 s (fun s' => match_k r2 s' cont)
  | Alt r1 r2 =>
      match match_k r1 s cont with
      | Some x => Some x
      | None => match_k r2 s cont
      end
  | Star k => star_k k cont s
  end.

(** [pattern.match(s)]: what is left of [s] after the match. *)
Definition match_at (r : regex) (s : text) : option text := match_k r s Some.

(** The pieces [re.sub] cuts a string into: characters it keeps and
    matches it replaces. *)
Inductive piece :=
| Kept (c : ascii)
| Matched (m : text).

Definition raw (p : piece) : text :=
  match p with
  | Kept c => [c]
  | Matched m => m
  end.

(** The leftmost non-overlapping matches of [r] in [s].  A match that
    consumes nothing is recorded and the scan moves one character on. *)
Fixpoint scan_fuel (fuel : nat) (r : regex) (s : text) : list piece :=
  match fuel with
  | O => map Kept s
  | S fuel' =>
      match match_at r s with
      | Some rest =>
          let n := (length s - length rest)%nat in
          match n, s with
          | O, [] => [Matched []]
          | O, c :: s' => Matched [] :: Kept c :: scan_fuel fuel' r s'
          | _, _ => Matched (firstn n s) :: scan_fuel fuel' r rest
          end
      | None =>
          match s with
          | [] => []
          | c :: s' => Kept c :: scan_fuel fuel' r s'
          end
      end
  end.

Definition scan (r : regex) (s : text) : list piece :=
  scan_fuel (S (length s)) r s.

Definition render (repl : text) (p : piece) : text :=
  match p with
  | Kept c => [c]
  | Matched _ => repl
  end.

(** [re.sub(r, repl, s)] for a replacement without group references. *)
Definition re_sub (r : regex) (repl : text) (s : text) : text :=
  concat (map (render repl) (scan r s)).

(** [re.search(r, s) is not None] *)
Fixpoint re_search (r : regex) (s : text) : bool :=
  match match_at r s with
  | Some _ => true
  | None =>
      match s with
      | [] => false
      | _ :: s' => re_search r s'
      end
  end.

(** A literal pattern, and a literal pattern compiled with [re.IGNORECASE]. *)
Fixpoint lit (w : text) : regex :=
  match w with
  | [] => Eps
  | [c] => Chr (CLit c)
  | c :: w' => Cat (Chr (CLit c)) (lit w')
  end.

Fixpoint lit_i (w : text) : regex :=
  match w with
  | [] => Eps
  | [c] => Chr (CLitI c)
  | c :: w' => Cat (Chr (CLitI c)) (lit_i w')
  end.

(** ** Rewrite *)

Definition subject_replacements : list (text * text) :=
  [(str "suspended", str "updated");
   (str "suspension", str "update");
   (str "urgent", str "important");
   (str "immediately", str "");
   (str "immediate", str "")].

(** [(?i)click.*link.*(login|log in|verify|reset)] *)
Definition pat_click : regex :=
  Cat (lit_i (str "click")) (Cat (Star CAny) (Cat (lit_i (str "link")) (Cat (Star CAny)
    (Alt (lit_i (str "login")) (Alt (lit_i (str "log in"))
      (Alt (lit_i (str "verify")) (lit_i (str "reset")))))))).

(** [(?i)enter.*password] *)
Definition pat_enter : regex :=
  Cat (lit_i (str "enter")) (Cat (Star CAny) (lit_i (str "password"))).

(** [(?i)provide.*credentials] *)
Definition pat_provide : regex :=
  Cat (lit_i (str "provide")) (Cat (Star CAny) (lit_i (str "credentials"))).

Definition patterns_to_remove : list regex := [pat_click; pat_enter; pat_provide].

Definition removed_marker : text := str "[removed sensitive instructions]".

(** [https?://\S+] *)
Definition pat_url : regex :=
  Cat (lit (str "http")) (Cat (Alt (Chr (CLit "s")) Eps) (Cat (lit (str "://"))
    (Cat (Chr CNonSpace) (Star CNonSpace)))).

Definition link_marker : text := str "[link removed]".

Definition body_replacements : list (text * text) :=
  [(str "will be closed", str "may require your attention");
   (str "will be disabled", str "may be temporarily limited");
   (str "within 24 hours", str "in the near future");
   (str "immediately", str "soon");
   (str "urgent", str "important")].

Definition LF : ascii := "010".

Definition closing : text :=
  [LF; LF] ++ str "Thank you," ++ [LF] ++ str "Customer Support Team".

(** [for bad, good in table.items(): s = re.sub(bad, good, s, flags=re.IGNORECASE)] *)
Definition apply_replacements (table : list (text * text)) (s : text) : text :=
  fold_left (fun acc '(bad, good) => re_sub (lit_i bad) good acc) table s.

(** The body after the pattern removals. *)
Definition remove_patterns (body : text) : text :=
  fold_left (fun acc pat => re_sub pat removed_marker acc) patterns_to_remove body.

(** The body after the URL removal. *)
Definition remove_urls (body : text) : text := re_sub pat_url link_marker body.

(** The last step: the closing block, unless the body thanks already. *)
Definition add_closing (safe_body : text) : text :=
  if negb (contains (str "thank you") (lower safe_body))
  then strip safe_body ++ closing
  else safe_body.

(** The body as it stands before the closing step. *)
Definition body_before_closing (body : text) : text :=
  apply_replacements body_replacements (remove_urls (remove_patterns body)).

Definition rewrite_to_safe (subject body : text) : text * text :=
  let safe_subject := apply_replacements subject_replacements subject in
  let safe_body := body in
  let safe_body := remove_patterns safe_body in
  let safe_body := remove_urls safe_body in
  let safe_body := apply_replacements body_replacements safe_body in
  let safe_body := add_closing safe_body in
  (safe_subject, safe_body).

(** [matches r m]: the string [m] is in the language of [r]. *)
Inductive matches : regex -> text -> Prop :=
| MEps : matches Eps []
| MChr k c : cls_matches k c = true -> matches (Chr k) [c]
| MCat r1 r2 m1 m2 :
    matches r1 m1 -> matches r2 m2 -> matches (Cat r1 r2) (m1 ++ m2)
| MAltL r1 r2 m : matches r1 m -> matches (Alt r1 r2) m
| MAltR r1 r2 m : matches r2 m -> matches (Alt r1 r2) m
| MStarNil k : matches (Star k) []
| MStarCons k c m :
    cls_matches k c = true -> matches (Star k) m -> matches (Star k) (c :: m).

(** The least length of a match. *)
Fixpoint min_len (r : regex) : nat :=
  match r with
  | Eps => 0
  | Chr _ => 1
  | Cat r1 r2 => min_len r1 + min_len r2
  | Alt r1 r2 => Nat.min (min_len r1) (min_len r2)
  | Star _ => 0
  end.

(** A pattern none of whose matches is empty. *)
Definition consuming (r : regex) : Prop := (0 < min_len r)%nat.

Inductive ustate :=
| U0        (* nothing pending *)
| U1        (* h *)
| U2        (* ht *)
| U3        (* htt *)
| U4        (* http *)
| U5        (* https *)
| U6        (* http: or https: *)
| U7        (* ...:/ *)
| U8        (* ...:// *)
| UAcc.     (* a URL has been read *)

Definition ustate_eq_dec (a b : ustate) : {a = b} + {a <> b}.
Proof. decide equality. Defined.

Definition ustep (q : ustate) (c : ascii) : ustate :=
  match q with
  | UAcc => UAcc
  | U8 => if isspace c then U0 else UAcc
  | _ =>
      if ascii_eqb "h" c then U1 else
      match q with
      | U1 => if ascii_eqb "t" c then U2 else U0
      | U2 => if ascii_eqb "t" c then U3 else U0
      | U3 => if ascii_eqb "p" c then U4 else U0
      | U4 => if ascii_eqb "s" c then U5 else if ascii_eqb ":" c then U6 else U0
      | U5 => if ascii_eqb ":" c then U6 else U0
      | U6 => if ascii_eqb "/" c then U7 else U0
      | U7 => if ascii_eqb "/" c then U8 else U0
      | _ => U0
      end
  end.

Definition urun (q : ustate) (s : text) : ustate := fold_left ustep s q.

(** [lit_then w s]: [s] starts with [w] followed by a non-whitespace
    character. *)
Fixpoint lit_then (w s : text) {struct s} : bool :=
  match s with
  | [] => false
  | c :: s' =>
      match w with
      | [] => negb (isspace c)
      | a :: w' => ascii_eqb a c && lit_then w' s'
      end
  end.

(** What is left to read, in state [q], to complete a URL match. *)
Definition pending (q : ustate) : list text :=
  match q with
  | U0 => []
  | U1 => [str "ttp://"; str "ttps://"]
  | U2 => [str "tp://"; str "tps://"]
  | U3 => [str "p://"; str "ps://"]
  | U4 => [str "://"; str "s://"]
  | U5 => [str "://"]
  | U6 => [str "//"]
  | U7 => [str "/"]
  | U8 => [[]]
  | UAcc => []
  end.

Definition completes (q : ustate) (s : text) : bool :=
  existsb (fun w => lit_then w s) (pending q).

(** A match of [pat_url] starts at the first character of [s]. *)
Definition url_at (s : text) : bool :=
  lit_then (str "http://") s || lit_then (str "https://") s.

(** [s] has no match of [pat_url]. *)
Definition url_free (s : text) : Prop := re_search pat_url s = false.

Definition is_some {A} (o : option A) : bool :=
  match o with Some _ => true | None => false end.

(** [x] has no line feed, the one character [.] rejects. *)
Definition no_lf (x : text) : bool := forallb (cls_matches CAny) x.

(** [re.sub(r, repl, s)] replaces, by one [repl], a match that covers the
    stretch [span] found after [pre] in [s]. *)
Definition replaced_by (r : regex) (repl s pre span : text) : Prop :=
  exists ps1 m ps2,
    scan r s = ps1 ++ Matched m :: ps2 /\
    (length (concat (map raw ps1)) <= length pre)%nat /\
    (length pre + length span <= length (concat (map raw ps1)) + length m)%nat /\
    re_sub r repl s =
      concat (map (render repl) ps1) ++ repl ++ concat (map (render repl) ps2).

(** The tail of a pattern, matched at [t] or at any later position of [t],
    leaves at most [N] characters. *)
Definition tail_ok (tail : regex) (t : text) (N : nat) : Prop :=
  (exists out, match_at tail t = Some out) /\
  (forall v w out, t = v ++ w -> match_at tail w = Some out ->
                   (length out <= N)%nat).

(** A pattern none of whose classes accepts a line feed. *)
Fixpoint one_line (r : regex) : bool :=
  match r with
  | Eps => true
  | Chr k | Star k => negb (cls_matches k LF)
  | Cat r1 r2 | Alt r1 r2 => one_line r1 && one_line r2
  end.

(** The alternatives that close [pat_click]. *)
Definition kw_alt : regex :=
  Alt (lit_i (str "login")) (Alt (lit_i (str "log in"))
    (Alt (lit_i (str "verify")) (lit_i (str "reset")))).

Definition click_keywords : list text :=
  [str "login"; str "log in"; str "verify"; str "reset"].

(** ** [difflib.SequenceMatcher(None, a, b)]

    The matcher of the standard library, as [diff_words_html] uses it: no
    junk predicate, [autojunk] left on.  Indices are natural numbers. *)

(** A matching block [(i, j, k)]: [a[i:i+k] == b[j:j+k]]. *)
Abbreviation block := (nat * nat * nat)%type.

Inductive tag := Replace | Delete | Insert | Equal.

(** An opcode [(tag, i1, i2, j1, j2)]. *)
Abbreviation opcode := (tag * nat * nat * nat * nat)%type.

Section Diff.

Local Open Scope nat_scope.

Section SequenceMatcher.

Context {T : Type} `{Countable T}.

(** [__chain_b]: [b2j] maps an element of [b] to the increasing list of its
    positions. *)
Definition b2j_add (b2j : gmap T (list nat)) (ie : nat * T) : gmap T (list nat) :=
  let '(i, elt) := ie in
  <[elt := default [] (b2j !! elt) ++ [i]]> b2j.

Definition enumerate (b : list T) : list (nat * T) :=
  combine (seq 0 (length b)) b.

(** With [autojunk] and at least 200 elements, the elements that occur
    more than [n // 100 + 1] times are dropped from [b2j]. *)
Definition chain_b (b : list T) : gmap T (list nat) :=
  let b2j := fold_left b2j_add (enumerate b) ∅ in
  let n := length b in
  if 200 <=? n then
    let ntest := n / 100 + 1 in
    filter (fun kv : T * list nat => length kv.2 <= ntest) b2j
  else b2j.

(** [isjunk] is [None]: the set [bjunk] stays empty. *)
Definition isbjunk (x : T) : bool := false.

(** [j2len.get(j-1, 0)]; the key [-1] is never in the dictionary. *)
Definition j2len_get_pred (j2len : gmap nat nat) (j : nat) : nat :=
  match j with
  | O => 0
  | S j' => default 0 (j2len !! j')
  end.

(** [for j in b2j.get(a[i], nothing)]: the state is [newj2len] and the
    best block so far. *)
Fixpoint row_loop (i blo bhi : nat) (j2len : gmap nat nat) (js : list nat)
    (st : gmap nat nat * block) : gmap nat nat * block :=
  match js with
  | [] => st
  | j :: js' =>
      if j <? blo then row_loop i blo bhi j2len js' st
      else if bhi <=? j then st
      else
        let '(newj2len, (besti, bestj, bestsize)) := st in
        let k := j2len_get_pred j2len j + 1 in
        let newj2len := <[j := k]> newj2len in
        let best := if bestsize <? k then (i + 1 - k, j + 1 - k, k)
                    else (besti, bestj, bestsize) in
        row_loop i blo bhi j2len js' (newj2len, best)
  end.

(** One turn of [for i in range(alo, ahi)]. *)
Definition row_step (a : list T) (b2j : gmap T (list nat)) (blo bhi : nat)
    (st : gmap nat nat * block) (i : nat) : gmap nat nat * block :=
  let '(j2len, best) := st in
  let js := match a !! i with
            | Some x => default [] (b2j !! x)
            | None => []
            end in
  row_loop i blo bhi j2len js (∅, best).

(** [a[i] == b[j]] for two positions of the sequences. *)
Definition same_at (a b : list T) (i j : nat) : bool :=
  match a !! i, b !! j with
  | Some x, Some y => bool_decide (x = y)
  | _, _ => false
  end.

(** [while besti > alo and bestj > blo and isbjunk(b[bestj-1]) == junk
    and a[besti-1] == b[bestj-1]]: one step down at a time. *)
Fixpoint extend_back (junk : bool) (a b : list T) (alo blo : nat)
    (besti bestj bestsize : nat) : block :=
  match besti, bestj with
  | S i', S j' =>
      if (alo <? besti) && (blo <? bestj)
         && eqb (match b !! j' with Some y => isbjunk y | None => false end) junk
         && same_at a b i' j'
      then extend_back junk a b alo blo i' j' (S bestsize)
      else (besti, bestj, bestsize)
  | _, _ => (besti, bestj, bestsize)
  end.

(** [while besti+bestsize < ahi and bestj+bestsize < bhi and ...]; at most
    [fuel] steps, [fuel] being the room left below [ahi]. *)
Fixpoint extend_fwd (junk : bool) (a b : list T) (ahi bhi : nat)
    (besti bestj : nat) (fuel bestsize : nat) : nat :=
  match fuel with
  | O => bestsize
  | S fuel' =>
      if (besti + bestsize <? ahi) && (bestj + bestsize <? bhi)
         && eqb (match b !! (bestj + bestsize) with
                 | Some y => isbjunk y | None => false end) junk
         && same_at a b (besti + bestsize) (bestj + bestsize)
      then extend_fwd junk a b ahi bhi besti bestj fuel' (S bestsize)
      else bestsize
  end.

Definition extend (junk : bool) (a b : list T) (alo ahi blo bhi : nat)
    (best : block) : block :=
  let '(besti, bestj, bestsize) := best in
  let '(besti, bestj, bestsize) :=
    extend_back junk a b alo blo besti bestj bestsize in
  let bestsize :=
    extend_fwd junk a b ahi bhi besti bestj (ahi - (besti + bestsize)) bestsize in
  (besti, bestj, bestsize).

Definition find_longest_match (a b : list T) (b2j : gmap T (list nat))
    (alo ahi blo bhi : nat) : block :=
  let best := (alo, blo, 0) in
  let '(_, best) :=
    fold_left (row_step a b2j blo bhi) (seq alo (ahi - alo)) (∅, best) in
  let best := extend false a b alo ahi blo bhi best in
  let best := extend true a b alo ahi blo bhi best in
  best.

(** [get_matching_blocks], the loop over the pending boxes
    [(alo, ahi, blo, bhi)]; the Python list [queue] is used as a stack, whose
    top is the head here.  [None] when [fuel] turns are not enough. *)
Fixpoint blocks_loop (a b : list T) (b2j : gmap T (list nat)) (fuel : nat)
    (queue : list (nat * nat * nat * nat)) (matching_blocks : list block)
    : option (list block) :=
  match queue with
  | [] => Some matching_blocks
  | (alo, ahi, blo, bhi) :: queue =>
      match fuel with
      | O => None
      | S fuel' =>
          let '(i, j, k) := find_longest_match a b b2j alo ahi blo bhi in
          if 0 <? k then
            let matching_blocks := matching_blocks ++ [(i, j, k)] in
            let queue := if (alo <? i) && (blo <? j)
                         then (alo, i, blo, j) :: queue else queue in
            let queue := if (i + k <? ahi) && (j + k <? bhi)
                         then (i + k, ahi, j + k, bhi) :: queue else queue in
            blocks_loop a b b2j fuel' queue matching_blocks
          else blocks_loop a b b2j fuel' queue matching_blocks
      end
  end.

(** The order of tuples of integers. *)
Definition block_leb (x y : block) : bool :=
  let '(i1, j1, k1) := x in
  let '(i2, j2, k2) := y in
  (i1 <? i2) || ((i1 =? i2) && ((j1 <? j2) || ((j1 =? j2) && (k1 <=? k2)))).

Definition block_le (x y : block) : Prop := block_leb x y = true.

#[global] Instance block_le_dec : RelDecision block_le.
Proof. intros x y. unfold block_le. apply _. Defined.

(** One turn of the loop that merges adjacent blocks: the state is the
    block [(i1, j1, k1)] being grown and [non_adjacent]. *)
Definition collapse_step (st : block * list block) (x : block)
    : block * list block :=
  let '((i1, j1, k1), non_adjacent) := st in
  let '(i2, j2, k2) := x in
  if (i1 + k1 =? i2) && (j1 + k1 =? j2)
  then ((i1, j1, k1 + k2), non_adjacent)
  else ((i2, j2, k2),
        if 0 <? k1 then non_adjacent ++ [(i1, j1, k1)] else non_adjacent).

Definition collapse (la lb : nat) (matching_blocks : list block) : list block :=
  let '((i1, j1, k1), non_adjacent) :=
    fold_left collapse_step matching_blocks ((0, 0, 0), []) in
  let non_adjacent :=
    if 0 <? k1 then non_adjacent ++ [(i1, j1, k1)] else non_adjacent in
  non_adjacent ++ [(la, lb, 0)].

Definition get_matching_blocks (a b : list T) : option (list block) :=
  let la := length a in
  let lb := length b in
  match blocks_loop a b (chain_b b) (2 * la + 1) [(0, la, 0, lb)] [] with
  | Some matching_blocks =>
      Some (collapse la lb (merge_sort block_le matching_blocks))
  | None => None
  end.

End SequenceMatcher.

(** One turn of the loop of [get_opcodes]: the state is [(i, j, answer)]. *)
Definition opcode_step (st : nat * nat * list opcode) (x : block)
    : nat * nat * list opcode :=
  let '(i, j, answer) := st in
  let '(ai, bj, size) := x in
  let answer :=
    if (i <? ai) && (j <? bj) then answer ++ [(Replace, i, ai, j, bj)]
    else if i <? ai then answer ++ [(Delete, i, ai, j, bj)]
    else if j <? bj then answer ++ [(Insert, i, ai, j, bj)]
    else answer in
  let '(i, j) := (ai + size, bj + size) in
  let answer :=
    if 0 <? size then answer ++ [(Equal, ai, i, bj, j)] else answer in
  (i, j, answer).

Definition opcodes_of (blocks : list block) : list opcode :=
  let '(_, _, answer) := fold_left opcode_step blocks (0, 0, []) in answer.

Definition get_opcodes {T} `{Countable T} (a b : list T) : option (list opcode) :=
  match get_matching_blocks a b with
  | Some blocks => Some (opcodes_of blocks)
  | None => None
  end.

(** [l[i:j]] for [0 <= i] and [0 <= j]. *)
Definition slice {X} (l : list X) (i j : nat) : list X := firstn (j - i) (skipn i l).

(** ** The diff *)

(** What [diff_words_html] emits for one token. *)
Inductive segment :=
| Plain (w : text)       (* an unchanged token, as it is *)
| Removed (w : text)     (* a token of the original, in a [<del>] marker *)
| Added (w : text).      (* a token of the rewrite, in an [<ins>] marker *)

(** The double quote, U+0022. *)
Definition dquote : ascii := ascii_of_nat 34.

Definition del_open : text :=
  str "<del style=" ++ [dquote]
  ++ str "background-color:#8b0000;color:white;padding:0 2px;"
  ++ [dquote] ++ str ">".

Definition ins_open : text :=
  str "<ins style=" ++ [dquote]
  ++ str "background-color:#006400;color:white;padding:0 2px;"
  ++ [dquote] ++ str ">".

Definition render_segment (s : segment) : text :=
  match s with
  | Plain w => w
  | Removed w => del_open ++ w ++ str "</del>"
  | Added w => ins_open ++ w ++ str "</ins>"
  end.

(** The body of [for tag, i1, i2, j1, j2 in sm.get_opcodes()]. *)
Definition emit (orig_words safe_words : list text) (op : opcode) : list segment :=
  let '(tg, i1, i2, j1, j2) := op in
  match tg with
  | Equal => map Plain (slice orig_words i1 i2)
  | Delete => map Removed (slice orig_words i1 i2)
  | Insert => map Added (slice safe_words j1 j2)
  | Replace => map Removed (slice orig_words i1 i2)
               ++ map Added (slice safe_words j1 j2)
  end.

(** [out_parts], before the markers are written out. *)
Definition diff_segments (original safe : text) : option (list segment) :=
  let orig_words := split original in
  let safe_words := split safe in
  match get_opcodes orig_words safe_words with
  | Some ops => Some (concat (map (emit orig_words safe_words) ops))
  | None => None
  end.

Definition diff_words_html (original safe : text) : option text :=
  match diff_segments original safe with
  | Some out_parts => Some (join (str " ") (map render_segment out_parts))
  | None => None
  end.

End Diff.

(** ** The diff: specification-level definitions *)

(** The part of [a] and of [b] a block or a pending box covers. *)
Abbreviation region := (nat * nat * nat * nat)%type.

Section DiffSpec.

Local Open Scope nat_scope.

(** The tokens of the original a diff shows: the unchanged and the removed
    ones; and the tokens of the rewrite: the unchanged and the added ones. *)
Definition orig_side (segs : list segment) : list text :=
  flat_map (fun s => match s with
                     | Plain w | Removed w => [w]
                     | Added _ => []
                     end) segs.

Definition new_side (segs : list segment) : list text :=
  flat_map (fun s => match s with
                     | Plain w | Added w => [w]
                     | Removed _ => []
                     end) segs.

(** [(i, j, k)] is a block of equal elements inside [a] and [b]. *)
Definition run {T} (a b : list T) (x : block) : Prop :=
  let '(i, j, k) := x in
  i + k <= length a /\ j + k <= length b /\ slice a i (i + k) = slice b j (j + k).

(** [chain a b i j blocks i' j']: the blocks are runs that follow one
    another from position [(i, j)] on, the last one ending at [(i', j')]. *)
Inductive chain {T} (a b : list T) : nat -> nat -> list block -> nat -> nat -> Prop :=
| chain_nil i j : chain a b i j [] i j
| chain_cons i j ai bj size rest i' j' :
    i <= ai -> j <= bj -> run a b (ai, bj, size) ->
    chain a b (ai + size) (bj + size) rest i' j' ->
    chain a b i j ((ai, bj, size) :: rest) i' j'.

(** The segments of a list of opcodes. *)
Definition emit_all (a b : list text) (ops : list opcode) : list segment :=
  concat (map (emit a b) ops).

Definition region_of (x : block) : region :=
  let '(i, j, k) := x in (i, i + k, j, j + k).

Definition rbefore (r1 r2 : region) : Prop :=
  let '(_, ahi1, _, bhi1) := r1 in
  let '(alo2, _, blo2, _) := r2 in
  ahi1 <= alo2 /\ bhi1 <= blo2.

(** Two regions apart: one lies before the other in [a] and in [b]. *)
Definition rsep (r1 r2 : region) : Prop := rbefore r1 r2 \/ rbefore r2 r1.

End DiffSpec.

(** Blocks of equal elements, and the entries of [find_longest_match] *)

Section MatcherSpec.

Local Open Scope nat_scope.

Context {T : Type} `{Countable T}.

(** [k] equal elements from [(i, j)] on. *)
Definition eq_run (a b : list T) (x : block) : Prop :=
  let '(i, j, k) := x in forall d, d < k -> same_at a b (i + d) (j + d) = true.

Definition in_box (box : region) (x : block) : Prop :=
  let '(alo, ahi, blo, bhi) := box in
  let '(i, j, k) := x in
  alo <= i /\ i + k <= ahi /\ blo <= j /\ j + k <= bhi.

(** Every position listed for an element holds that element. *)
Definition b2j_sound (b : list T) (b2j : gmap T (list nat)) : Prop :=
  forall x js j, b2j !! x = Some js -> j ∈ js -> b !! j = Some x.

(** The entries of [j2len] once the rows below [i] are done: [j ↦ k] says
    that [k] equal elements end at [(i - 1, j)], inside the box. *)
Definition j2len_ok (a b : list T) (alo blo bhi i : nat)
    (j2len : gmap nat nat) : Prop :=
  forall j k, j2len !! j = Some k ->
    1 <= k /\ k <= i - alo /\ k <= j + 1 - blo /\ j < bhi /\
    forall d, d < k -> same_at a b (i - 1 - d) (j - d) = true.

End MatcherSpec.

(** The positions an element has in a sequence *)

Section IndexSpec.

Local Open Scope nat_scope.

Context {T : Type} `{Countable T}.

(** The positions of [x] in [b], in increasing order, counted from [s]. *)
Fixpoint positions_from (x : T) (s : nat) (b : list T) : list nat :=
  match b with
  | [] => []
  | y :: b' => (if decide (y = x) then [s] else []) ++ positions_from x (S s) b'
  end.

Definition positions (x : T) (b : list T) : list nat := positions_from x 0 b.

End IndexSpec.

(** The pending boxes of [get_matching_blocks] *)

Section LoopSpec.

Local Open Scope nat_scope.

(** [r1] lies inside [r2]. *)
Definition rsub (r1 r2 : region) : Prop :=
  let '(alo1, ahi1, blo1, bhi1) := r1 in
  let '(alo2, ahi2, blo2, bhi2) := r2 in
  alo2 <= alo1 /\ ahi1 <= ahi2 /\ blo2 <= blo1 /\ bhi1 <= bhi2.

Definition box_ok (la lb : nat) (r : region) : Prop :=
  let '(alo, ahi, blo, bhi) := r in
  alo <= ahi /\ ahi <= la /\ blo <= bhi /\ bhi <= lb.

(** The turns the loop still needs for the boxes of [queue], at most. *)
Definition turns (queue : list region) : nat :=
  list_sum (map (fun r : region => let '(alo, ahi, _, _) := r in 2 * (ahi - alo) + 1) queue).

(** The pending boxes and the blocks found so far lie apart from one
    another, and the blocks are non-empty runs of equal elements. *)
Definition loop_inv {T} (a b : list T) (queue : list region)
    (blocks : list block) : Prop :=
  Forall (box_ok (length a) (length b)) queue /\
  ForallOrdPairs rsep (queue ++ map region_of blocks) /\
  Forall (fun x => run a b x /\ 0 < x.2) blocks.

End LoopSpec.

(** A sequence against itself *)

Section SelfSpec.

Local Open Scope nat_scope.

Context {T : Type} `{Countable T}.

(** The number of elements just before position [i] that [b2j] indexes,
    one after the other. *)
Fixpoint dlen (a : list T) (b2j : gmap T (list nat)) (i : nat) : nat :=
  match i with
  | O => 0
  | S i' =>
      match a !! i' with
      | Some x => match b2j !! x with
                  | Some _ => dlen a b2j i' + 1
                  | None => 0
                  end
      | None => 0
      end
  end.

Definition on_diagonal (x : block) : Prop := x.1.1 = x.1.2.

End SelfSpec.

(** A segment the diff leaves without a marker. *)
Definition unmarked (s : segment) : bool :=
  match s with
  | Plain _ => true
  | Removed _ | Added _ => false
  end.

(** ** Further definitions: the report, the endpoint of the rewrite, and
    what the further properties are stated with *)

(** The twelve strings the scorer looks for. *)
Definition needles : list text :=
  phishing_keywords
  ++ [str "http://"; str "https://"; str "bank"; str "paypal"; str "crypto"].

(** The character [c] does not occur in [w]. *)
Definition lacks (c : ascii) (w : text) : bool :=
  forallb (fun x => negb (ascii_eqb x c)) w.

(** How severe a verdict is. *)
Definition severity (verdict : text) : nat :=
  if bool_decide (verdict = str "SAFE") then 0%nat
  else if bool_decide (verdict = str "SUSPICIOUS") then 1%nat
  else 2%nat.

(** The fields of [EmailAnalysisResponse] that [analyze_email] computes
    from the request.  The row it stores and the fields [id] and
    [created_at], which the database gives, are outside the model. *)
Record EmailAnalysisResponse := mkEmailAnalysisResponse {
  risk_score : Z;
  verdict : text;
  reasons : list text;
  header_analysis : HeaderAnalysis;
  model_name : text
}.

Definition no_keywords_reason : text := str "No obvious phishing keywords found.".

(** Steps 1 to 3 of [analyze_email] and the response built in step 6. *)
Definition analyze_email (subject body : text) (raw_headers : option text)
  : EmailAnalysisResponse :=
  let '(score, heuristic_reasons) := simple_heuristic_score subject body in
  let verdict := score_to_verdict score in
  let header_info := fake_header_analysis raw_headers in
  let reasons : list text := [] in
  let reasons :=
    if (length heuristic_reasons =? 0)%nat
    then reasons ++ [no_keywords_reason]
    else reasons ++ heuristic_reasons in
  let reasons :=
    if (0 <? length (suspicious_flags header_info))%nat
    then reasons ++ map (fun f => str "Header flag: " ++ f)
                        (suspicious_flags header_info)
    else reasons in
  mkEmailAnalysisResponse score verdict reasons header_info
    (str "simple_heuristic_v1").

(** The strings whose absence, in any letter case, leaves a body to the
    closing step alone: the first word of each removal pattern, the
    scheme of a URL up to its optional [s], and the phrases softened. *)
Definition body_triggers : list text :=
  [str "click"; str "enter"; str "provide"; str "http"]
  ++ map fst body_replacements.

(** [clash v R]: [v] and [R], lowered, differ at a position both have. *)
Fixpoint clash (v R : text) : bool :=
  match v, R with
  | x :: v', r :: R' => negb (ascii_eqb x (lower_char r)) || clash v' R'
  | _, _ => false
  end.

(** Every non-empty end of [v] clashes with [R]. *)
Fixpoint tails_clash (v R : text) : bool :=
  match v with
  | [] => true
  | _ :: v' => clash v R && tails_clash v' R
  end.

(** [w] clashes with every non-empty end of [R]. *)
Fixpoint clash_tails (w R : text) : bool :=
  match R with
  | [] => true
  | _ :: R' => clash w R && clash_tails w R'
  end.

(** [rewrite_safe_email]: the fields [safe_subject], [safe_body] and
    [diff_html] of the response; [None] only when the matcher of the diff
    runs out of turns. *)
Definition rewrite_safe_email (subject body : text) : option (text * text * text) :=
  let '(safe_subject, safe_body) := rewrite_to_safe subject body in
  match diff_words_html body safe_body with
  | Some diff_html => Some (safe_subject, safe_body, diff_html)
  | None => None
  end.


(** * Proofs *)

(** ** Substrings *)

Lemma starts_with_spec (p s : text) :
  starts_with p s = true <-> exists r, s = p ++ r.
Proof.
  revert s; induction p as [|a p IH]; intros s; simpl.
  - split; [intros _; now exists s | reflexivity].
  - destruct s as [|b s]; simpl.
    + split; [discriminate | intros [r Hr]; discriminate].
    + rewrite andb_true_iff, IH. unfold ascii_eqb. rewrite Ascii.eqb_eq.
      split.
      * intros [-> [r ->]]. now exists r.
      * intros [r Hr]. injection Hr as -> ->. split; [reflexivity | now exists r].
Qed.

Lemma contains_spec (p s : text) :
  contains p s = true <-> exists l r, s = l ++ p ++ r.
Proof.
  induction s as [|c s IH].
  - simpl. rewrite orb_false_r, starts_with_spec. split.
    + intros [r Hr]. now exists [], r.
    + intros [l [r Hr]]. destruct l; [now exists r | discriminate].
  - cbn [contains]. rewrite orb_true_iff, starts_with_spec, IH. split.
    + intros [[r Hr] | [l [r Hr]]].
      * now exists [], r.
      * exists (c :: l), r. now rewrite Hr.
    + intros [l [r Hr]]. destruct l as [|c' l].
      * left. now exists r.
      * right. injection Hr as -> ->. now exists l, r.
Qed.

(** ** Verdict *)

(** C1: for every integer score s in [0,100], [score_to_verdict] returns
    SAFE exactly when s <= 30, SUSPICIOUS exactly when 31 <= s <= 69 and
    PHISHING exactly when s >= 70. *)
Theorem score_to_verdict_thresholds (s : Z) (Hs : 0 <= s <= 100) :
  (score_to_verdict s = str "SAFE" <-> s <= 30) /\
  (score_to_verdict s = str "SUSPICIOUS" <-> 31 <= s <= 69) /\
  (score_to_verdict s = str "PHISHING" <-> 70 <= s).
Proof.
  unfold score_to_verdict.
  destruct (Z.leb_spec s 30); [|destruct (Z.leb_spec s 69)];
    repeat split; intros; try lia; try reflexivity; try discriminate.
Qed.

Lemma score_to_verdict_thresholds_witness :
  0 <= 70 <= 100 /\
  ((score_to_verdict 70 = str "SAFE" <-> 70 <= 30) /\
   (score_to_verdict 70 = str "SUSPICIOUS" <-> 31 <= 70 <= 69) /\
   (score_to_verdict 70 = str "PHISHING" <-> 70 <= 70)).
Proof.
  split; [lia | apply (score_to_verdict_thresholds 70); lia].
Defined.

(** ** Risk scorer *)

Lemma keyword_loop (txt : text) (ws : list text) (score : Z) (reasons : list text) :
  fold_left (keyword_step txt) ws (score, reasons) =
  (score + 15 * Z.of_nat (length (List.filter (fun w => contains w txt) ws)),
   reasons ++ map (fun w => str "Contains keyword: " ++ w)
                  (List.filter (fun w => contains w txt) ws)).
Proof.
  revert score reasons; induction ws as [|w ws IH]; intros score reasons.
  - cbn. f_equal; [lia | now rewrite app_nil_r].
  - cbn [fold_left List.filter]. unfold keyword_step at 2.
    destruct (contains w txt); rewrite IH.
    + cbn [length map]. rewrite <- app_assoc. f_equal. lia.
    + reflexivity.
Qed.

(** The scorer in closed form: the sum of the weights of the triggered
    rules on top of the base score, capped at 100, with one reason per
    triggered rule in rule order. *)
Lemma simple_heuristic_score_rules (subject body : text) :
  simple_heuristic_score subject body =
  (Z.min 100 (10 + sumZ (map weight (triggered subject body))),
   map reason_of (triggered subject body)).
Proof.
  unfold simple_heuristic_score, triggered, all_rules.
  fold (normalized subject body). set (txt := normalized subject body).
  rewrite keyword_loop, List.filter_app.
  assert (Hk : forall ws,
    List.filter (triggers txt) (map RKeyword ws) =
    map RKeyword (List.filter (fun w => contains w txt) ws)).
  { induction ws as [|w ws IH]; [reflexivity|]. cbn.
    destruct (contains w txt); cbn; now rewrite IH. }
  rewrite Hk. set (ks := List.filter (fun w => contains w txt) phishing_keywords).
  assert (Hw : sumZ (map weight (map RKeyword ks)) = 15 * Z.of_nat (length ks)).
  { induction ks as [|k ks IH]; [reflexivity|]. cbn [map sumZ fold_right length weight].
    unfold sumZ in IH. rewrite IH. lia. }
  rewrite !map_app.
  assert (Hs : forall l1 l2, sumZ (l1 ++ l2) = sumZ l1 + sumZ l2).
  { unfold sumZ. induction l1 as [|x l1 IH]; intros l2; cbn [app fold_right];
      [reflexivity | rewrite IH; lia]. }
  rewrite Hs, Hw, map_map. cbn [List.filter triggers app].
  destruct (has_link txt), (has_financial txt); cbn [map sumZ fold_right weight reason_of app];
    rewrite <- ?app_assoc; cbn [app];
    match goal with |- context [100 <? ?x] => destruct (Z.ltb_spec 100 x) end;
    f_equal; try lia; now rewrite ?app_nil_r.
Qed.

Lemma sumZ_weight_nonneg (rs : list rule) : 0 <= sumZ (map weight rs).
Proof.
  unfold sumZ. induction rs as [|r rs IH]; cbn [map fold_right]; [lia|].
  destruct r; cbn [weight]; lia.
Qed.

Lemma sumZ_filter_mono (f g : rule -> bool) (rs : list rule) :
  (forall r, In r rs -> f r = true -> g r = true) ->
  sumZ (map weight (List.filter f rs)) <= sumZ (map weight (List.filter g rs)).
Proof.
  unfold sumZ. induction rs as [|r rs IH]; intros H; [cbn; lia|].
  assert (IH' := IH (fun r' Hr' => H r' (or_intror Hr'))).
  cbn [List.filter]. destruct (f r) eqn:Hf.
  - rewrite (H r (or_introl eq_refl) Hf). cbn [map fold_right]. lia.
  - destruct (g r); cbn [map fold_right]; [|exact IH'].
    destruct r; cbn [weight]; lia.
Qed.

(** C2: the score lies in [10,100], and an input that triggers every rule
    another input triggers scores at least as much. *)
Theorem score_range_and_monotone (subject body subject' body' : text) :
  (10 <= fst (simple_heuristic_score subject body) <= 100) /\
  ((forall r, In r (triggered subject body) -> In r (triggered subject' body')) ->
   fst (simple_heuristic_score subject body)
   <= fst (simple_heuristic_score subject' body')).
Proof.
  rewrite !simple_heuristic_score_rules. cbn [fst]. split.
  - pose proof (sumZ_weight_nonneg (triggered subject body)). lia.
  - intros H. apply Z.min_le_compat_l, Z.add_le_mono_l.
    unfold triggered in *. apply sumZ_filter_mono. intros r Hr Ht.
    specialize (H r). rewrite !filter_In in H. apply H. now split.
Qed.

Lemma score_range_and_monotone_witness :
  (forall r, In r (triggered (str "Reset") (str "hello")) ->
             In r (triggered (str "reset your password") (str "http://x"))) /\
  fst (simple_heuristic_score (str "Reset") (str "hello"))
  <= fst (simple_heuristic_score (str "reset your password") (str "http://x")).
Proof.
  assert (H : forall r, In r (triggered (str "Reset") (str "hello")) ->
             In r (triggered (str "reset your password") (str "http://x"))).
  { vm_compute. intros r [<- | []]. right. left. reflexivity. }
  split; [exact H|].
  exact (proj2 (score_range_and_monotone (str "Reset") (str "hello")
                  (str "reset your password") (str "http://x")) H).
Defined.

(** C3: the score is 10, plus 15 per keyword of the ordered keyword list
    occurring in the lowercased [subject + " " + body], plus 20 once if the
    text contains "http://" or "https://", plus 15 once if it contains one of
    bank, paypal, crypto, capped at 100; the reasons are one
    "Contains keyword: <word>" per matched keyword in list order, then
    "Contains a link", then "Mentions financial service or money". *)
Theorem simple_heuristic_score_spec (subject body : text) :
  let txt := lower (subject ++ str " " ++ body) in
  let matched := List.filter (fun w => contains w txt)
    [str "password"; str "verify"; str "account"; str "login";
     str "click"; str "reset"; str "urgent"] in
  let link := contains (str "http://") txt || contains (str "https://") txt in
  let fin := contains (str "bank") txt || contains (str "paypal") txt
             || contains (str "crypto") txt in
  simple_heuristic_score subject body =
  (Z.min 100 (10 + 15 * Z.of_nat (length matched)
              + (if link then 20 else 0) + (if fin then 15 else 0)),
   map (fun w => str "Contains keyword: " ++ w) matched
   ++ (if link then [str "Contains a link"] else [])
   ++ (if fin then [str "Mentions financial service or money"] else [])).
Proof.
  intros txt matched link fin. unfold simple_heuristic_score.
  fold txt. fold phishing_keywords in matched. rewrite keyword_loop. fold matched.
  unfold has_link, has_financial. fold link fin.
  destruct link, fin; cbn [app];
    match goal with |- context [100 <? ?x] => destruct (Z.ltb_spec 100 x) end;
    rewrite <- ?app_assoc; cbn [app]; f_equal; try lia; now rewrite ?app_nil_r.
Qed.

(** ** Header inspector *)

(** C7: with the headers absent or empty, the three authentication fields
    are unknown and the flags are exactly ["No headers provided"]. *)
Theorem fake_header_analysis_no_headers :
  let r1 := fake_header_analysis None in
  let r2 := fake_header_analysis (Some []) in
  (spf_pass r1 = None /\ dkim_pass r1 = None /\ dmarc_pass r1 = None /\
   suspicious_flags r1 = [str "No headers provided"]) /\
  (spf_pass r2 = None /\ dkim_pass r2 = None /\ dmarc_pass r2 = None /\
   suspicious_flags r2 = [str "No headers provided"]).
Proof. repeat split. Qed.

(** C8: "SPF=PASS; DKIM=fail" gives spf_pass = true, dkim_pass = false,
    dmarc_pass = false and the single DKIM flag; for any non-empty blob each
    pass field is true exactly when the lowercased blob contains
    "<mech>=pass", and each "<mech>=fail" adds its own flag. *)
Theorem fake_header_analysis_spec :
  (let r := fake_header_analysis (Some (str "SPF=PASS; DKIM=fail")) in
   spf_pass r = Some true /\ dkim_pass r = Some false /\
   dmarc_pass r = Some false /\
   suspicious_flags r = [str "DKIM fail found in Authentication-Results"]) /\
  (forall raw : text, raw <> [] ->
   let r := fake_header_analysis (Some raw) in
   let l := lower raw in
   spf_pass r = Some (contains (str "spf=pass") l) /\
   dkim_pass r = Some (contains (str "dkim=pass") l) /\
   dmarc_pass r = Some (contains (str "dmarc=pass") l) /\
   suspicious_flags r =
     (if contains (str "spf=fail") l
      then [str "SPF fail found in Authentication-Results"] else [])
     ++ (if contains (str "dkim=fail") l
         then [str "DKIM fail found in Authentication-Results"] else [])
     ++ (if contains (str "dmarc=fail") l
         then [str "DMARC fail found in Authentication-Results"] else [])).
Proof.
  split; [repeat split|].
  intros raw Hraw r l. subst r l. destruct raw as [|c raw]; [congruence|].
  unfold fake_header_analysis. cbn [truthy negb default spf_pass dkim_pass dmarc_pass suspicious_flags].
  repeat split.
  destruct (contains (str "spf=fail") _), (contains (str "dkim=fail") _),
    (contains (str "dmarc=fail") _); reflexivity.
Qed.

Lemma fake_header_analysis_spec_witness :
  str "dmarc=fail spf=pass" <> [] /\
  suspicious_flags (fake_header_analysis (Some (str "dmarc=fail spf=pass")))
  = [str "DMARC fail found in Authentication-Results"].
Proof.
  assert (H : str "dmarc=fail spf=pass" <> []) by discriminate.
  split; [exact H|].
  destruct (proj2 fake_header_analysis_spec (str "dmarc=fail spf=pass") H)
    as (_ & _ & _ & Hf).
  rewrite Hf. reflexivity.
Defined.

(** ** Case-insensitive containment and trimming *)

Lemma lower_app (a b : text) : lower (a ++ b) = lower a ++ lower b.
Proof. apply map_app. Qed.

Lemma lower_split (s a b : text) :
  lower s = a ++ b -> exists s1 s2, s = s1 ++ s2 /\ lower s1 = a /\ lower s2 = b.
Proof.
  revert s; induction a as [|x a IH]; intros s H.
  - now exists [], s.
  - destruct s as [|c s]; [discriminate|]. cbn in H. injection H as Hx Hs.
    destruct (IH s Hs) as (s1 & s2 & -> & <- & <-).
    exists (c :: s1), s2. cbn. now rewrite Hx.
Qed.

(** [p in s.lower()] says that some stretch of [s] is [p] up to case. *)
Lemma contains_lower_spec (p s : text) :
  contains p (lower s) = true <->
  exists l m r, s = l ++ m ++ r /\ lower m = p.
Proof.
  rewrite contains_spec. split.
  - intros (l & r & H).
    destruct (lower_split _ _ _ H) as (s1 & s2 & -> & _ & H2).
    destruct (lower_split _ _ _ H2) as (m & s3 & -> & Hm & _).
    now exists s1, m, s3.
  - intros (l & m & r & -> & <-). exists (lower l), (lower r).
    now rewrite !lower_app.
Qed.

Lemma lstrip_spec (s : text) :
  exists l, s = l ++ lstrip s /\ forallb isspace l = true /\
            (forall c t, lstrip s = c :: t -> isspace c = false).
Proof.
  induction s as [|c s (l & Hl & Hsp & Hh)].
  - exists []. repeat split. discriminate.
  - cbn [lstrip]. destruct (isspace c) eqn:Hc.
    + exists (c :: l). cbn. rewrite Hc, Hsp. repeat split; [now f_equal | exact Hh].
    + exists []. repeat split. intros c' t [= <- _]. exact Hc.
Qed.

Lemma rstrip_spec (s : text) :
  exists r, s = rstrip s ++ r /\ forallb isspace r = true /\
            (forall t c, rstrip s = t ++ [c] -> isspace c = false).
Proof.
  unfold rstrip. destruct (lstrip_spec (rev s)) as (l & Hl & Hsp & Hh).
  exists (rev l). split; [|split].
  - rewrite <- rev_app_distr, <- Hl. symmetry. apply rev_involutive.
  - rewrite forallb_forall in *. intros x Hx. apply Hsp. now apply in_rev.
  - intros t c Ht. apply (Hh c (rev t)).
    rewrite <- (rev_involutive (lstrip (rev s))), Ht, rev_app_distr. reflexivity.
Qed.

(** [strip] removes a whitespace prefix and a whitespace suffix, and what
    is left neither starts nor ends with whitespace. *)
Lemma strip_spec (s : text) :
  exists l r, s = l ++ strip s ++ r /\
    forallb isspace l = true /\ forallb isspace r = true /\
    (forall c t, strip s = c :: t -> isspace c = false) /\
    (forall t c, strip s = t ++ [c] -> isspace c = false).
Proof.
  unfold strip. destruct (lstrip_spec s) as (l & Hl & Hsp & Hh).
  destruct (rstrip_spec (lstrip s)) as (r & Hr & Hsr & Ht).
  exists l, r. repeat split; try assumption.
  - now rewrite <- Hr.
  - intros c t Hc. rewrite Hc in Hr. apply (Hh c (t ++ r)). exact Hr.
Qed.

(** ** Closing step of the rewrite *)

(** C9: when the body produced by the earlier rewrite steps has no
    "thank you" in any letter case, the rewritten body is that body trimmed
    of its leading and trailing whitespace, followed by an empty line,
    "Thank you,", a line feed and "Customer Support Team"; when it has one,
    the step returns the body as it is. *)
Theorem rewrite_closing_step (subject body : text) :
  let b := body_before_closing body in
  let out := snd (rewrite_to_safe subject body) in
  ((exists l m r, b = l ++ m ++ r /\ lower m = str "thank you") -> out = b) /\
  (~ (exists l m r, b = l ++ m ++ r /\ lower m = str "thank you") ->
   exists l t r,
     b = l ++ t ++ r /\
     forallb isspace l = true /\ forallb isspace r = true /\
     (forall c t', t = c :: t' -> isspace c = false) /\
     (forall t' c, t = t' ++ [c] -> isspace c = false) /\
     out = t ++ [LF; LF] ++ str "Thank you," ++ [LF] ++ str "Customer Support Team").
Proof.
  intros b out. subst out b. unfold rewrite_to_safe, body_before_closing.
  cbn [snd]. set (b := apply_replacements _ _). unfold add_closing.
  rewrite <- contains_lower_spec. split.
  - intros ->. reflexivity.
  - intros H. apply not_true_is_false in H. rewrite H. cbn [negb].
    destruct (strip_spec b) as (l & r & Hb & Hl & Hr & Hh & Ht).
    exists l, (strip b), r. repeat split; assumption.
Qed.

Lemma rewrite_closing_step_witness :
  (snd (rewrite_to_safe (str "Hi") (str "  THANK you all "))
   = body_before_closing (str "  THANK you all ")) /\
  exists l t r,
    body_before_closing (str " pay now  ") = l ++ t ++ r /\
    forallb isspace l = true /\ forallb isspace r = true /\
    (forall c t', t = c :: t' -> isspace c = false) /\
    (forall t' c, t = t' ++ [c] -> isspace c = false) /\
    snd (rewrite_to_safe (str "Hi") (str " pay now  ")) =
      t ++ [LF; LF] ++ str "Thank you," ++ [LF] ++ str "Customer Support Team".
Proof.
  split.
  - apply (proj1 (rewrite_closing_step (str "Hi") (str "  THANK you all "))).
    apply contains_lower_spec. vm_compute. reflexivity.
  - apply (proj2 (rewrite_closing_step (str "Hi") (str " pay now  "))).
    rewrite <- contains_lower_spec. vm_compute. discriminate.
Defined.


(** ** Regular expressions: what a match is *)

Lemma star_k_sound (k : cls) (cont : text -> option text) (s out : text) :
  star_k k cont s = Some out ->
  exists m s', s = m ++ s' /\ matches (Star k) m /\ cont s' = Some out.
Proof.
  induction s as [|c s IH]; cbn [star_k].
  - intros H. exists [], []. repeat split; [constructor | exact H].
  - destruct (cls_matches k c) eqn:Hc.
    + destruct (star_k k cont s) as [r|] eqn:Hs.
      * intros [= <-]. destruct (IH eq_refl) as (m & s' & -> & Hm & Hk).
        exists (c :: m), s'. repeat split; [now constructor | exact Hk].
      * intros H. exists [], (c :: s). repeat split; [constructor | exact H].
    + intros H. exists [], (c :: s). repeat split; [constructor | exact H].
Qed.

Lemma match_k_sound (r : regex) (s : text) (cont : text -> option text) (out : text) :
  match_k r s cont = Some out ->
  exists m s', s = m ++ s' /\ matches r m /\ cont s' = Some out.
Proof.
  revert s cont out; induction r as [|k|r1 IH1 r2 IH2|r1 IH1 r2 IH2|k];
    intros s cont out; cbn [match_k].
  - intros H. exists [], s. repeat split; [constructor | exact H].
  - destruct s as [|c s]; [discriminate|].
    destruct (cls_matches k c) eqn:Hc; [|discriminate].
    intros H. exists [c], s. repeat split; [now constructor | exact H].
  - intros H. destruct (IH1 _ _ _ H) as (m1 & s1 & -> & Hm1 & H1).
    destruct (IH2 _ _ _ H1) as (m2 & s2 & -> & Hm2 & H2).
    exists (m1 ++ m2), s2. rewrite <- app_assoc. repeat split; [now constructor | exact H2].
  - destruct (match_k r1 s cont) as [x|] eqn:H1.
    + intros [= <-]. destruct (IH1 _ _ _ H1) as (m & s' & -> & Hm & Hk).
      exists m, s'. repeat split; [now apply MAltL | exact Hk].
    + intros H. destruct (IH2 _ _ _ H) as (m & s' & -> & Hm & Hk).
      exists m, s'. repeat split; [now apply MAltR | exact Hk].
  - apply star_k_sound.
Qed.

Lemma match_at_sound (r : regex) (s rest : text) :
  match_at r s = Some rest -> exists m, s = m ++ rest /\ matches r m.
Proof.
  intros H. destruct (match_k_sound _ _ _ _ H) as (m & s' & -> & Hm & [= ->]).
  now exists m.
Qed.

Lemma matches_min_len (r : regex) (m : text) :
  matches r m -> (min_len r <= length m)%nat.
Proof.
  induction 1; cbn [min_len length]; rewrite ?length_app; lia.
Qed.

Lemma match_at_shorter (r : regex) (s rest : text) :
  consuming r -> match_at r s = Some rest -> (length rest < length s)%nat.
Proof.
  intros Hr H. destruct (match_at_sound _ _ _ H) as (m & -> & Hm).
  apply matches_min_len in Hm. unfold consuming in Hr. rewrite length_app. lia.
Qed.

(** ** [re.sub]: the scan, one step at a time *)

Lemma scan_fuel_irrel (r : regex) (f1 f2 : nat) (s : text) :
  (length s < f1)%nat -> (length s < f2)%nat ->
  scan_fuel f1 r s = scan_fuel f2 r s.
Proof.
  revert f2 s; induction f1 as [|f1 IH]; intros f2 s H1 H2; [lia|].
  destruct f2 as [|f2]; [lia|]. cbn [scan_fuel].
  destruct (match_at r s) as [rest|].
  - destruct (length s - length rest)%nat eqn:Hn.
    + destruct s as [|c s]; [reflexivity|]. cbn [length] in *.
      do 2 f_equal. apply IH; lia.
    + f_equal. apply IH; lia.
  - destruct s as [|c s]; [reflexivity|]. cbn [length] in *.
    f_equal. apply IH; lia.
Qed.

Lemma scan_nil (r : regex) :
  consuming r -> scan r [] = [].
Proof.
  intros Hr. unfold scan. cbn [scan_fuel length].
  destruct (match_at r []) as [rest|] eqn:H; [|reflexivity].
  apply (match_at_shorter _ _ _ Hr) in H. cbn in H. lia.
Qed.

Lemma scan_kept (r : regex) (c : ascii) (s : text) :
  match_at r (c :: s) = None -> scan r (c :: s) = Kept c :: scan r s.
Proof.
  intros H. unfold scan. cbn [scan_fuel length]. rewrite H. f_equal.
Qed.

Lemma scan_matched (r : regex) (s rest : text) :
  consuming r -> match_at r s = Some rest ->
  scan r s = Matched (firstn (length s - length rest) s) :: scan r rest.
Proof.
  intros Hr H. pose proof (match_at_shorter _ _ _ Hr H) as Hlt.
  unfold scan. set (f := S (length rest)). cbn [scan_fuel]. rewrite H.
  destruct (length s - length rest)%nat eqn:Hn; [lia|].
  f_equal. subst f. apply scan_fuel_irrel; lia.
Qed.

Lemma re_sub_nil (r : regex) (repl : text) :
  consuming r -> re_sub r repl [] = [].
Proof. intros Hr. unfold re_sub. now rewrite scan_nil. Qed.

Lemma re_sub_kept (r : regex) (repl : text) (c : ascii) (s : text) :
  match_at r (c :: s) = None -> re_sub r repl (c :: s) = c :: re_sub r repl s.
Proof. intros H. unfold re_sub. now rewrite scan_kept. Qed.

Lemma re_sub_matched (r : regex) (repl s rest : text) :
  consuming r -> match_at r s = Some rest ->
  re_sub r repl s = repl ++ re_sub r repl rest.
Proof. intros Hr H. unfold re_sub. now rewrite (scan_matched _ _ _ Hr H). Qed.

(** The scan cuts the string and loses nothing. *)
Lemma scan_raw (r : regex) (s : text) :
  consuming r -> concat (map raw (scan r s)) = s.
Proof.
  intros Hr. remember (length s) as n eqn:Hn. revert s Hn.
  induction n as [n IH] using lt_wf_ind. intros s ->.
  destruct (match_at r s) as [rest|] eqn:H.
  - rewrite (scan_matched _ _ _ Hr H). cbn [map concat raw].
    pose proof (match_at_shorter _ _ _ Hr H) as Hlt.
    rewrite (IH (length rest) Hlt rest eq_refl).
    destruct (match_at_sound _ _ _ H) as (m & -> & _).
    rewrite length_app, Nat.add_sub, firstn_app, firstn_all, Nat.sub_diag.
    cbn. now rewrite app_nil_r.
  - destruct s as [|c s]; [now rewrite scan_nil|].
    rewrite (scan_kept _ _ _ H). cbn [map concat raw app]. f_equal.
    apply (IH (length s)); [cbn; lia | reflexivity].
Qed.


(** ** URL detection: an automaton for [https?://\S]

    The states record how much of a URL prefix the text read so far ends
    with; [UAcc] is reached once some position starts a match of
    [pat_url]. *)

Lemma urun_acc (s : text) : urun UAcc s = UAcc.
Proof. induction s as [|c s IH]; [reflexivity | exact IH]. Qed.

Lemma urun_app (q : ustate) (a b : text) : urun q (a ++ b) = urun (urun q a) b.
Proof. apply fold_left_app. Qed.

Arguments ascii_eqb : simpl never.
Arguments isspace : simpl never.

(** Evaluate the character tests on literal characters. *)
Ltac eval_chars :=
  repeat match goal with
  | |- context [ascii_eqb (Ascii ?a ?b ?c ?d ?e ?f ?g ?h)
                          (Ascii ?a' ?b' ?c' ?d' ?e' ?f' ?g' ?h')] =>
      let t := constr:(ascii_eqb (Ascii a b c d e f g h)
                                 (Ascii a' b' c' d' e' f' g' h')) in
      let v := eval vm_compute in t in change t with v
  | H : context [ascii_eqb (Ascii ?a ?b ?c ?d ?e ?f ?g ?h)
                           (Ascii ?a' ?b' ?c' ?d' ?e' ?f' ?g' ?h')] |- _ =>
      let t := constr:(ascii_eqb (Ascii a b c d e f g h)
                                 (Ascii a' b' c' d' e' f' g' h')) in
      let v := eval vm_compute in t in change t with v in H
  | |- context [isspace (Ascii ?a ?b ?c ?d ?e ?f ?g ?h)] =>
      let t := constr:(isspace (Ascii a b c d e f g h)) in
      let v := eval vm_compute in t in change t with v
  | H : context [isspace (Ascii ?a ?b ?c ?d ?e ?f ?g ?h)] |- _ =>
      let t := constr:(isspace (Ascii a b c d e f g h)) in
      let v := eval vm_compute in t in change t with v in H
  end.

Ltac usimpl := cbn; eval_chars; cbn.

(** Case analysis on the character [c] along the tests the goal makes of
    it. *)
Ltac char_cases c :=
  repeat match goal with
  | |- context [ascii_eqb ?a c] =>
      let H := fresh "E" in
      destruct (ascii_eqb a c) eqn:H;
      [unfold ascii_eqb in H; apply Ascii.eqb_eq in H; subst c; usimpl | ]
  | |- context [isspace c] => destruct (isspace c) eqn:?; usimpl
  end.

Ltac ufin :=
  intros; rewrite ?orb_false_r in *; try discriminate; try congruence; auto.

Lemma ustep_acc (q : ustate) (c : ascii) (s : text) :
  q <> UAcc -> ustep q c = UAcc -> completes q (c :: s) = true.
Proof.
  intros Hq. destruct q; try congruence; usimpl; char_cases c; ufin.
Qed.

Lemma completes_step (q : ustate) (c : ascii) (s : text) :
  completes q (c :: s) = true ->
  ustep q c = UAcc \/ completes (ustep q c) s = true.
Proof.
  destruct q; usimpl; char_cases c; ufin.
Qed.

Lemma url_at_step (q : ustate) (c : ascii) (s : text) :
  url_at (c :: s) = true ->
  ustep q c = UAcc \/ completes (ustep q c) s = true.
Proof.
  unfold url_at. destruct q; usimpl; char_cases c; ufin.
Qed.

Lemma completes_back (q : ustate) (c : ascii) (s : text) :
  ustep q c <> UAcc -> completes (ustep q c) s = true ->
  completes q (c :: s) = true \/ url_at (c :: s) = true.
Proof.
  unfold url_at. destruct q; usimpl; char_cases c; ufin.
Qed.

Lemma star_k_total (k : cls) (s : text) : exists r, star_k k Some s = Some r.
Proof.
  induction s as [|c s [r IH]]; cbn [star_k]; [now exists []|].
  destruct (cls_matches k c); [rewrite IH|]; eauto.
Qed.

Ltac list_cases :=
  repeat match goal with
  | |- context [star_k ?k Some ?s] =>
      let r := fresh "r" in
      destruct (star_k_total k s) as [r ->]; usimpl
  | |- context [match ?s with [] => _ | _ :: _ => _ end] =>
      is_var s;
      let c := fresh "c" in
      destruct s as [|c s]; usimpl; char_cases c; try reflexivity
  end.

Lemma match_at_pat_url (s : text) : is_some (match_at pat_url s) = url_at s.
Proof.
  unfold url_at, match_at, pat_url, is_some. usimpl.
  destruct s as [|c s]; usimpl; [reflexivity|].
  char_cases c; try reflexivity.
  list_cases.
  all: reflexivity.
Qed.

Lemma re_search_url_cons (c : ascii) (s : text) :
  re_search pat_url (c :: s) = url_at (c :: s) || re_search pat_url s.
Proof.
  change (re_search pat_url (c :: s))
    with (match match_at pat_url (c :: s) with
          | Some _ => true
          | None => re_search pat_url s
          end).
  rewrite <- match_at_pat_url. now destruct (match_at pat_url (c :: s)).
Qed.

Lemma completes_nil (q : ustate) : completes q [] = false.
Proof. now destruct q. Qed.

(** The automaton accepts exactly when the pending prefix is completed or
    a match of [pat_url] starts later on. *)
Lemma urun_spec (s : text) (q : ustate) :
  q <> UAcc ->
  urun q s = UAcc <-> completes q s = true \/ re_search pat_url s = true.
Proof.
  revert q; induction s as [|c s IH]; intros q Hq.
  - rewrite completes_nil. cbn. split; [congruence | intros [|]; discriminate].
  - rewrite re_search_url_cons, orb_true_iff.
    change (urun q (c :: s)) with (urun (ustep q c) s).
    destruct (ustate_eq_dec (ustep q c) UAcc) as [Ha|Hna].
    + rewrite Ha, urun_acc. split; [|reflexivity].
      intros _. left. now apply ustep_acc.
    + rewrite (IH _ Hna). split.
      * intros [H|H]; [|now auto].
        destruct (completes_back _ _ _ Hna H); auto.
      * intros [H|[H|H]]; [| |now auto].
        -- destruct (completes_step _ _ _ H); [contradiction | now left].
        -- destruct (url_at_step q _ _ H); [contradiction | now left].
Qed.

Lemma urun_url_free (s : text) : urun U0 s <> UAcc <-> url_free s.
Proof.
  unfold url_free. rewrite urun_spec by discriminate. cbn [completes pending existsb].
  destruct (re_search pat_url s); split; intros H; try reflexivity;
    try discriminate; [exfalso; apply H; now right | intros [|]; discriminate].
Qed.

Lemma urun_mono (q : ustate) (s : text) : urun U0 s = UAcc -> urun q s = UAcc.
Proof.
  intros H. destruct (ustate_eq_dec q UAcc) as [->|Hq]; [apply urun_acc|].
  apply (urun_spec s q Hq). right.
  apply (urun_spec s U0) in H; [|discriminate].
  destruct H as [H|H]; [discriminate | exact H].
Qed.

(** ** No URL survives the rewrite *)

Lemma consuming_pat_url : consuming pat_url.
Proof. unfold consuming. cbn. lia. Qed.

Lemma urun_link_marker (q : ustate) :
  q <> U8 -> q <> UAcc -> urun q link_marker = U0.
Proof. destruct q; intros; try congruence; reflexivity. Qed.

(** The URL removal, followed from any automaton state whose pending
    prefix the input does not complete. *)
Lemma remove_urls_run (s : text) (q : ustate) :
  q <> UAcc -> completes q s = false ->
  urun q (re_sub pat_url link_marker s) <> UAcc.
Proof.
  remember (length s) as n eqn:Hn. revert s q Hn.
  induction n as [n IH] using lt_wf_ind. intros s q -> Hq Hc.
  destruct (match_at pat_url s) as [rest|] eqn:Hm.
  - rewrite (re_sub_matched _ _ _ _ consuming_pat_url Hm), urun_app.
    pose proof (match_at_shorter _ _ _ consuming_pat_url Hm) as Hlt.
    assert (Hu : url_at s = true) by (now rewrite <- match_at_pat_url, Hm).
    destruct s as [|c s]; [discriminate|].
    assert (Hq8 : q <> U8).
    { intros ->. destruct (url_at_step U8 _ _ Hu) as [Ha|Hb].
      - apply (ustep_acc U8 c s) in Ha; congruence.
      - revert Hb Hc. cbn. destruct (isspace c); cbn; congruence. }
    rewrite (urun_link_marker q Hq8 Hq).
    apply (IH (length rest) Hlt rest U0 eq_refl); [discriminate | reflexivity].
  - destruct s as [|c s]; [now rewrite (re_sub_nil _ _ consuming_pat_url)|].
    rewrite (re_sub_kept _ _ _ _ Hm).
    change (urun q (c :: ?x)) with (urun (ustep q c) x).
    assert (Hu : url_at (c :: s) = false) by (now rewrite <- match_at_pat_url, Hm).
    assert (Ha : ustep q c <> UAcc).
    { intros Ha. apply (ustep_acc q c s Hq) in Ha. congruence. }
    apply (IH (length s)); [cbn; lia | reflexivity | exact Ha |].
    destruct (completes (ustep q c) s) eqn:Hb; [|reflexivity].
    destruct (completes_back _ _ _ Ha Hb); congruence.
Qed.

Lemma remove_urls_free (s : text) : url_free (remove_urls s).
Proof.
  apply urun_url_free. apply remove_urls_run; [discriminate | reflexivity].
Qed.

Lemma isspace_lower_char (c : ascii) : isspace (lower_char c) = isspace c.
Proof. destruct c as [[] [] [] [] [] [] [] []]; reflexivity. Qed.

Lemma min_len_lit_i (w : text) : min_len (lit_i w) = length w.
Proof.
  induction w as [|c w IH]; [reflexivity|].
  destruct w as [|c' w]; [reflexivity|].
  change (lit_i (c :: c' :: w)) with (Cat (Chr (CLitI c)) (lit_i (c' :: w))).
  cbn [min_len length] in *. now rewrite IH.
Qed.

Lemma consuming_lit_i (c : ascii) (w : text) : consuming (lit_i (c :: w)).
Proof. unfold consuming. rewrite min_len_lit_i. cbn. lia. Qed.

Lemma matches_lit_i_head (p : ascii) (w m : text) :
  matches (lit_i (p :: w)) m ->
  exists c m', m = c :: m' /\ lower_char p = lower_char c.
Proof.
  destruct w as [|p' w].
  - cbn. intros H. inversion H as [|k c Hc| | | | |]; subst.
    exists c, []. split; [reflexivity|].
    cbn in Hc. unfold ascii_eqb in Hc. now apply Ascii.eqb_eq in Hc.
  - change (lit_i (p :: p' :: w)) with (Cat (Chr (CLitI p)) (lit_i (p' :: w))).
    intros H. inversion H as [| |r1 r2 m1 m2 H1 H2| | | |]; subst.
    inversion H1 as [|k c Hc| | | | |]; subst.
    exists c, m2. split; [reflexivity|].
    cbn in Hc. unfold ascii_eqb in Hc. now apply Ascii.eqb_eq in Hc.
Qed.

(** Replacing a word that starts with a non-whitespace character by a
    text that leaves the automaton idle introduces no URL. *)
Lemma replace_run (p : ascii) (w R : text) :
  isspace (lower_char p) = false ->
  (forall q, q <> U8 -> q <> UAcc -> urun q R = U0) ->
  forall (s : text) (q : ustate),
    urun q s <> UAcc -> urun q (re_sub (lit_i (p :: w)) R s) <> UAcc.
Proof.
  intros Hp HR s. remember (length s) as n eqn:Hn. revert s Hn.
  induction n as [n IH] using lt_wf_ind. intros s -> q Hs.
  pose proof (consuming_lit_i p w) as Hcons.
  destruct (match_at (lit_i (p :: w)) s) as [rest|] eqn:Hm.
  - rewrite (re_sub_matched _ _ _ _ Hcons Hm), urun_app.
    pose proof (match_at_shorter _ _ _ Hcons Hm) as Hlt.
    destruct (match_at_sound _ _ _ Hm) as (m & -> & Hmm).
    destruct (matches_lit_i_head _ _ _ Hmm) as (c & m' & -> & Hc).
    assert (Hsp : isspace c = false).
    { rewrite <- isspace_lower_char, <- Hc. exact Hp. }
    assert (Hq : q <> UAcc) by (intros ->; now rewrite urun_acc in Hs).
    assert (Hq8 : q <> U8).
    { intros ->. apply Hs. cbn [app]. change (urun U8 (c :: ?x)) with (urun (ustep U8 c) x).
      cbn [ustep]. rewrite Hsp. apply urun_acc. }
    rewrite (HR q Hq8 Hq).
    apply (IH (length rest) Hlt rest eq_refl).
    intros H. apply Hs. rewrite urun_app. now apply urun_mono.
  - destruct s as [|c s]; [now rewrite (re_sub_nil _ _ Hcons)|].
    rewrite (re_sub_kept _ _ _ _ Hm).
    change (urun q (c :: ?x)) with (urun (ustep q c) x).
    apply (IH (length s)); [cbn; lia | reflexivity | exact Hs].
Qed.

Ltac idle_replacement :=
  intros q; destruct q; intros; try congruence; reflexivity.

Lemma apply_body_replacements_free (s : text) :
  url_free s -> url_free (apply_replacements body_replacements s).
Proof.
  rewrite <- !urun_url_free. unfold apply_replacements, body_replacements.
  cbn [fold_left]. intros H.
  repeat (apply replace_run; [reflexivity | idle_replacement |]).
  exact H.
Qed.

Lemma ustep_space (q : ustate) (c : ascii) :
  q <> UAcc -> isspace c = true -> ustep q c = U0.
Proof.
  intros Hq. destruct q; try congruence; usimpl; char_cases c; ufin.
Qed.

Lemma urun_spaces (l : text) : forallb isspace l = true -> urun U0 l = U0.
Proof.
  induction l as [|c l IH]; [reflexivity|]. cbn [forallb].
  rewrite andb_true_iff. intros [Hc Hl].
  change (urun U0 (c :: l)) with (urun (ustep U0 c) l).
  rewrite ustep_space by (congruence || assumption). now apply IH.
Qed.

Lemma urun_closing (q : ustate) : q <> UAcc -> urun q closing = U0.
Proof. destruct q; intros; try congruence; reflexivity. Qed.

Lemma add_closing_free (s : text) : url_free s -> url_free (add_closing s).
Proof.
  unfold add_closing. destruct (negb _); [|auto].
  rewrite <- !urun_url_free. intros H.
  destruct (strip_spec s) as (l & r & Hs & Hl & _).
  rewrite Hs, !urun_app, (urun_spaces l Hl) in H.
  rewrite urun_app, urun_closing; [discriminate|].
  intros Ha. rewrite Ha, urun_acc in H. congruence.
Qed.

(** C10: the rewritten body has no match of [https?://\S+]: the URL
    removal leaves none, and neither the later replacements nor the closing
    block brings one in. *)
Theorem rewritten_body_has_no_url :
  (forall body, re_search pat_url (remove_urls body) = false) /\
  (forall body, re_search pat_url body = false ->
     re_search pat_url (apply_replacements body_replacements body) = false) /\
  (forall body, re_search pat_url body = false ->
     re_search pat_url (add_closing body) = false) /\
  (forall subject body,
     re_search pat_url (snd (rewrite_to_safe subject body)) = false).
Proof.
  split; [exact remove_urls_free|].
  split; [exact apply_body_replacements_free|].
  split; [exact add_closing_free|].
  intros subject body. unfold rewrite_to_safe. cbn [snd].
  apply add_closing_free, apply_body_replacements_free, remove_urls_free.
Qed.

Lemma rewritten_body_has_no_url_witness :
  re_search pat_url (str "see http:// urgent") = false /\
  re_search pat_url (apply_replacements body_replacements (str "see http:// urgent")) = false /\
  re_search pat_url (add_closing (str "see http:// urgent")) = false.
Proof.
  assert (H : re_search pat_url (str "see http:// urgent") = false) by (vm_compute; reflexivity).
  destruct rewritten_body_has_no_url as (_ & H1 & H2 & _).
  split; [exact H|]. split; [exact (H1 _ H) | exact (H2 _ H)].
Defined.


(** ** Sensitive-instruction patterns: what the removal covers *)

Lemma match_k_lit_i (w s : text) (cont : text -> option text) :
  match_k (lit_i w) s cont =
  if starts_with (lower w) (lower s) then cont (skipn (length w) s) else None.
Proof.
  revert s; induction w as [|c w IH]; intros s; [reflexivity|].
  destruct w as [|c2 w].
  - destruct s as [|c' s]; [reflexivity|]. cbn.
    now rewrite andb_true_r.
  - change (lit_i (c :: c2 :: w)) with (Cat (Chr (CLitI c)) (lit_i (c2 :: w))).
    cbn [match_k]. destruct s as [|c' s]; [reflexivity|].
    cbn [cls_matches lower map starts_with length skipn].
    destruct (ascii_eqb (lower_char c) (lower_char c')); [|reflexivity].
    rewrite IH. reflexivity.
Qed.

Lemma starts_with_app (w r : text) : starts_with w (w ++ r) = true.
Proof. apply starts_with_spec. now exists r. Qed.

Lemma length_lower (s : text) : length (lower s) = length s.
Proof. apply length_map. Qed.

(** A literal matched up to case, in front of anything. *)
Lemma match_k_lit_i_app (w w0 s : text) (cont : text -> option text) :
  lower w0 = lower w ->
  match_k (lit_i w) (w0 ++ s) cont = cont s.
Proof.
  intros H. rewrite match_k_lit_i, lower_app, H, starts_with_app.
  f_equal. apply (f_equal (@length ascii)) in H. rewrite !length_lower in H.
  rewrite <- H, skipn_app, skipn_all, Nat.sub_diag. reflexivity.
Qed.

Lemma star_k_first (k : cls) (cont : text -> option text) (s r : text) :
  cont s = Some r -> exists out, star_k k cont s = Some out.
Proof.
  intros H. destruct s as [|c s]; cbn [star_k]; [eauto|].
  destruct (cls_matches k c); [|eauto].
  destruct (star_k k cont s); eauto.
Qed.

(** A greedy [.*] in front of a continuation that succeeds at [t]: read
    from [x ++ t] with [x] on one line it succeeds, at [t] or later. *)
Lemma star_reach (cont : text -> option text) (x t : text) (N : nat) :
  no_lf x = true ->
  (exists out, cont t = Some out) ->
  (forall v w out, t = v ++ w -> cont w = Some out -> (length out <= N)%nat) ->
  exists out, star_k CAny cont (x ++ t) = Some out /\ (length out <= N)%nat.
Proof.
  intros Hx [r0 Hr0] HD. induction x as [|c x IH].
  - destruct (star_k_first CAny cont t r0 Hr0) as [out Hout].
    exists out. split; [exact Hout|].
    destruct (star_k_sound _ _ _ _ Hout) as (m & s' & Ht & _ & Hc).
    exact (HD m s' out Ht Hc).
  - cbn [no_lf forallb] in Hx. apply andb_true_iff in Hx as [Hc Hx].
    destruct (IH Hx) as (out & Hout & Hlen).
    exists out. split; [|exact Hlen].
    cbn [app star_k]. now rewrite Hc, Hout.
Qed.

Lemma no_lf_app (a b : text) : no_lf (a ++ b) = no_lf a && no_lf b.
Proof. apply forallb_app. Qed.

Lemma no_lf_skipn (n : nat) (a : text) : no_lf a = true -> no_lf (skipn n a) = true.
Proof.
  intros H. rewrite <- (firstn_skipn n a), no_lf_app in H.
  now apply andb_true_iff in H.
Qed.

Lemma no_lf_firstn (n : nat) (a : text) : no_lf a = true -> no_lf (firstn n a) = true.
Proof.
  intros H. rewrite <- (firstn_skipn n a), no_lf_app in H.
  now apply andb_true_iff in H.
Qed.

(** A tail that matches [K0] exactly and never less than one character
    short of it. *)
Lemma tail_ok_base (r : regex) (K0 post : text) :
  match_at r (K0 ++ post) = Some post ->
  (length K0 <= min_len r + 1)%nat ->
  tail_ok r (K0 ++ post) (length post).
Proof.
  intros Hm Hlen. split; [eauto|].
  intros v w out Ht Hw. destruct v as [|c v].
  - cbn in Ht. subst w. rewrite Hm in Hw. injection Hw as <-. lia.
  - destruct (match_at_sound _ _ _ Hw) as (m & -> & Hmm).
    apply matches_min_len in Hmm.
    apply (f_equal (@length ascii)) in Ht. rewrite !length_app in Ht.
    cbn [length] in Ht. lia.
Qed.

(** [lit_i A], then [.*], then a tail: the tail property goes through. *)
Lemma tail_ok_cat (A A0 y t : text) (tail : regex) (N : nat) :
  lower A0 = lower A -> no_lf (A0 ++ y) = true ->
  tail_ok tail t N ->
  tail_ok (Cat (lit_i A) (Cat (Star CAny) tail)) (A0 ++ y ++ t) N.
Proof.
  intros HA Hnl [HE HD].
  assert (Hlen : length A0 = length A).
  { apply (f_equal (@length ascii)) in HA. now rewrite !length_lower in HA. }
  rewrite no_lf_app in Hnl. apply andb_true_iff in Hnl as [HnA Hny].
  split.
  - unfold match_at. cbn [match_k]. rewrite (match_k_lit_i_app _ _ _ _ HA).
    destruct (star_reach (fun s => match_k tail s Some) y t N Hny HE HD) as (out & Ho & _).
    eauto.
  - intros v w out Ht Hw. unfold match_at in Hw. cbn [match_k] in Hw.
    rewrite match_k_lit_i in Hw.
    destruct (starts_with (lower A) (lower w)) eqn:Hsw; [|discriminate].
    set (w2 := skipn (length A) w) in *.
    assert (Hw2 : w = firstn (length A) w ++ w2) by (symmetry; apply firstn_skipn).
    assert (HlA : length (firstn (length A) w) = length A).
    { apply firstn_length_le. apply starts_with_spec in Hsw as [r Hr].
      apply (f_equal (@length ascii)) in Hr.
      rewrite length_app, !length_lower in Hr. lia. }
    assert (Ht' : (A0 ++ y) ++ t = (v ++ firstn (length A) w) ++ w2).
    { rewrite <- !app_assoc. unfold w2. now rewrite firstn_skipn. }
    apply app_eq_app in Ht' as [l [[H1 H2]|[H1 H2]]].
    + (* the tail is read from inside [A0 ++ y] *)
      assert (Hl : no_lf l = true).
      { assert (Hay : no_lf (A0 ++ y) = true) by (rewrite no_lf_app, HnA, Hny; reflexivity).
        rewrite H1, no_lf_app in Hay. now apply andb_true_iff in Hay. }
      destruct (star_reach (fun s => match_k tail s Some) l t N Hl HE HD)
        as (out' & Ho & Hb).
      rewrite H2, Ho in Hw. injection Hw as <-. exact Hb.
    + (* the tail is read from inside [t] *)
      destruct (star_k_sound _ _ _ _ Hw) as (m & s' & Hs' & _ & Hc).
      apply (HD (l ++ m) s' out); [|exact Hc].
      now rewrite H2, Hs', app_assoc.
Qed.

Lemma one_line_char (k : cls) (c : ascii) :
  negb (cls_matches k LF) = true -> cls_matches k c = true ->
  cls_matches CAny c = true.
Proof.
  intros Hk Hc. cbn [cls_matches]. unfold LF in Hk.
  destruct (ascii_eqb "010" c) eqn:E; [|reflexivity].
  unfold ascii_eqb in E. apply Ascii.eqb_eq in E. subst c.
  rewrite Hc in Hk. discriminate.
Qed.

Lemma matches_no_lf (r : regex) (m : text) :
  one_line r = true -> matches r m -> no_lf m = true.
Proof.
  intros Hr Hm. induction Hm; cbn [one_line] in Hr;
    rewrite ?andb_true_iff in Hr.
  - reflexivity.
  - cbn [no_lf forallb]. now rewrite (one_line_char k c Hr H).
  - rewrite no_lf_app, IHHm1, IHHm2; tauto.
  - apply IHHm; tauto.
  - apply IHHm; tauto.
  - reflexivity.
  - cbn [no_lf forallb]. rewrite (one_line_char k c Hr H). now apply IHHm.
Qed.

Lemma lower_char_lf (c : ascii) :
  ascii_eqb "010" (lower_char c) = ascii_eqb "010" c.
Proof. destruct c as [[] [] [] [] [] [] [] []]; reflexivity. Qed.

Lemma no_lf_lower (s : text) : no_lf (lower s) = no_lf s.
Proof.
  induction s as [|c s IH]; [reflexivity|].
  change (no_lf (lower (c :: s)))
    with (cls_matches CAny (lower_char c) && no_lf (lower s)).
  change (no_lf (c :: s)) with (cls_matches CAny c && no_lf s).
  rewrite IH. cbn [cls_matches]. now rewrite lower_char_lf.
Qed.

Lemma one_line_lit_i (w : text) : no_lf (lower w) = true -> one_line (lit_i w) = true.
Proof.
  induction w as [|c w IH]; [reflexivity|]. intros H.
  cbn [lower map no_lf forallb] in H. apply andb_true_iff in H as [Hc Hw].
  assert (Hk : one_line (Chr (CLitI c)) = true).
  { cbn [one_line cls_matches] in *.
    destruct (ascii_eqb (lower_char c) (lower_char LF)) eqn:E; [|reflexivity].
    unfold ascii_eqb in E. apply Ascii.eqb_eq in E.
    change (lower_char LF) with LF in E. rewrite E in Hc. discriminate. }
  destruct w as [|c2 w]; [exact Hk|].
  change (lit_i (c :: c2 :: w)) with (Cat (Chr (CLitI c)) (lit_i (c2 :: w))).
  cbn [one_line] in *. rewrite Hk. now apply IH.
Qed.

(** [lia] once every length of an append is split. *)
Ltac len_lia :=
  repeat match goal with
  | H : context [length (_ ++ _)] |- _ => rewrite length_app in H
  end;
  rewrite ?length_app; lia.

Section Covering.

Variables (A : text) (tail pat : regex).
Hypothesis pat_def : pat = Cat (lit_i A) (Cat (Star CAny) tail).

Variables (A0 x T0 post span : text).
Hypothesis span_def : span = A0 ++ x ++ T0.

Hypothesis A_nonempty : A <> [].
Hypothesis A_line : no_lf (lower A) = true.
Hypothesis tail_line : one_line tail = true.
Hypothesis A0_A : lower A0 = lower A.
Hypothesis x_line : no_lf x = true.
Hypothesis tail_T0 : tail_ok tail (T0 ++ post) (length post).

Lemma pat_consuming : consuming pat.
Proof.
  unfold consuming. rewrite pat_def. cbn [min_len]. rewrite min_len_lit_i.
  destruct A; [congruence | cbn; lia].
Qed.

Lemma pat_one_line : one_line pat = true.
Proof.
  rewrite pat_def. cbn [one_line]. rewrite (one_line_lit_i A A_line), tail_line.
  reflexivity.
Qed.

Lemma A0_line : no_lf A0 = true.
Proof. now rewrite <- no_lf_lower, A0_A. Qed.

Lemma length_A0 : length A0 = length A.
Proof.
  pose proof (f_equal (@length ascii) A0_A) as H.
  now rewrite !length_lower in H.
Qed.

(** A match that starts at or before the span, on the line of the span,
    reaches the end of the span. *)
Lemma match_reaches (p out : text) :
  no_lf p = true ->
  match_at pat (p ++ span ++ post) = Some out ->
  (length out <= length post)%nat.
Proof.
  intros Hp Hm. unfold match_at in Hm. rewrite pat_def in Hm. cbn [match_k] in Hm.
  rewrite match_k_lit_i in Hm.
  destruct (starts_with _ _); [|discriminate].
  assert (Hs : skipn (length A) (p ++ span ++ post)
               = skipn (length A) (p ++ A0 ++ x) ++ T0 ++ post).
  { rewrite span_def. replace (p ++ (A0 ++ x ++ T0) ++ post)
      with ((p ++ A0 ++ x) ++ T0 ++ post) by (now rewrite <- !app_assoc).
    rewrite skipn_app.
    replace (length A - length (p ++ A0 ++ x))%nat with 0%nat; [reflexivity|].
    rewrite !length_app, length_A0. lia. }
  rewrite Hs in Hm.
  destruct tail_T0 as [HE HD].
  destruct (star_reach (fun s => match_k tail s Some)
              (skipn (length A) (p ++ A0 ++ x)) (T0 ++ post) (length post))
    as (out' & Ho & Hb); [|exact HE|exact HD|].
  - apply no_lf_skipn. now rewrite !no_lf_app, Hp, A0_line, x_line.
  - rewrite Ho in Hm. injection Hm as <-. exact Hb.
Qed.

Lemma match_at_span : exists out, match_at pat (span ++ post) = Some out.
Proof.
  destruct (tail_ok_cat A A0 x (T0 ++ post) tail (length post)) as [HE _];
    [exact A0_A | now rewrite no_lf_app, A0_line, x_line | exact tail_T0 |].
  rewrite span_def, pat_def. now rewrite <- !app_assoc.
Qed.

(** The scan replaces the span, wherever it stands. *)
Lemma scan_covers (pre : text) :
  exists ps1 m ps2,
    scan pat (pre ++ span ++ post) = ps1 ++ Matched m :: ps2 /\
    (length (concat (map raw ps1)) <= length pre)%nat /\
    (length pre + length span
     <= length (concat (map raw ps1)) + length m)%nat.
Proof.
  remember (length pre) as n eqn:Hn. revert pre Hn.
  induction n as [n IH] using lt_wf_ind. intros pre ->.
  assert (IH' : forall pre', (length pre' < length pre)%nat ->
    exists ps1 m ps2,
      scan pat (pre' ++ span ++ post) = ps1 ++ Matched m :: ps2 /\
      (length (concat (map raw ps1)) <= length pre')%nat /\
      (length pre' + length span
       <= length (concat (map raw ps1)) + length m)%nat).
  { intros pre' Hlt. exact (IH _ Hlt pre' eq_refl). }
  clear IH.
  destruct (match_at pat (pre ++ span ++ post)) as [out|] eqn:Hm.
  - pose proof (match_at_shorter _ _ _ pat_consuming Hm) as Hlt.
    destruct (match_at_sound _ _ _ Hm) as (m & Hs & Hmm).
    rewrite (scan_matched _ _ _ pat_consuming Hm).
    assert (Hfirst : firstn (length (pre ++ span ++ post) - length out)
                       (pre ++ span ++ post) = m).
    { rewrite Hs, length_app, Nat.add_sub, firstn_app, firstn_all, Nat.sub_diag.
      cbn. apply app_nil_r. }
    rewrite Hfirst. clear Hfirst.
    pose proof (f_equal (@length ascii) Hs) as Hlen.
    rewrite !length_app in Hlen, Hlt.
    apply app_eq_app in Hs as [l [[H1 H2]|[H1 H2]]].
    + (* the match ends before the span *)
      pose proof (f_equal (@length ascii) H1) as L1.
      pose proof (f_equal (@length ascii) H2) as L2.
      rewrite !length_app in L1, L2.
      destruct (IH' l) as (ps1 & m' & ps2 & Hsc & H3 & H4); [len_lia|].
      rewrite H2, Hsc. exists (Matched m :: ps1), m', ps2.
      cbn [app map concat raw]. rewrite length_app.
      repeat split; try reflexivity; len_lia.
    + (* the match runs into the span, or ends right before it *)
      pose proof (f_equal (@length ascii) H1) as L1.
      pose proof (f_equal (@length ascii) H2) as L2.
      rewrite !length_app in L1, L2.
      assert (Hp : no_lf pre = true).
      { pose proof (matches_no_lf _ _ pat_one_line Hmm) as Hl.
        rewrite H1, no_lf_app in Hl. now apply andb_true_iff in Hl. }
      pose proof (match_reaches pre out Hp Hm) as Hb.
      exists [], m, (scan pat out). cbn [app map concat length].
      repeat split; try reflexivity; len_lia.
  - destruct pre as [|c pre].
    + destruct match_at_span as [out Ho]. cbn [app] in Hm. congruence.
    + cbn [app] in *. rewrite (scan_kept _ _ _ Hm).
      destruct (IH' pre) as (ps1 & m' & ps2 & Hsc & H3 & H4); [cbn; len_lia|].
      rewrite Hsc. exists (Kept c :: ps1), m', ps2.
      cbn [app map concat raw length] in *. repeat split; try reflexivity; len_lia.
Qed.

Lemma pattern_replaces (repl pre : text) :
  replaced_by pat repl (pre ++ span ++ post) pre span.
Proof.
  destruct (scan_covers pre) as (ps1 & m & ps2 & Hsc & H1 & H2).
  exists ps1, m, ps2. repeat split; try assumption.
  unfold re_sub. rewrite Hsc, map_app, concat_app. reflexivity.
Qed.

End Covering.

(** The literal [w] does not match where the text reads, up to case, as
    the different word [k]. *)
Ltac lit_fails H :=
  rewrite match_k_lit_i, lower_app, <- H;
  match goal with
  | |- context [starts_with ?a ?b] =>
      let v := eval cbn in (starts_with a b) in
      change (starts_with a b) with v
  end;
  eval_chars; cbn [andb].

Lemma kw_alt_match (K0 post : text) :
  In (lower K0) click_keywords -> match_at kw_alt (K0 ++ post) = Some post.
Proof.
  unfold click_keywords, match_at, kw_alt. cbn [match_k In].
  intros [H|[H|[H|[H|[]]]]].
  - rewrite (match_k_lit_i_app (str "login")) by (now rewrite <- H).
    reflexivity.
  - lit_fails H.
    rewrite (match_k_lit_i_app (str "log in")) by (now rewrite <- H).
    reflexivity.
  - lit_fails H. lit_fails H.
    rewrite (match_k_lit_i_app (str "verify")) by (now rewrite <- H).
    reflexivity.
  - lit_fails H. lit_fails H. lit_fails H.
    now rewrite (match_k_lit_i_app (str "reset")) by (now rewrite <- H).
Qed.

Lemma kw_alt_tail (K0 post : text) :
  In (lower K0) click_keywords -> tail_ok kw_alt (K0 ++ post) (length post).
Proof.
  intros H. apply tail_ok_base; [now apply kw_alt_match|].
  assert (Hl : (length (lower K0) <= 6)%nat).
  { destruct H as [H|[H|[H|[H|[]]]]]; rewrite <- H; cbn; lia. }
  rewrite length_lower in Hl. cbn. lia.
Qed.

Lemma lit_i_tail (K K0 post : text) :
  lower K0 = lower K -> tail_ok (lit_i K) (K0 ++ post) (length post).
Proof.
  intros H. apply tail_ok_base.
  - unfold match_at. now apply match_k_lit_i_app.
  - rewrite min_len_lit_i. apply (f_equal (@length ascii)) in H.
    rewrite !length_lower in H. lia.
Qed.

Lemma no_lf_of_lower (w s : text) : lower s = w -> no_lf w = true -> no_lf s = true.
Proof. intros <-. now rewrite no_lf_lower. Qed.

Lemma click_span_replaced (pre C x L y K post : text) :
  lower C = str "click" -> lower L = str "link" ->
  In (lower K) click_keywords ->
  no_lf x = true -> no_lf y = true ->
  replaced_by pat_click removed_marker
    (pre ++ (C ++ x ++ L ++ y ++ K) ++ post) pre (C ++ x ++ L ++ y ++ K).
Proof.
  intros HC HL HK Hx Hy.
  apply (pattern_replaces (str "click")
           (Cat (lit_i (str "link")) (Cat (Star CAny) kw_alt)) pat_click eq_refl
           C x (L ++ y ++ K) post _ eq_refl);
    try reflexivity; try assumption; try discriminate.
  rewrite <- !app_assoc.
  apply tail_ok_cat; [exact HL | | now apply kw_alt_tail].
  rewrite no_lf_app, Hy, (no_lf_of_lower _ _ HL); reflexivity.
Qed.

Lemma enter_span_replaced (pre E x P post : text) :
  lower E = str "enter" -> lower P = str "password" -> no_lf x = true ->
  replaced_by pat_enter removed_marker (pre ++ (E ++ x ++ P) ++ post) pre (E ++ x ++ P).
Proof.
  intros HE HP Hx.
  apply (pattern_replaces (str "enter") (lit_i (str "password")) pat_enter eq_refl
           E x P post _ eq_refl);
    try reflexivity; try assumption; try discriminate.
  now apply lit_i_tail.
Qed.

Lemma provide_span_replaced (pre E x P post : text) :
  lower E = str "provide" -> lower P = str "credentials" -> no_lf x = true ->
  replaced_by pat_provide removed_marker (pre ++ (E ++ x ++ P) ++ post) pre (E ++ x ++ P).
Proof.
  intros HE HP Hx.
  apply (pattern_replaces (str "provide") (lit_i (str "credentials")) pat_provide eq_refl
           E x P post _ eq_refl);
    try reflexivity; try assumption; try discriminate.
  now apply lit_i_tail.
Qed.

Lemma remove_patterns_steps (body : text) :
  remove_patterns body =
  re_sub pat_provide removed_marker
    (re_sub pat_enter removed_marker (re_sub pat_click removed_marker body)).
Proof. unfold remove_patterns, patterns_to_remove. cbn [fold_left]. reflexivity. Qed.

(** C6, as the code has it: the three removals run one after the other,
    each on the text the one before left; in the text a removal reads, a
    stretch "click" .. "link" .. one of "login", "log in", "verify", "reset"
    (in any letter case, with the text between the words free of line
    feeds) lies inside one match, which the marker replaces; likewise
    "enter" .. "password" and "provide" .. "credentials". *)
Theorem sensitive_spans_replaced :
  (forall body,
     remove_patterns body =
     re_sub pat_provide removed_marker
       (re_sub pat_enter removed_marker (re_sub pat_click removed_marker body))) /\
  (forall pre C x L y K post,
     lower C = str "click" -> lower L = str "link" ->
     In (lower K) [str "login"; str "log in"; str "verify"; str "reset"] ->
     no_lf x = true -> no_lf y = true ->
     replaced_by pat_click (str "[removed sensitive instructions]")
       (pre ++ (C ++ x ++ L ++ y ++ K) ++ post) pre (C ++ x ++ L ++ y ++ K)) /\
  (forall pre E x P post,
     lower E = str "enter" -> lower P = str "password" -> no_lf x = true ->
     replaced_by pat_enter (str "[removed sensitive instructions]")
       (pre ++ (E ++ x ++ P) ++ post) pre (E ++ x ++ P)) /\
  (forall pre E x P post,
     lower E = str "provide" -> lower P = str "credentials" -> no_lf x = true ->
     replaced_by pat_provide (str "[removed sensitive instructions]")
       (pre ++ (E ++ x ++ P) ++ post) pre (E ++ x ++ P)).
Proof.
  split; [exact remove_patterns_steps|].
  split; [exact click_span_replaced|].
  split; [exact enter_span_replaced | exact provide_span_replaced].
Qed.

Lemma sensitive_spans_replaced_witness :
  replaced_by pat_click (str "[removed sensitive instructions]")
    (str "Please " ++ (str "Click" ++ str " the " ++ str "LINK" ++ str " to "
                       ++ str "Log In") ++ str " now")
    (str "Please ")
    (str "Click" ++ str " the " ++ str "LINK" ++ str " to " ++ str "Log In") /\
  replaced_by pat_enter (str "[removed sensitive instructions]")
    (str "" ++ (str "ENTER" ++ str " your " ++ str "Password") ++ str "!")
    (str "") (str "ENTER" ++ str " your " ++ str "Password").
Proof.
  destruct sensitive_spans_replaced as (_ & Hclick & Henter & _).
  split.
  - apply Hclick; try reflexivity. right. left. reflexivity.
  - apply Henter; reflexivity.
Defined.

(** C6, as the specification words it, fails: free text with a line feed
    between the words stops the match, and the body is left as it was. *)
Lemma sensitive_span_over_two_lines_kept :
  let C := str "click" in
  let x := [LF] in
  let L := str "link" in
  let y := str " " in
  let K := str "login" in
  lower C = str "click" /\ lower L = str "link" /\
  In (lower K) [str "login"; str "log in"; str "verify"; str "reset"] /\
  remove_patterns (C ++ x ++ L ++ y ++ K) = C ++ x ++ L ++ y ++ K /\
  ~ replaced_by pat_click (str "[removed sensitive instructions]")
      ([] ++ (C ++ x ++ L ++ y ++ K) ++ []) [] (C ++ x ++ L ++ y ++ K).
Proof.
  intros C x L y K.
  split; [reflexivity|]. split; [reflexivity|].
  split; [left; reflexivity|]. split; [vm_compute; reflexivity|].
  intros (ps1 & m & ps2 & Hsc & _).
  assert (Hin : In (Matched m) (scan pat_click ([] ++ (C ++ x ++ L ++ y ++ K) ++ []))).
    { rewrite Hsc. apply in_elt. }
    vm_compute in Hin.
    repeat (destruct Hin as [Hin|Hin]; [discriminate|]). exact Hin.
Qed.

(** ** The diff *)

(** *** Slices and chains of blocks *)

Section DiffProofs.

Local Open Scope nat_scope.

Lemma slice_lookup {X} (l : list X) (i j d : nat) :
  slice l i j !! d = if decide (d < j - i) then l !! (i + d) else None.
Proof.
  unfold slice. destruct (decide (d < j - i)) as [Hd|Hd].
  - now rewrite lookup_take_lt, lookup_drop.
  - apply lookup_take_ge. lia.
Qed.

Lemma slice_empty {X} (l : list X) (i j : nat) : j <= i -> slice l i j = [].
Proof. intros Hij. unfold slice. replace (j - i) with 0 by lia. apply take_0. Qed.

Lemma slice_app {X} (l : list X) (i m n : nat) :
  i <= m -> m <= n -> slice l i m ++ slice l m n = slice l i n.
Proof.
  intros H1 H2. unfold slice.
  replace (drop m l) with (drop (m - i) (drop i l))
    by (rewrite drop_drop; f_equal; lia).
  rewrite take_take_drop. f_equal. lia.
Qed.

Lemma slice_all {X} (l : list X) : slice l 0 (length l) = l.
Proof. unfold slice. rewrite drop_0, Nat.sub_0_r. now apply take_ge. Qed.

Lemma chain_le {T} (a b : list T) i j blocks i' j' :
  chain a b i j blocks i' j' -> i <= i' /\ j <= j'.
Proof. induction 1; lia. Qed.

Lemma chain_bound {T} (a b : list T) i j blocks i' j' :
  chain a b i j blocks i' j' ->
  i <= length a -> j <= length b -> i' <= length a /\ j' <= length b.
Proof.
  induction 1 as [|i j ai bj size rest i' j' Hi Hj (Ha & Hb & _) _ IH]; [lia|].
  intros _ _. apply IH; assumption.
Qed.

Lemma chain_app {T} (a b : list T) i j l1 i1 j1 l2 i2 j2 :
  chain a b i j l1 i1 j1 -> chain a b i1 j1 l2 i2 j2 ->
  chain a b i j (l1 ++ l2) i2 j2.
Proof.
  induction 1; intros Hc2; [exact Hc2|].
  cbn [app]. apply chain_cons; auto.
Qed.

Lemma chain_snoc_inv {T} (a b : list T) i j l x i2 j2 :
  chain a b i j (l ++ [x]) i2 j2 ->
  exists i1 j1, chain a b i j l i1 j1 /\ chain a b i1 j1 [x] i2 j2.
Proof.
  revert i j. induction l as [|y l IH]; intros i j Hc.
  - exists i, j. split; [constructor | exact Hc].
  - cbn [app] in Hc.
    inversion Hc as [|? ? ai bj size ? ? ? Hi Hj Hr Hrest]; subst.
    destruct (IH _ _ Hrest) as (i1 & j1 & H1 & H2).
    exists i1, j1. split; [now apply chain_cons | exact H2].
Qed.

(** *** [get_opcodes] over a chain of blocks *)

Lemma emit_all_app (a b : list text) (o1 o2 : list opcode) :
  emit_all a b (o1 ++ o2) = emit_all a b o1 ++ emit_all a b o2.
Proof. unfold emit_all. now rewrite map_app, concat_app. Qed.

Lemma orig_side_app (s1 s2 : list segment) :
  orig_side (s1 ++ s2) = orig_side s1 ++ orig_side s2.
Proof. apply flat_map_app. Qed.

Lemma new_side_app (s1 s2 : list segment) :
  new_side (s1 ++ s2) = new_side s1 ++ new_side s2.
Proof. apply flat_map_app. Qed.

Lemma orig_side_plain (ws : list text) : orig_side (map Plain ws) = ws.
Proof. induction ws as [|w ws IH]; [reflexivity | cbn; now f_equal]. Qed.

Lemma orig_side_removed (ws : list text) : orig_side (map Removed ws) = ws.
Proof. induction ws as [|w ws IH]; [reflexivity | cbn; now f_equal]. Qed.

Lemma orig_side_added (ws : list text) : orig_side (map Added ws) = [].
Proof. induction ws as [|w ws IH]; [reflexivity | exact IH]. Qed.

Lemma new_side_plain (ws : list text) : new_side (map Plain ws) = ws.
Proof. induction ws as [|w ws IH]; [reflexivity | cbn; now f_equal]. Qed.

Lemma new_side_added (ws : list text) : new_side (map Added ws) = ws.
Proof. induction ws as [|w ws IH]; [reflexivity | cbn; now f_equal]. Qed.

Lemma new_side_removed (ws : list text) : new_side (map Removed ws) = [].
Proof. induction ws as [|w ws IH]; [reflexivity | exact IH]. Qed.

(** The opcodes of one block: both sides advance to the end of the block. *)
Lemma opcode_step_sides (a b : list text) (i j ai bj size : nat)
    (answer : list opcode) :
  i <= ai -> j <= bj -> run a b (ai, bj, size) ->
  exists ops,
    opcode_step (i, j, answer) (ai, bj, size)
      = (ai + size, bj + size, answer ++ ops) /\
    orig_side (emit_all a b ops) = slice a i (ai + size) /\
    new_side (emit_all a b ops) = slice b j (bj + size).
Proof.
  intros Hi Hj (Ha & Hb & Heq). unfold opcode_step.
  set (gap := if (i <? ai) && (j <? bj) then [(Replace, i, ai, j, bj)]
              else if i <? ai then [(Delete, i, ai, j, bj)]
              else if j <? bj then [(Insert, i, ai, j, bj)] else []).
  set (eqs := if 0 <? size then [(Equal, ai, ai + size, bj, bj + size)] else []).
  exists (gap ++ eqs). split; [|split].
  - subst gap eqs.
    destruct (i <? ai), (j <? bj), (0 <? size); cbn [andb];
      rewrite <- ?app_assoc, ?app_nil_r; reflexivity.
  - rewrite emit_all_app, orig_side_app, <- (slice_app a i ai (ai + size)) by lia.
    f_equal.
    + subst gap. destruct (Nat.ltb_spec i ai), (Nat.ltb_spec j bj); cbn [andb];
        unfold emit_all; cbn [map concat emit];
        rewrite ?app_nil_r, ?orig_side_app, ?orig_side_removed, ?orig_side_added,
          ?app_nil_r; try reflexivity; symmetry; apply slice_empty; lia.
    + subst eqs. destruct (Nat.ltb_spec 0 size).
      * unfold emit_all. cbn [map concat emit]. now rewrite app_nil_r, orig_side_plain.
      * symmetry. apply slice_empty. lia.
  - rewrite emit_all_app, new_side_app, <- (slice_app b j bj (bj + size)) by lia.
    f_equal.
    + subst gap. destruct (Nat.ltb_spec i ai), (Nat.ltb_spec j bj); cbn [andb];
        unfold emit_all; cbn [map concat emit];
        rewrite ?app_nil_r, ?new_side_app, ?new_side_removed, ?new_side_added;
        try reflexivity; symmetry; apply slice_empty; lia.
    + subst eqs. destruct (Nat.ltb_spec 0 size).
      * unfold emit_all. cbn [map concat emit].
        now rewrite app_nil_r, new_side_plain, Heq.
      * symmetry. apply slice_empty. lia.
Qed.

Lemma opcodes_sides (a b : list text) (blocks : list block) (i j i' j' : nat)
    (answer : list opcode) :
  chain a b i j blocks i' j' ->
  exists ops,
    fold_left opcode_step blocks (i, j, answer) = (i', j', answer ++ ops) /\
    orig_side (emit_all a b ops) = slice a i i' /\
    new_side (emit_all a b ops) = slice b j j'.
Proof.
  intros Hc. revert answer.
  induction Hc as [i j|i j ai bj size rest i' j' Hi Hj Hrun Hc IH]; intros answer.
  - exists []. rewrite app_nil_r, !slice_empty by lia. auto.
  - destruct (opcode_step_sides a b i j ai bj size answer Hi Hj Hrun)
      as (ops1 & Hs & Ho & Hn).
    destruct (IH (answer ++ ops1)) as (ops2 & Hf & Ho2 & Hn2).
    destruct (chain_le _ _ _ _ _ _ _ Hc) as [Hle1 Hle2].
    exists (ops1 ++ ops2). cbn [fold_left]. rewrite Hs, Hf, app_assoc.
    split; [reflexivity|].
    rewrite emit_all_app, orig_side_app, new_side_app, Ho, Ho2, Hn, Hn2.
    rewrite !slice_app by lia. auto.
Qed.

(** *** Merging adjacent blocks *)

Lemma run_empty {T} (a b : list T) (i j : nat) :
  i <= length a -> j <= length b -> run a b (i, j, 0).
Proof.
  intros Hi Hj. unfold run. rewrite !slice_empty by lia. repeat split; lia.
Qed.

Lemma run_merge {T} (a b : list T) (i j k k' : nat) :
  run a b (i, j, k) -> run a b (i + k, j + k, k') -> run a b (i, j, k + k').
Proof.
  intros (H1 & H2 & H3) (H4 & H5 & H6). unfold run.
  rewrite <- (slice_app a i (i + k) (i + (k + k'))) by lia.
  rewrite <- (slice_app b j (j + k) (j + (k + k'))) by lia.
  rewrite !Nat.add_assoc, H3, H6. repeat split; lia.
Qed.

Lemma collapse_fold {T} (a b : list T) (l : list block) (i' j' : nat) :
  forall i1 j1 k1 out,
    chain a b 0 0 (out ++ [(i1, j1, k1)]) (i1 + k1) (j1 + k1) ->
    chain a b (i1 + k1) (j1 + k1) l i' j' ->
    exists i2 j2 k2 out',
      fold_left collapse_step l ((i1, j1, k1), out) = ((i2, j2, k2), out') /\
      chain a b 0 0 (out' ++ [(i2, j2, k2)]) i' j' /\
      i2 + k2 = i' /\ j2 + k2 = j'.
Proof.
  induction l as [|[[x2 y2] z2] l IH]; intros i1 j1 k1 out Hout Hl.
  - inversion Hl; subst. exists i1, j1, k1, out. auto.
  - inversion Hl as [|? ? ? ? ? ? ? ? Hi Hj Hr Hrest]; subst.
    destruct (chain_snoc_inv _ _ _ _ _ _ _ _ Hout) as (ia & ja & Ha & Hcur).
    inversion Hcur as [|? ? ? ? ? ? ? ? Hia Hja Hrc Hnil]; subst.
    cbn [fold_left collapse_step].
    destruct (Nat.eqb_spec (i1 + k1) x2) as [E1|E1];
      [destruct (Nat.eqb_spec (j1 + k1) y2) as [E2|E2]|]; cbn [andb].
    + (* adjacent: the block grows *)
      subst x2 y2. apply IH.
      * apply (chain_app _ _ _ _ _ _ _ _ _ _ Ha).
        apply chain_cons; try assumption; [now apply run_merge|].
        rewrite !Nat.add_assoc. constructor.
      * now rewrite !Nat.add_assoc.
    + apply IH; [|exact Hrest].
      destruct (0 <? k1) eqn:Hk.
      * apply (chain_app _ _ _ _ _ _ _ _ _ _ Hout).
        apply chain_cons; try assumption. constructor.
      * apply Nat.ltb_ge in Hk. apply (chain_app _ _ _ _ _ _ _ _ _ _ Ha).
        apply chain_cons; try assumption; try lia. constructor.
    + apply IH; [|exact Hrest].
      destruct (0 <? k1) eqn:Hk.
      * apply (chain_app _ _ _ _ _ _ _ _ _ _ Hout).
        apply chain_cons; try assumption. constructor.
      * apply Nat.ltb_ge in Hk. apply (chain_app _ _ _ _ _ _ _ _ _ _ Ha).
        apply chain_cons; try assumption; try lia. constructor.
Qed.

(** The merged blocks, with the closing [(len(a), len(b), 0)], still form
    a chain, now from [(0, 0)] to the ends of both sequences. *)
Lemma collapse_chain {T} (a b : list T) (l : list block) (i' j' : nat) :
  chain a b 0 0 l i' j' ->
  chain a b 0 0 (collapse (length a) (length b) l) (length a) (length b).
Proof.
  intros Hl. unfold collapse.
  destruct (collapse_fold a b l i' j' 0 0 0 []) as (i2 & j2 & k2 & out & Hf & Hc & <- & <-).
  - cbn [app]. apply chain_cons; try lia; [apply run_empty; lia | constructor].
  - exact Hl.
  - rewrite Hf.
    destruct (chain_bound _ _ _ _ _ _ _ Hc) as [Hb1 Hb2]; try lia.
    assert (Hend : chain a b (i2 + k2) (j2 + k2) [(length a, length b, 0)]
                     (length a) (length b)).
    { apply chain_cons; try lia; [apply run_empty; lia|].
      rewrite !Nat.add_0_r. constructor. }
    destruct (0 <? k2) eqn:Hk.
    + exact (chain_app _ _ _ _ _ _ _ _ _ _ Hc Hend).
    + apply Nat.ltb_ge in Hk.
      destruct (chain_snoc_inv _ _ _ _ _ _ _ _ Hc) as (ia & ja & Ha & Hcur).
      inversion Hcur as [|? ? ? ? ? ? ? ? Hia Hja Hrc Hnil]; subst.
      apply (chain_app _ _ _ _ _ _ _ _ _ _ Ha).
      apply chain_cons; try lia; [apply run_empty; lia|].
      rewrite !Nat.add_0_r. constructor.
Qed.

(** *** Sorting the blocks *)

Lemma rsep_sym (r1 r2 : region) : rsep r1 r2 -> rsep r2 r1.
Proof. unfold rsep. tauto. Qed.

Lemma FOP_app {X} (R : X -> X -> Prop) (l1 l2 : list X) :
  ForallOrdPairs R (l1 ++ l2) <->
  ForallOrdPairs R l1 /\ ForallOrdPairs R l2 /\
  (forall x y, In x l1 -> In y l2 -> R x y).
Proof.
  induction l1 as [|z l1 IH]; cbn [app].
  - split; [intros Hf; repeat split; [constructor | exact Hf | intros ? ? []]|tauto].
  - split.
    + intros Hf. inversion Hf as [|? ? Hz Hr]; subst.
      apply IH in Hr as (H1 & H2 & H3). rewrite Forall_app in Hz.
      destruct Hz as [Hz1 Hz2]. repeat split; [now constructor | exact H2|].
      intros x y [<-|Hx] Hy; [|now apply H3].
      rewrite List.Forall_forall in Hz2. now apply Hz2.
    + intros (H1 & H2 & H3). inversion H1 as [|? ? Hz Hr]; subst.
      constructor.
      * rewrite Forall_app. split; [exact Hz|].
        rewrite List.Forall_forall. intros y Hy. apply H3; [now left | exact Hy].
      * apply IH. repeat split; [exact Hr | exact H2|].
        intros x y Hx Hy. apply H3; [now right | exact Hy].
Qed.

Lemma FOP_perm {X} (R : X -> X -> Prop) (l l' : list X) :
  (forall x y, R x y -> R y x) ->
  l ≡ₚ l' -> ForallOrdPairs R l -> ForallOrdPairs R l'.
Proof.
  intros Hsym Hp. induction Hp as [|x l l' Hp IH|x y l|l l' l'' _ IH1 _ IH2]; intros Hf.
  - exact Hf.
  - inversion Hf as [|? ? Hx Hr]; subst. constructor; [|now apply IH].
    now rewrite <- Hp.
  - inversion Hf as [|? ? Hy Hr]; subst. inversion Hr as [|? ? Hx Hr']; subst.
    inversion Hy as [|? ? Hyx Hy']; subst.
    constructor; [constructor; [now apply Hsym | exact Hx]|].
    now constructor.
  - auto.
Qed.

Lemma block_leb_fst (x y : block) : block_le x y -> x.1.1 <= y.1.1.
Proof.
  destruct x as [[i1 j1] k1], y as [[i2 j2] k2]. unfold block_le, block_leb.
  cbn [fst snd].
  destruct (Nat.ltb_spec i1 i2); [lia|].
  destruct (Nat.eqb_spec i1 i2); [lia|].
  cbn [orb andb]. discriminate.
Qed.

#[global] Instance block_le_trans : Transitive block_le.
Proof.
  intros [[i1 j1] k1] [[i2 j2] k2] [[i3 j3] k3]. unfold block_le, block_leb.
  repeat match goal with
  | |- context [?x <? ?y] => destruct (Nat.ltb_spec x y)
  | |- context [?x =? ?y] => destruct (Nat.eqb_spec x y)
  | |- context [?x <=? ?y] => destruct (Nat.leb_spec x y)
  end; cbn; try discriminate; try reflexivity; intros; lia.
Qed.

#[global] Instance block_le_total : Total block_le.
Proof.
  intros [[i1 j1] k1] [[i2 j2] k2]. unfold block_le, block_leb.
  repeat match goal with
  | |- context [?x <? ?y] => destruct (Nat.ltb_spec x y)
  | |- context [?x =? ?y] => destruct (Nat.eqb_spec x y)
  | |- context [?x <=? ?y] => destruct (Nat.leb_spec x y)
  end; cbn; auto; lia.
Qed.

(** Sorted blocks that lie apart from one another follow one another. *)
Lemma sorted_chain {T} (a b : list T) (l : list block) :
  StronglySorted block_le l ->
  ForallOrdPairs rsep (map region_of l) ->
  Forall (fun x => run a b x /\ 0 < x.2) l ->
  forall i j, Forall (fun x => i <= x.1.1 /\ j <= x.1.2) l ->
  exists i' j', chain a b i j l i' j'.
Proof.
  induction l as [|[[xi xj] xk] l IH]; intros Hs Hp Hr i j Hij.
  - exists i, j. constructor.
  - apply StronglySorted_inv in Hs as [Hs Hle].
    cbn [map] in Hp. inversion Hp as [|? ? Hx Hp']; subst.
    inversion Hr as [|? ? [Hrx Hkx] Hr']; subst.
    inversion Hij as [|? ? [Hi Hj] _]; subst. cbn in Hi, Hj, Hkx.
    destruct (IH Hs Hp' Hr' (xi + xk) (xj + xk)) as (i' & j' & Hc).
    + rewrite List.Forall_forall in *. intros [[yi yj] yk] Hy. cbn.
      specialize (Hle _ Hy). apply block_leb_fst in Hle. cbn in Hle.
      specialize (Hr' _ Hy) as [_ Hky]. cbn in Hky.
      assert (Hsep : rsep (region_of (xi, xj, xk)) (region_of (yi, yj, yk))).
      { apply Hx. apply in_map_iff. now exists (yi, yj, yk). }
      destruct Hsep as [Hb|Hb]; cbn in Hb; lia.
    + exists i', j'. now apply chain_cons.
Qed.

End DiffProofs.

(** *** [find_longest_match] returns a block of equal elements *)

Section Matcher.

Local Open Scope nat_scope.

Context {T : Type} `{Countable T}.
Variables (a b : list T).

Lemma same_at_Some (i j : nat) :
  same_at a b i j = true <-> exists x, a !! i = Some x /\ b !! j = Some x.
Proof.
  unfold same_at. destruct (a !! i) as [x|], (b !! j) as [y|];
    try (split; [discriminate | intros (z & Hz1 & Hz2); discriminate]).
  rewrite bool_decide_eq_true. split.
  - intros ->. eauto.
  - intros (z & [= ->] & [= ->]). reflexivity.
Qed.

Lemma eq_run_run (i j k : nat) :
  i <= length a -> j <= length b -> eq_run a b (i, j, k) -> run a b (i, j, k).
Proof.
  intros Hi Hj Hr. unfold run. cbn in Hr.
  assert (Hb : i + k <= length a /\ j + k <= length b).
  { destruct k as [|k]; [lia|].
    destruct (proj1 (same_at_Some _ _) (Hr k ltac:(lia))) as (x & Hx & Hy).
    apply lookup_lt_Some in Hx, Hy. lia. }
  destruct Hb as [Ha Hb]. split; [exact Ha|]. split; [exact Hb|].
  apply list_eq. intros d. rewrite !slice_lookup.
  replace (i + k - i) with k by lia. replace (j + k - j) with k by lia.
  destruct (decide (d < k)) as [Hd|Hd]; [|reflexivity].
  destruct (proj1 (same_at_Some _ _) (Hr d Hd)) as (x & Hx & Hy).
  now rewrite Hx, Hy.
Qed.

Lemma j2len_ok_empty (alo blo bhi i : nat) : j2len_ok a b alo blo bhi i ∅.
Proof. intros j k Hjk. now rewrite lookup_empty in Hjk. Qed.

Lemma j2len_get_pred_spec (alo blo bhi i : nat) (j2len : gmap nat nat) (j : nat) :
  j2len_ok a b alo blo bhi i j2len ->
  let p := j2len_get_pred j2len j in
  p <= i - alo /\ p <= j - blo /\
  forall d, d < p -> same_at a b (i - 1 - d) (j - 1 - d) = true.
Proof.
  intros Hok. destruct j as [|j']; cbn [j2len_get_pred]; cbn zeta.
  - repeat split; intros; lia.
  - destruct (j2len !! j') as [k|] eqn:Hk; cbn [default]; unfold id.
    + destruct (Hok _ _ Hk) as (H1 & H2 & H3 & H4 & H5). cbn zeta.
      split; [lia|]. split; [lia|]. intros d Hd.
      replace (S j' - 1 - d) with (j' - d) by lia. now apply H5.
    + cbn zeta. repeat split; intros; lia.
Qed.

Lemma row_loop_good (box : region) (i : nat) (x : T) (j2len : gmap nat nat) :
  let '(alo, ahi, blo, bhi) := box in
  alo <= i -> i < ahi -> a !! i = Some x ->
  j2len_ok a b alo blo bhi i j2len ->
  forall js st,
    (forall j, j ∈ js -> b !! j = Some x) ->
    j2len_ok a b alo blo bhi (S i) st.1 ->
    in_box box st.2 -> eq_run a b st.2 ->
    let st' := row_loop i blo bhi j2len js st in
    j2len_ok a b alo blo bhi (S i) st'.1 /\ in_box box st'.2 /\ eq_run a b st'.2.
Proof.
  destruct box as [[[alo ahi] blo] bhi]. intros Hlo Hhi Hx Hok js.
  induction js as [|j js IH]; intros st Hjs Hnew Hbox Hrun; cbn [row_loop].
  - auto.
  - assert (Hjs' : forall j0, j0 ∈ js -> b !! j0 = Some x).
    { intros j0 Hj0. apply Hjs. now right. }
    destruct (Nat.ltb_spec j blo) as [Hjb|Hjb]; [now apply IH|].
    destruct (Nat.leb_spec bhi j) as [Hjh|Hjh]; [auto|].
    destruct st as [newj2len [[besti bestj] bestsize]].
    pose proof (j2len_get_pred_spec alo blo bhi i j2len j Hok) as Hp.
    cbn zeta in Hp. set (p := j2len_get_pred j2len j) in *.
    destruct Hp as (Hp1 & Hp2 & Hp3).
    assert (Hb : b !! j = Some x) by (apply Hjs; now left).
    assert (Hk : forall d, d < p + 1 -> same_at a b (i - d) (j - d) = true).
    { intros [|d] Hd.
      - rewrite !Nat.sub_0_r. apply same_at_Some. eauto.
      - replace (i - S d) with (i - 1 - d) by lia.
        replace (j - S d) with (j - 1 - d) by lia. apply Hp3. lia. }
    apply IH; [exact Hjs'| | |]; cbn [fst snd] in *.
    + intros j0 k0. destruct (decide (j0 = j)) as [->|Hne].
      * rewrite lookup_insert_eq. intros [= <-].
        repeat split; try lia. intros d Hd.
        replace (S i - 1 - d) with (i - d) by lia. now apply Hk.
      * rewrite lookup_insert_ne by congruence. apply Hnew.
    + destruct (Nat.ltb_spec bestsize (p + 1)); [|exact Hbox].
      cbn. lia.
    + destruct (Nat.ltb_spec bestsize (p + 1)); [|exact Hrun].
      cbn. intros d Hd.
      replace (i + 1 - (p + 1) + d) with (i - (p - d)) by lia.
      replace (j + 1 - (p + 1) + d) with (j - (p - d)) by lia.
      apply Hk. lia.
Qed.

Lemma row_step_good (box : region) (b2j : gmap T (list nat)) (i : nat)
    (st : gmap nat nat * block) :
  let '(alo, ahi, blo, bhi) := box in
  b2j_sound b b2j -> alo <= i -> i < ahi ->
  j2len_ok a b alo blo bhi i st.1 -> in_box box st.2 -> eq_run a b st.2 ->
  let st' := row_step a b2j blo bhi st i in
  j2len_ok a b alo blo bhi (S i) st'.1 /\ in_box box st'.2 /\ eq_run a b st'.2.
Proof.
  destruct box as [[[alo ahi] blo] bhi]. intros Hs Hlo Hhi Hok Hbox Hrun.
  destruct st as [j2len best]. unfold row_step. cbn [fst snd] in *.
  destruct (a !! i) as [x|] eqn:Hx.
  - apply (row_loop_good (alo, ahi, blo, bhi) i x j2len Hlo Hhi Hx Hok);
      cbn [fst snd]; auto using j2len_ok_empty.
    intros j Hj. destruct (b2j !! x) as [js|] eqn:Hjs; cbn [default] in Hj.
    + exact (Hs _ _ _ Hjs Hj).
    + now apply elem_of_nil in Hj.
  - cbn [row_loop fst snd]. auto using j2len_ok_empty.
Qed.

Lemma rows_good (box : region) (b2j : gmap T (list nat)) (n : nat) :
  let '(alo, ahi, blo, bhi) := box in
  b2j_sound b b2j ->
  forall i st,
    alo <= i -> i + n <= ahi ->
    j2len_ok a b alo blo bhi i st.1 -> in_box box st.2 -> eq_run a b st.2 ->
    let st' := fold_left (row_step a b2j blo bhi) (seq i n) st in
    in_box box st'.2 /\ eq_run a b st'.2.
Proof.
  destruct box as [[[alo ahi] blo] bhi]. intros Hs.
  induction n as [|n IH]; intros i st Hlo Hhi Hok Hbox Hrun; cbn [seq fold_left].
  - auto.
  - destruct (row_step_good (alo, ahi, blo, bhi) b2j i st Hs Hlo ltac:(lia)
                Hok Hbox Hrun) as (H1 & H2 & H3).
    apply IH; auto; lia.
Qed.

Lemma extend_back_good (junk : bool) (box : region) (besti bestj bestsize : nat) :
  in_box box (besti, bestj, bestsize) -> eq_run a b (besti, bestj, bestsize) ->
  let '(alo, ahi, blo, bhi) := box in
  let x := extend_back junk a b alo blo besti bestj bestsize in
  in_box box x /\ eq_run a b x /\ x.1.1 + x.2 = besti + bestsize
  /\ x.1.2 + x.2 = bestj + bestsize.
Proof.
  destruct box as [[[alo ahi] blo] bhi]. revert bestj bestsize.
  induction besti as [|i' IH]; intros bestj bestsize Hbox Hrun;
    [cbn; auto|].
  destruct bestj as [|j']; [cbn [extend_back]; cbn zeta; auto|].
  cbn [extend_back].
  destruct ((alo <? S i') && (blo <? S j')
            && eqb match b !! j' with Some y => isbjunk y | None => false end junk
            && same_at a b i' j') eqn:Hc; [|cbn zeta; auto].
  apply andb_prop in Hc as [Hc Hsame]. apply andb_prop in Hc as [Hc _].
  apply andb_prop in Hc as [H1 H2].
  apply Nat.ltb_lt in H1, H2. cbn in Hbox, Hrun.
  destruct (IH j' (S bestsize)) as (G1 & G2 & G3 & G4).
  - cbn. lia.
  - cbn. intros [|d] Hd.
    + now rewrite !Nat.add_0_r.
    + replace (i' + S d) with (S i' + d) by lia.
      replace (j' + S d) with (S j' + d) by lia. apply Hrun. lia.
  - cbn zeta. repeat split; auto; lia.
Qed.

Lemma extend_fwd_good (junk : bool) (box : region) (besti bestj fuel : nat) :
  forall bestsize,
    in_box box (besti, bestj, bestsize) -> eq_run a b (besti, bestj, bestsize) ->
    let '(alo, ahi, blo, bhi) := box in
    let k := extend_fwd junk a b ahi bhi besti bestj fuel bestsize in
    in_box box (besti, bestj, k) /\ eq_run a b (besti, bestj, k) /\ bestsize <= k.
Proof.
  destruct box as [[[alo ahi] blo] bhi].
  induction fuel as [|fuel IH]; intros bestsize Hbox Hrun; cbn [extend_fwd];
    [cbn zeta; auto|].
  destruct ((besti + bestsize <? ahi) && (bestj + bestsize <? bhi)
            && eqb match b !! (bestj + bestsize) with
                   | Some y => isbjunk y | None => false end junk
            && same_at a b (besti + bestsize) (bestj + bestsize)) eqn:Hc;
    [|cbn zeta; auto].
  apply andb_prop in Hc as [Hc Hsame]. apply andb_prop in Hc as [Hc _].
  apply andb_prop in Hc as [H1 H2].
  apply Nat.ltb_lt in H1, H2. cbn in Hbox, Hrun.
  destruct (IH (S bestsize)) as (G1 & G2 & G3).
  - cbn. lia.
  - cbn. intros d Hd. destruct (decide (d = bestsize)) as [->|Hne];
      [exact Hsame | apply Hrun; lia].
  - cbn zeta in *. split; [exact G1|]. split; [exact G2|]. lia.
Qed.

Lemma extend_good (junk : bool) (box : region) (best : block) :
  in_box box best -> eq_run a b best ->
  let '(alo, ahi, blo, bhi) := box in
  let x := extend junk a b alo ahi blo bhi best in
  in_box box x /\ eq_run a b x.
Proof.
  destruct box as [[[alo ahi] blo] bhi], best as [[besti bestj] bestsize].
  intros Hbox Hrun. unfold extend.
  pose proof (extend_back_good junk (alo, ahi, blo, bhi) besti bestj bestsize
                Hbox Hrun) as Hb. cbv beta iota zeta in Hb. revert Hb.
  destruct (extend_back junk a b alo blo besti bestj bestsize) as [[i j] k].
  intros (G1 & G2 & _).
  pose proof (extend_fwd_good junk (alo, ahi, blo, bhi) i j (ahi - (i + k)) k
                G1 G2) as Hf. cbv beta iota zeta in Hf.
  destruct Hf as (F1 & F2 & _). cbn zeta. auto.
Qed.

(** The block [find_longest_match] returns lies in the box and consists of
    equal elements. *)
Lemma find_longest_match_good (b2j : gmap T (list nat)) (alo ahi blo bhi : nat) :
  b2j_sound b b2j -> alo <= ahi -> blo <= bhi ->
  let x := find_longest_match a b b2j alo ahi blo bhi in
  in_box (alo, ahi, blo, bhi) x /\ eq_run a b x.
Proof.
  intros Hs Ha Hb. unfold find_longest_match.
  pose proof (rows_good (alo, ahi, blo, bhi) b2j (ahi - alo) Hs alo
                (∅, (alo, blo, 0))) as Hr. cbv beta iota zeta in Hr. revert Hr.
  destruct (fold_left (row_step a b2j blo bhi) (seq alo (ahi - alo))
              (∅, (alo, blo, 0))) as [m best].
  intros Hr. destruct Hr as [R1 R2]; cbn [fst snd]; try lia.
  - apply j2len_ok_empty.
  - cbn. lia.
  - cbn. intros d Hd. lia.
  - cbn [fst snd] in R1, R2.
    pose proof (extend_good false (alo, ahi, blo, bhi) best R1 R2) as [E1 E2].
    exact (extend_good true (alo, ahi, blo, bhi) _ E1 E2).
Qed.

End Matcher.

(** *** The index [b2j] *)

Section Index.

Local Open Scope nat_scope.

Context {T : Type} `{Countable T}.

Lemma positions_from_app (x : T) (s : nat) (b1 b2 : list T) :
  positions_from x s (b1 ++ b2)
  = positions_from x s b1 ++ positions_from x (s + length b1) b2.
Proof.
  revert s. induction b1 as [|y b1 IH]; intros s; cbn [app positions_from length].
  - now rewrite Nat.add_0_r.
  - rewrite IH, <- app_assoc. do 3 f_equal. lia.
Qed.

Lemma elem_of_positions_from (x : T) (s : nat) (b : list T) (j : nat) :
  j ∈ positions_from x s b <-> s <= j /\ b !! (j - s) = Some x.
Proof.
  revert s. induction b as [|y b IH]; intros s; cbn [positions_from].
  - rewrite elem_of_nil, lookup_nil. split; [tauto | intros [_ ?]; discriminate].
  - rewrite elem_of_app, IH. destruct (decide (j = s)) as [->|Hne].
    + rewrite Nat.sub_diag. cbn [lookup list_lookup].
      destruct (decide (y = x)) as [->|Hyx].
      * rewrite list_elem_of_singleton. split; [auto | intros _; now left].
      * rewrite elem_of_nil. split; [intros [[]|[? _]]; lia|].
        intros [_ [= ?]]. contradiction.
    + split.
      * intros [Hin|[Hs Hl]].
        -- destruct (decide (y = x)); [apply list_elem_of_singleton in Hin; lia|].
           now apply elem_of_nil in Hin.
        -- split; [lia|]. replace (j - s) with (S (j - S s)) by lia. exact Hl.
      * intros [Hs Hl]. right. split; [lia|].
        replace (j - s) with (S (j - S s)) in Hl by lia. exact Hl.
Qed.

Lemma elem_of_positions (x : T) (b : list T) (j : nat) :
  j ∈ positions x b <-> b !! j = Some x.
Proof.
  unfold positions. rewrite elem_of_positions_from, Nat.sub_0_r.
  split; [tauto | intros ?; split; [lia | assumption]].
Qed.

Lemma positions_nil (x : T) (b : list T) : x ∉ b -> positions x b = [].
Proof.
  intros Hx. destruct (positions x b) as [|j js] eqn:E; [reflexivity|].
  exfalso. apply Hx. apply (list_elem_of_lookup_2 _ j).
  apply elem_of_positions. rewrite E. now left.
Qed.

Lemma combine_snoc {X Y} (l1 : list X) (l2 : list Y) (x : X) (y : Y) :
  length l1 = length l2 ->
  combine (l1 ++ [x]) (l2 ++ [y]) = combine l1 l2 ++ [(x, y)].
Proof.
  revert l2. induction l1 as [|z l1 IH]; intros [|w l2] Hl; try discriminate.
  - reflexivity.
  - cbn [app combine]. f_equal. apply IH. now injection Hl.
Qed.

Lemma enumerate_snoc (b : list T) (e : T) :
  enumerate (b ++ [e]) = enumerate b ++ [(length b, e)].
Proof.
  unfold enumerate. rewrite length_app. cbn [length].
  rewrite Nat.add_1_r, seq_S. apply combine_snoc. now rewrite length_seq.
Qed.

(** Before the popular elements are dropped, [b2j] lists every position
    of every element of [b]. *)
Lemma b2j_lookup (b : list T) (x : T) :
  fold_left b2j_add (enumerate b) ∅ !! x
  = if decide (x ∈ b) then Some (positions x b) else None.
Proof.
  induction b as [|e b IH] using rev_ind.
  - cbn. rewrite lookup_empty. destruct (decide (x ∈ [])) as [Hx|]; [|reflexivity].
    now apply elem_of_nil in Hx.
  - rewrite enumerate_snoc, fold_left_app. cbn [fold_left b2j_add].
    set (m := fold_left b2j_add (enumerate b) ∅) in *.
    unfold positions. rewrite positions_from_app. cbn [positions_from Nat.add].
    rewrite app_nil_r. fold (positions x b).
    destruct (decide (e = x)) as [->|Hne].
    + rewrite lookup_insert_eq, IH.
      destruct (decide (x ∈ b ++ [x])) as [_|Hn];
        [|exfalso; apply Hn; apply elem_of_app; right; now left].
      destruct (decide (x ∈ b)) as [Hx|Hx]; cbn [default from_option]; unfold id;
        [reflexivity|].
      now rewrite positions_nil.
    + rewrite lookup_insert_ne by exact Hne. rewrite IH, app_nil_r.
      destruct (decide (x ∈ b)) as [Hx|Hx], (decide (x ∈ b ++ [e])) as [Hx'|Hx'];
        try reflexivity; exfalso.
      * apply Hx'. apply elem_of_app. now left.
      * apply elem_of_app in Hx' as [?|Hx']; [contradiction|].
        apply list_elem_of_singleton in Hx'. congruence.
Qed.

Lemma chain_b_lookup (b : list T) (x : T) (js : list nat) :
  chain_b b !! x = Some js -> js = positions x b.
Proof.
  unfold chain_b. cbv zeta. intros Hl.
  assert (Hm : fold_left b2j_add (enumerate b) ∅ !! x = Some js).
  { destruct (200 <=? length b); [|exact Hl].
    now apply map_lookup_filter_Some in Hl as [Hl _]. }
  rewrite b2j_lookup in Hm. destruct (decide (x ∈ b)); congruence.
Qed.

Lemma chain_b_sound (b : list T) : b2j_sound b (chain_b b).
Proof.
  intros x js j Hl Hj. apply chain_b_lookup in Hl as ->.
  now apply elem_of_positions.
Qed.

End Index.

(** *** The loop of [get_matching_blocks] *)

Section Loop.

Local Open Scope nat_scope.

Context {T : Type} `{Countable T}.
Variables (a b : list T).

Lemma rsep_rsub (r r' s : region) : rsub r' r -> rsep r s -> rsep r' s.
Proof.
  destruct r as [[[? ?] ?] ?], r' as [[[? ?] ?] ?], s as [[[? ?] ?] ?].
  unfold rsub, rsep, rbefore. lia.
Qed.

Lemma FOP_replace (box : region) (news rest : list region) :
  ForallOrdPairs rsep (box :: rest) ->
  Forall (fun r => rsub r box) news ->
  ForallOrdPairs rsep news ->
  ForallOrdPairs rsep (news ++ rest).
Proof.
  intros Hf Hsub Hn. inversion Hf as [|? ? Hb Hr]; subst.
  apply FOP_app. split; [exact Hn|]. split; [exact Hr|].
  intros x y Hx Hy. rewrite List.Forall_forall in Hsub, Hb.
  apply (rsep_rsub box); auto.
Qed.

Lemma loop_step (b2j : gmap T (list nat)) (alo ahi blo bhi : nat)
    (queue : list region) (blocks : list block) :
  b2j_sound b b2j ->
  loop_inv a b ((alo, ahi, blo, bhi) :: queue) blocks ->
  let '(i, j, k) := find_longest_match a b b2j alo ahi blo bhi in
  let queue1 := if (alo <? i) && (blo <? j) then (alo, i, blo, j) :: queue else queue in
  let queue2 := if (i + k <? ahi) && (j + k <? bhi)
                then (i + k, ahi, j + k, bhi) :: queue1 else queue1 in
  (0 < k -> loop_inv a b queue2 (blocks ++ [(i, j, k)]) /\
            turns queue2 < turns ((alo, ahi, blo, bhi) :: queue)) /\
  (k = 0 -> loop_inv a b queue blocks).
Proof.
  intros Hs (Hq & Hp & Hr).
  inversion Hq as [|? ? Hb Hq']; subst. cbn in Hb. destruct Hb as (B1 & B2 & B3 & B4).
  pose proof (find_longest_match_good a b b2j alo ahi blo bhi Hs B1 B3) as Hg.
  cbv zeta in Hg. revert Hg.
  destruct (find_longest_match a b b2j alo ahi blo bhi) as [[i j] k].
  intros [Hbox Hrun]. cbn in Hbox. destruct Hbox as (G1 & G2 & G3 & G4).
  cbv zeta. split.
  - intros Hk.
    assert (Hnew : run a b (i, j, k)) by (apply eq_run_run; [lia | lia | exact Hrun]).
    assert (Hblocks : Forall (fun x => run a b x /\ 0 < x.2) (blocks ++ [(i, j, k)])).
    { rewrite Forall_app. split; [exact Hr|]. constructor; [|constructor].
      split; [exact Hnew | exact Hk]. }
    assert (Hperm : forall news : list region,
               Forall (fun r => rsub r (alo, ahi, blo, bhi)) (news ++ [region_of (i, j, k)]) ->
               ForallOrdPairs rsep (news ++ [region_of (i, j, k)]) ->
               ForallOrdPairs rsep ((news ++ queue) ++ map region_of (blocks ++ [(i, j, k)]))).
    { intros news Hsub Hn. rewrite map_app. cbn [map].
      apply (FOP_perm rsep ((news ++ [region_of (i, j, k)])
                            ++ queue ++ map region_of blocks)); [apply rsep_sym| |].
      - rewrite <- !app_assoc. apply Permutation_app_head.
        rewrite (app_assoc queue). apply Permutation_app_comm.
      - now apply (FOP_replace (alo, ahi, blo, bhi)). }
    destruct ((alo <? i) && (blo <? j)), ((i + k <? ahi) && (j + k <? bhi)).
    + split; [split; [|split; [|exact Hblocks]]|].
      * repeat (apply Forall_cons; split; [cbn; lia|]). exact Hq'.
      * apply (Hperm [(i + k, ahi, j + k, bhi); (alo, i, blo, j)]).
        -- cbn [app]. repeat (apply Forall_cons; split; [cbn; lia|]). apply List.Forall_nil.
        -- cbn [app]. repeat first [apply FOP_nil | apply FOP_cons | apply List.Forall_nil
                        | apply List.Forall_cons];
             unfold rsep, rbefore; cbn; lia.
      * unfold turns, list_sum. cbn [map fold_right]. lia.
    + split; [split; [|split; [|exact Hblocks]]|].
      * repeat (apply Forall_cons; split; [cbn; lia|]). exact Hq'.
      * apply (Hperm [(alo, i, blo, j)]).
        -- cbn [app]. repeat (apply Forall_cons; split; [cbn; lia|]). apply List.Forall_nil.
        -- cbn [app]. repeat first [apply FOP_nil | apply FOP_cons | apply List.Forall_nil
                        | apply List.Forall_cons];
             unfold rsep, rbefore; cbn; lia.
      * unfold turns, list_sum. cbn [map fold_right]. lia.
    + split; [split; [|split; [|exact Hblocks]]|].
      * repeat (apply Forall_cons; split; [cbn; lia|]). exact Hq'.
      * apply (Hperm [(i + k, ahi, j + k, bhi)]).
        -- cbn [app]. repeat (apply Forall_cons; split; [cbn; lia|]). apply List.Forall_nil.
        -- cbn [app]. repeat first [apply FOP_nil | apply FOP_cons | apply List.Forall_nil
                        | apply List.Forall_cons];
             unfold rsep, rbefore; cbn; lia.
      * unfold turns, list_sum. cbn [map fold_right]. lia.
    + split; [split; [|split; [|exact Hblocks]]|].
      * exact Hq'.
      * apply (Hperm []).
        -- cbn [app]. repeat (apply Forall_cons; split; [cbn; lia|]). apply List.Forall_nil.
        -- cbn [app]. repeat first [apply FOP_nil | apply FOP_cons | apply List.Forall_nil
                        | apply List.Forall_cons].
      * unfold turns, list_sum. cbn [map fold_right]. lia.
  - intros ->. split; [exact Hq'|]. split; [|exact Hr].
    now inversion Hp.
Qed.

(** The loop ends within [turns queue] turns, with the invariant. *)
Lemma blocks_loop_some (b2j : gmap T (list nat)) (fuel : nat) :
  b2j_sound b b2j ->
  forall queue blocks,
    loop_inv a b queue blocks -> turns queue <= fuel ->
    exists mb, blocks_loop a b b2j fuel queue blocks = Some mb /\ loop_inv a b [] mb.
Proof.
  intros Hs. induction fuel as [|fuel IH];
    intros [|[[[alo ahi] blo] bhi] queue] blocks Hinv Hfuel.
  - exists blocks. auto.
  - exfalso. unfold turns, list_sum in Hfuel. cbn [map fold_right] in Hfuel. lia.
  - exists blocks. auto.
  - cbn [blocks_loop].
    pose proof (loop_step b2j alo ahi blo bhi queue blocks Hs Hinv) as Hstep.
    revert Hstep.
    destruct (find_longest_match a b b2j alo ahi blo bhi) as [[i j] k].
    cbv zeta. intros [Hpos Hzero].
    unfold turns, list_sum in Hfuel. cbn [map fold_right] in Hfuel.
    destruct (Nat.ltb_spec 0 k) as [Hk|Hk].
    + destruct (Hpos Hk) as [Hinv' Ht]. apply IH; [exact Hinv'|].
      unfold turns, list_sum in Ht. cbn [map fold_right] in Ht.
      unfold turns, list_sum. lia.
    + apply IH; [apply Hzero; lia|]. unfold turns, list_sum. lia.
Qed.

(** [get_matching_blocks] returns a chain of runs that ends at the ends of
    both sequences. *)
Lemma get_matching_blocks_chain :
  exists blocks,
    get_matching_blocks a b = Some blocks /\
    chain a b 0 0 blocks (length a) (length b).
Proof.
  unfold get_matching_blocks. cbv zeta.
  destruct (blocks_loop_some (chain_b b) (2 * length a + 1) (chain_b_sound b)
              [(0, length a, 0, length b)] [])
    as (mb & -> & _ & Hp & Hr).
  - split; [|split].
    + constructor; [cbn; lia | constructor].
    + cbn. repeat constructor.
    + constructor.
  - unfold turns, list_sum. cbn [map fold_right]. lia.
  - eexists. split; [reflexivity|]. cbn [app] in Hp.
    assert (Hperm : merge_sort block_le mb ≡ₚ mb) by apply merge_sort_Permutation.
    destruct (sorted_chain a b (merge_sort block_le mb)) with (i := 0) (j := 0)
      as (i' & j' & Hc).
    + apply StronglySorted_merge_sort; apply _.
    + apply (FOP_perm rsep (map region_of mb)); [apply rsep_sym| |exact Hp].
      apply Permutation_map. now symmetry.
    + now rewrite Hperm.
    + apply Forall_forall. intros; lia.
    + exact (collapse_chain a b _ i' j' Hc).
Qed.

End Loop.

(** *** The diff of two texts *)

Section DiffTheorems.

Local Open Scope nat_scope.

Lemma diff_segments_sides (original safe : text) :
  exists out_parts,
    diff_segments original safe = Some out_parts /\
    orig_side out_parts = split original /\
    new_side out_parts = split safe.
Proof.
  unfold diff_segments, get_opcodes. cbv zeta.
  destruct (get_matching_blocks_chain (split original) (split safe))
    as (blocks & -> & Hc).
  destruct (opcodes_sides _ _ _ _ _ _ _ [] Hc) as (ops & Hf & Ho & Hn).
  unfold opcodes_of. rewrite Hf. cbn [app].
  eexists. split; [reflexivity|].
  fold (emit_all (split original) (split safe) ops).
  now rewrite Ho, Hn, !slice_all.
Qed.

End DiffTheorems.

(** *** A sequence against itself *)

Section Self.

Local Open Scope nat_scope.

Context {T : Type} `{Countable T}.
Variable a : list T.
Variable b2j : gmap T (list nat).
Hypothesis b2j_positions : forall x js, b2j !! x = Some js -> js = positions x a.

Lemma positions_from_sorted (x : T) (s : nat) (b : list T) :
  StronglySorted lt (positions_from x s b).
Proof.
  revert s. induction b as [|y b IH]; intros s; cbn [positions_from].
  - constructor.
  - destruct (decide (y = x)); cbn [app]; [|apply IH].
    constructor; [apply IH|]. apply Forall_forall. intros j Hj.
    apply elem_of_positions_from in Hj. lia.
Qed.

Lemma dlen_S (i : nat) (x : T) (js : list nat) :
  a !! i = Some x -> b2j !! x = Some js -> dlen a b2j (S i) = dlen a b2j i + 1.
Proof. intros Hx Hjs. cbn [dlen]. now rewrite Hx, Hjs. Qed.

Lemma get_pred_bound (i : nat) (j2len : gmap nat nat) (j : nat) :
  (forall j k, j2len !! j = Some k -> k <= dlen a b2j (S j) /\ k <= dlen a b2j i) ->
  j2len_get_pred j2len j <= dlen a b2j j /\ j2len_get_pred j2len j <= dlen a b2j i.
Proof.
  intros Hk. destruct j as [|j']; cbn [j2len_get_pred]; [lia|].
  destruct (j2len !! j') as [k|] eqn:E; cbn [default from_option]; unfold id;
    [exact (Hk _ _ E) | lia].
Qed.

Lemma row_loop_diag (i : nat) (x : T) (xs : list nat) (j2len : gmap nat nat) :
  a !! i = Some x -> b2j !! x = Some xs ->
  (forall j k, j2len !! j = Some k -> k <= dlen a b2j (S j) /\ k <= dlen a b2j i) ->
  j2len_get_pred j2len i = dlen a b2j i ->
  forall js st,
    StronglySorted lt js ->
    (forall j, j ∈ js -> a !! j = Some x) ->
    (forall j k, st.1 !! j = Some k ->
       k <= dlen a b2j (S j) /\ k <= dlen a b2j (S i)) ->
    (forall j, j < i -> dlen a b2j (S j) <= st.2.2) ->
    (i ∈ js \/ (st.1 !! i = Some (dlen a b2j (S i)) /\ dlen a b2j (S i) <= st.2.2)) ->
    on_diagonal st.2 ->
    let st' := row_loop i 0 (length a) j2len js st in
    (forall j k, st'.1 !! j = Some k ->
       k <= dlen a b2j (S j) /\ k <= dlen a b2j (S i)) /\
    (forall j, j < i -> dlen a b2j (S j) <= st'.2.2) /\
    (st'.1 !! i = Some (dlen a b2j (S i)) /\ dlen a b2j (S i) <= st'.2.2) /\
    on_diagonal st'.2.
Proof.
  intros Hx Hxs K1 K3 js.
  induction js as [|j js IH]; intros st Hsort Hjs N1 N2 N3 N4; cbn [row_loop].
  - destruct N3 as [Hin|N3]; [now apply elem_of_nil in Hin|]. cbv zeta. auto.
  - apply StronglySorted_inv in Hsort as [Hsort Hlt].
    assert (Hj : a !! j = Some x) by (apply Hjs; now left).
    assert (Hjs' : forall j0, j0 ∈ js -> a !! j0 = Some x).
    { intros j0 Hj0. apply Hjs. now right. }
    pose proof (lookup_lt_Some _ _ _ Hj) as Hjn.
    replace (j <? 0) with false by (symmetry; now apply Nat.ltb_ge; lia).
    destruct (Nat.leb_spec (length a) j) as [?|_]; [lia|].
    destruct st as [newj2len [[besti bestj] bestsize]]. cbn [fst snd] in *.
    destruct (get_pred_bound i j2len j K1) as [P1 P2].
    pose proof (dlen_S j x xs Hj Hxs) as Dj.
    pose proof (dlen_S i x xs Hx Hxs) as Di.
    set (k := j2len_get_pred j2len j + 1) in *.
    apply IH; try assumption; cbn [fst snd].
    + intros j0 k0. destruct (decide (j0 = j)) as [->|Hne].
      * rewrite lookup_insert_eq. intros [= <-]. subst k. lia.
      * rewrite lookup_insert_ne by congruence. apply N1.
    + intros j0 Hj0. specialize (N2 j0 Hj0).
      destruct (Nat.ltb_spec bestsize k); cbn [snd]; lia.
    + destruct (lt_eq_lt_dec j i) as [[Hlt'|Heq]|Hgt].
      * (* before the diagonal *)
        destruct N3 as [Hin|[N3a N3b]].
        -- left. apply elem_of_cons in Hin as [->|Hin]; [lia | exact Hin].
        -- right. rewrite lookup_insert_ne by lia. split; [exact N3a|].
           destruct (Nat.ltb_spec bestsize k); cbn [snd]; lia.
      * (* on the diagonal *)
        subst j. right. rewrite lookup_insert_eq. subst k. rewrite K3.
        split; [now rewrite Di|].
        destruct (Nat.ltb_spec bestsize (dlen a b2j i + 1)); cbn [snd]; lia.
      * (* after the diagonal *)
        destruct N3 as [Hin|[N3a N3b]].
        -- exfalso. apply elem_of_cons in Hin as [->|Hin]; [lia|].
           rewrite List.Forall_forall in Hlt.
           apply list_elem_of_In in Hin. specialize (Hlt _ Hin). lia.
        -- right. rewrite lookup_insert_ne by lia. split; [exact N3a|].
           destruct (Nat.ltb_spec bestsize k); cbn [snd]; lia.
    + destruct (Nat.ltb_spec bestsize k) as [Hbk|Hbk]; [|exact N4].
      destruct (lt_eq_lt_dec j i) as [[Hlt'|Heq]|Hgt].
      * specialize (N2 j Hlt'). subst k. lia.
      * subst j. reflexivity.
      * destruct N3 as [Hin|[N3a N3b]]; [|subst k; lia].
        exfalso. apply elem_of_cons in Hin as [->|Hin]; [lia|].
        rewrite List.Forall_forall in Hlt.
        apply list_elem_of_In in Hin. specialize (Hlt _ Hin). lia.
Qed.

Lemma rows_diag (m : nat) :
  forall i st,
    i + m <= length a ->
    (forall j k, st.1 !! j = Some k -> k <= dlen a b2j (S j) /\ k <= dlen a b2j i) ->
    (forall j, j < i -> dlen a b2j (S j) <= st.2.2) ->
    j2len_get_pred st.1 i = dlen a b2j i ->
    on_diagonal st.2 ->
    on_diagonal (fold_left (row_step a b2j 0 (length a)) (seq i m) st).2.
Proof.
  induction m as [|m IH]; intros i [j2len best] Hi K1 K2 K3 K4;
    cbn [seq fold_left]; [exact K4|].
  cbn [fst snd] in *. unfold row_step at 2.
  destruct (a !! i) as [x|] eqn:Hx;
    [|apply lookup_ge_None in Hx; lia].
  destruct (b2j !! x) as [js|] eqn:Hjs; cbn [default from_option]; unfold id.
  - pose proof (b2j_positions _ _ Hjs) as ->.
    destruct (row_loop_diag i x (positions x a) j2len Hx Hjs K1 K3
                (positions x a) (∅, best)) as (N1 & N2 & [N3a N3b] & N4);
      cbn [fst snd]; try assumption.
    + apply positions_from_sorted.
    + intros j Hj. now apply elem_of_positions.
    + intros j k Hjk. now rewrite lookup_empty in Hjk.
    + left. now apply elem_of_positions.
    + apply IH; try assumption; [lia| |].
      * intros j Hj. destruct (decide (j = i)) as [->|Hne]; [exact N3b|].
        apply N2. lia.
      * cbn [j2len_get_pred]. now rewrite N3a.
  - cbn [row_loop]. apply IH; cbn [fst snd]; try assumption; [lia| | |].
    + intros j k Hjk. now rewrite lookup_empty in Hjk.
    + intros j Hj. destruct (decide (j = i)) as [->|Hne]; [|apply K2; lia].
      cbn [dlen]. rewrite Hx, Hjs. lia.
    + cbn [j2len_get_pred dlen]. now rewrite lookup_empty, Hx, Hjs.
Qed.

Lemma same_at_refl (i : nat) : i < length a -> same_at a a i i = true.
Proof.
  intros Hi. apply same_at_Some. destruct (lookup_lt_is_Some_2 a i Hi) as [x Hx].
  eauto.
Qed.

Lemma notjunk (o : option T) :
  eqb match o with Some y => isbjunk y | None => false end false = true.
Proof. now destruct o. Qed.

Lemma extend_back_diag (i k : nat) :
  i <= length a -> extend_back false a a 0 0 i i k = (0, 0, k + i).
Proof.
  revert k. induction i as [|i IH]; intros k Hi; cbn [extend_back].
  - now rewrite Nat.add_0_r.
  - rewrite notjunk, same_at_refl by lia. cbn [Nat.ltb Nat.leb andb].
    rewrite IH by lia. f_equal. lia.
Qed.

Lemma extend_fwd_diag (fuel k : nat) :
  k + fuel <= length a ->
  extend_fwd false a a (length a) (length a) 0 0 fuel k = k + fuel.
Proof.
  revert k. induction fuel as [|fuel IH]; intros k Hk; cbn [extend_fwd Nat.add].
  - now rewrite Nat.add_0_r.
  - rewrite notjunk, same_at_refl by lia.
    destruct (Nat.ltb_spec k (length a)); [|lia]. cbn [andb].
    rewrite IH by lia. lia.
Qed.

Lemma extend_true_id (k : nat) :
  extend true a a 0 (length a) 0 (length a) (0, 0, length a) = (0, 0, length a).
Proof.
  unfold extend. cbn [extend_back Nat.add]. now rewrite Nat.sub_diag.
Qed.

(** A sequence matches itself as one block. *)
Lemma find_longest_match_self :
  find_longest_match a a b2j 0 (length a) 0 (length a) = (0, 0, length a).
Proof.
  assert (Hs : b2j_sound a b2j).
  { intros x js j Hjs Hj. apply b2j_positions in Hjs as ->.
    now apply elem_of_positions. }
  unfold find_longest_match.
  pose proof (rows_good a a (0, length a, 0, length a) b2j (length a - 0) Hs 0
                (∅, (0, 0, 0))) as Hg.
  pose proof (rows_diag (length a - 0) 0 (∅, (0, 0, 0))) as Hd.
  cbv beta iota zeta in Hg. revert Hg Hd.
  destruct (fold_left (row_step a b2j 0 (length a)) (seq 0 (length a - 0))
              (∅, (0, 0, 0))) as [m [[bi bj] bk]].
  cbn [fst snd]. intros Hg Hd.
  destruct Hg as [Hbox _]; try lia.
  { apply j2len_ok_empty. }
  { cbn. lia. }
  { cbn. intros d Hd'. lia. }
  unfold on_diagonal in Hd. cbn [fst snd] in Hd. rewrite <- Hd; try lia.
  - cbn in Hbox. unfold extend at 2.
    rewrite extend_back_diag by lia.
    rewrite extend_fwd_diag by lia.
    replace (bk + bi + (length a - (0 + (bk + bi)))) with (length a) by lia.
    apply (extend_true_id 0).
  - intros j k Hjk. now rewrite lookup_empty in Hjk.
  - reflexivity.
Qed.

End Self.

(** *** The diff of a text against itself, and the round trip *)

Section SelfDiff.

Local Open Scope nat_scope.

Lemma blocks_loop_nil {T} `{Countable T} (a b : list T) (b2j : gmap T (list nat))
    (fuel : nat) (blocks : list block) :
  blocks_loop a b b2j fuel [] blocks = Some blocks.
Proof. now destruct fuel. Qed.

Lemma get_opcodes_self {T} `{Countable T} (a : list T) :
  get_opcodes a a
  = Some (if 0 <? length a then [(Equal, 0, length a, 0, length a)] else []).
Proof.
  unfold get_opcodes, get_matching_blocks. cbv zeta.
  replace (2 * length a + 1) with (S (2 * length a)) by lia.
  cbn [blocks_loop].
  rewrite (find_longest_match_self a (chain_b a) (chain_b_lookup a)).
  destruct (length a) as [|n] eqn:En.
  - cbn [Nat.ltb Nat.leb]. rewrite blocks_loop_nil. reflexivity.
  - replace (0 <? S n) with true by reflexivity.
    replace ((0 <? 0) && (0 <? 0)) with false by reflexivity.
    cbn [Nat.add]. rewrite Nat.ltb_irrefl. cbn [andb app].
    rewrite blocks_loop_nil.
    replace (merge_sort block_le [(0, 0, S n)]) with [(0, 0, S n)] by reflexivity.
    unfold collapse, opcodes_of. cbn [fold_left collapse_step Nat.add Nat.eqb andb].
    replace (0 <? S n) with true by reflexivity. cbn [app fold_left opcode_step].
    replace (0 <? S n) with true by reflexivity.
    replace (0 <? 0) with false by reflexivity.
    cbn [Nat.add andb app]. rewrite Nat.ltb_irrefl. cbn [andb]. reflexivity.
Qed.

Lemma diff_segments_self (x : text) : diff_segments x x = Some (map Plain (split x)).
Proof.
  unfold diff_segments. cbv zeta. rewrite get_opcodes_self.
  destruct (split x) as [|w ws] eqn:E; [reflexivity|].
  replace (0 <? length (w :: ws)) with true by reflexivity.
  cbn [map concat emit]. now rewrite slice_all, app_nil_r.
Qed.

Lemma render_plain (ws : list text) : map render_segment (map Plain ws) = ws.
Proof. induction ws as [|w ws IH]; [reflexivity | cbn; now f_equal]. Qed.

Lemma unmarked_plain (ws : list text) : forallb unmarked (map Plain ws) = true.
Proof. induction ws as [|w ws IH]; [reflexivity | exact IH]. Qed.

(** C4: for every pair of texts the diff is produced, and its tokens on the
    side of the original (the unchanged and the removed ones, in order) are
    the tokens of the original, those on the side of the rewrite (the
    unchanged and the added ones) the tokens of the rewrite; joined by single
    spaces they give the two texts with their whitespace normalised. *)
Theorem diff_round_trip (original rewritten : text) :
  exists out_parts,
    diff_segments original rewritten = Some out_parts /\
    diff_words_html original rewritten
      = Some (join (str " ") (map render_segment out_parts)) /\
    orig_side out_parts = split original /\
    new_side out_parts = split rewritten /\
    join (str " ") (orig_side out_parts) = join (str " ") (split original) /\
    join (str " ") (new_side out_parts) = join (str " ") (split rewritten).
Proof.
  destruct (diff_segments_sides original rewritten) as (out_parts & Hd & Ho & Hn).
  exists out_parts. unfold diff_words_html. rewrite Hd, Ho, Hn. auto 6.
Qed.

(** C5: the diff of a text against itself consists of unchanged tokens
    only: no segment is removed or added, and what is rendered is the text
    with its whitespace normalised, without any marker written. *)
Theorem diff_of_a_text_with_itself (x : text) :
  exists out_parts,
    diff_segments x x = Some out_parts /\
    forallb unmarked out_parts = true /\
    out_parts = map Plain (split x) /\
    diff_words_html x x = Some (join (str " ") (split x)).
Proof.
  exists (map Plain (split x)). unfold diff_words_html.
  rewrite diff_segments_self, unmarked_plain, render_plain. auto.
Qed.

End SelfDiff.

(** * Further properties *)

(** ** More on the risk scorer *)

Lemma starts_with_across (c : ascii) (w a b : text) :
  lacks c w = true -> starts_with w (a ++ c :: b) = starts_with w a.
Proof.
  revert w. induction a as [|y a IH]; intros [|x w] Hc; try reflexivity.
  - cbn [app starts_with]. cbn [lacks forallb] in Hc.
    apply andb_prop in Hc as [Hx _]. apply negb_true_iff in Hx. now rewrite Hx.
  - cbn [app starts_with]. cbn [lacks forallb] in Hc.
    apply andb_prop in Hc as [_ Hw]. now rewrite (IH w Hw).
Qed.

(** A string without the character [c] that occurs in [a ++ c :: b] occurs
    in [a] or in [b]. *)
Lemma contains_across (c : ascii) (w a b : text) :
  lacks c w = true -> w <> [] ->
  contains w (a ++ c :: b) = contains w a || contains w b.
Proof.
  intros Hc Hw. induction a as [|y a IH].
  - pose proof (starts_with_across c w [] b Hc) as E. cbn [app] in E.
    cbn [app contains]. rewrite E. now rewrite orb_false_r.
  - change ((y :: a) ++ c :: b) with (y :: (a ++ c :: b)).
    cbn [contains]. rewrite IH.
    change (y :: a ++ c :: b) with ((y :: a) ++ c :: b).
    rewrite (starts_with_across c w (y :: a) b Hc). now rewrite orb_assoc.
Qed.

Lemma needle_across (w : text) (subject body : text) :
  In w needles ->
  contains w (normalized subject body)
  = contains w (lower subject) || contains w (lower body).
Proof.
  intros Hw. unfold normalized. rewrite !lower_app.
  change (lower (str " ")) with [" "%char]. cbn [app].
  apply contains_across.
  - cbn in Hw. repeat destruct Hw as [<-|Hw]; try reflexivity. contradiction.
  - cbn in Hw. repeat destruct Hw as [<-|Hw]; try discriminate. contradiction.
Qed.

Lemma triggers_fields (r : rule) (subject body : text) :
  In r all_rules ->
  triggers (normalized subject body) r
  = triggers (lower subject) r || triggers (lower body) r.
Proof.
  intros Hr. unfold all_rules in Hr. apply in_app_or in Hr as [Hr|Hr].
  - apply in_map_iff in Hr as (w & <- & Hw). cbn [triggers].
    apply needle_across. unfold needles. apply in_or_app. now left.
  - destruct Hr as [<-|[<-|[]]]; cbn [triggers]; unfold has_link, has_financial;
      rewrite !needle_across by (unfold needles; apply in_or_app; right; cbn; tauto);
      repeat match goal with |- context [contains ?w ?t] =>
        generalize (contains w t); intros ? end;
      repeat match goal with b : bool |- _ => destruct b end; reflexivity.
Qed.

Lemma triggered_ext (s1 b1 s2 b2 : text) :
  (forall r, In r all_rules ->
     triggers (normalized s1 b1) r = triggers (normalized s2 b2) r) ->
  triggered s1 b1 = triggered s2 b2.
Proof. intros Hr. unfold triggered. now apply List.filter_ext_in. Qed.

Lemma contains_inside (w l t r : text) :
  contains w t = true -> contains w (l ++ t ++ r) = true.
Proof.
  rewrite !contains_spec. intros (l' & r' & ->). exists (l ++ l'), (r' ++ r).
  now rewrite <- !app_assoc.
Qed.

Lemma triggers_inside (k : rule) (l t r : text) :
  triggers t k = true -> triggers (l ++ t ++ r) k = true.
Proof.
  destruct k as [w| |]; cbn [triggers]; unfold has_link, has_financial;
    rewrite ?orb_true_iff; intuition auto using contains_inside.
Qed.

(** The score and the number of reasons, by the number [k] of keywords
    found and the two once-only rules. *)
Lemma simple_heuristic_score_count (subject body : text) :
  exists (k : nat) (link fin : bool),
    (k <= 7)%nat /\
    fst (simple_heuristic_score subject body)
      = Z.min 100 (10 + 15 * Z.of_nat k + (if link then 20 else 0)
                   + (if fin then 15 else 0)) /\
    length (snd (simple_heuristic_score subject body))
      = (k + (if link then 1 else 0) + (if fin then 1 else 0))%nat.
Proof.
  unfold simple_heuristic_score.
  set (txt := lower (subject ++ str " " ++ body)). rewrite keyword_loop.
  set (ks := List.filter (fun w => contains w txt) phishing_keywords).
  exists (length ks), (has_link txt), (has_financial txt). split.
  - subst ks. etransitivity; [apply List.filter_length_le | reflexivity].
  - destruct (has_link txt), (has_financial txt); cbn [app fst snd];
      match goal with |- context [100 <? ?x] => destruct (Z.ltb_spec 100 x) end;
      cbn [fst snd]; rewrite ?length_app, ?length_map; cbn [length]; split; lia.
Qed.

(** X1: Two messages that differ in letter case only get the same score and
    the same reasons. *)
Theorem score_ignores_letter_case (subject body subject' body' : text) :
  lower subject = lower subject' -> lower body = lower body' ->
  simple_heuristic_score subject body = simple_heuristic_score subject' body'.
Proof.
  intros Hs Hb. rewrite !simple_heuristic_score_rules.
  assert (Hn : normalized subject body = normalized subject' body').
  { unfold normalized. now rewrite !lower_app, Hs, Hb. }
  unfold triggered. now rewrite Hn.
Qed.

Lemma score_ignores_letter_case_witness :
  lower (str "URGENT: Verify") = lower (str "urgent: verify") /\
  lower (str "Click HERE") = lower (str "click here") /\
  simple_heuristic_score (str "URGENT: Verify") (str "Click HERE")
  = simple_heuristic_score (str "urgent: verify") (str "click here").
Proof.
  split; [reflexivity|]. split; [reflexivity|].
  apply (score_ignores_letter_case (str "URGENT: Verify") (str "Click HERE")
           (str "urgent: verify") (str "click here")); reflexivity.
Defined.

(** X2: The scorer does not tell the subject from the body: exchanging them
    changes neither the score nor the reasons. *)
Theorem score_ignores_field_order (subject body : text) :
  simple_heuristic_score subject body = simple_heuristic_score body subject.
Proof.
  rewrite !simple_heuristic_score_rules.
  rewrite (triggered_ext subject body body subject); [reflexivity|].
  intros r Hr. rewrite !triggers_fields by exact Hr. apply orb_comm.
Qed.

(** X3: Text put before the subject or after the body never lowers the score
    and never loses a reason. *)
Theorem score_grows_with_text (pre subject body post : text) :
  fst (simple_heuristic_score subject body)
    <= fst (simple_heuristic_score (pre ++ subject) (body ++ post)) /\
  (forall reason, In reason (snd (simple_heuristic_score subject body)) ->
     In reason (snd (simple_heuristic_score (pre ++ subject) (body ++ post)))).
Proof.
  rewrite !simple_heuristic_score_rules. cbn [fst snd].
  assert (Hn : normalized (pre ++ subject) (body ++ post)
               = lower pre ++ normalized subject body ++ lower post).
  { unfold normalized. rewrite !lower_app, <- !app_assoc. reflexivity. }
  assert (Ht : forall r, triggers (normalized subject body) r = true ->
                 triggers (normalized (pre ++ subject) (body ++ post)) r = true).
  { intros r Hr. rewrite Hn. now apply triggers_inside. }
  split.
  - apply Z.min_le_compat_l, Z.add_le_mono_l. unfold triggered.
    apply sumZ_filter_mono. intros r _. apply Ht.
  - intros reason Hin. apply in_map_iff in Hin as (r & <- & Hr).
    apply in_map. unfold triggered in *. rewrite filter_In in *.
    destruct Hr as [Hr1 Hr2]. auto.
Qed.

(** X4: The verdict is decided by the number of reasons alone: at most one
    reason is SAFE, two or three are SUSPICIOUS, four or more PHISHING. *)
Theorem verdict_by_number_of_reasons (subject body : text) :
  let '(score, reasons) := simple_heuristic_score subject body in
  score_to_verdict score =
    if (length reasons <=? 1)%nat then str "SAFE"
    else if (length reasons <=? 3)%nat then str "SUSPICIOUS"
    else str "PHISHING".
Proof.
  destruct (simple_heuristic_score_count subject body)
    as (k & link & fin & Hk & Hs & Hl).
  destruct (simple_heuristic_score subject body) as [score reasons].
  cbn [fst snd] in Hs, Hl. rewrite Hs, Hl. unfold score_to_verdict.
  destruct link, fin;
    repeat match goal with
    | |- context [(?x <=? ?y)%nat] => destruct (Nat.leb_spec x y)
    | |- context [?x <=? ?y] => destruct (Z.leb_spec x y)
    end; try reflexivity; lia.
Qed.

Lemma severity_monotone (s1 s2 : Z) :
  s1 <= s2 ->
  (severity (score_to_verdict s1) <= severity (score_to_verdict s2))%nat.
Proof.
  intros Hs. unfold score_to_verdict.
  destruct (Z.leb_spec s1 30), (Z.leb_spec s2 30), (Z.leb_spec s1 69),
    (Z.leb_spec s2 69); try lia; vm_compute; lia.
Qed.

(** X5: Text put before the subject or after the body never makes the
    verdict milder. *)
Theorem verdict_never_milder_with_more_text (pre subject body post : text) :
  (severity (score_to_verdict (fst (simple_heuristic_score subject body)))
   <= severity (score_to_verdict
        (fst (simple_heuristic_score (pre ++ subject) (body ++ post)))))%nat.
Proof.
  apply severity_monotone.
  rewrite !simple_heuristic_score_rules. cbn [fst].
  assert (Hn : normalized (pre ++ subject) (body ++ post)
               = lower pre ++ normalized subject body ++ lower post).
  { unfold normalized. rewrite !lower_app, <- !app_assoc. reflexivity. }
  apply Z.min_le_compat_l, Z.add_le_mono_l. unfold triggered.
  apply sumZ_filter_mono. intros r _ Hr. rewrite Hn. now apply triggers_inside.
Qed.

(** ** More on the header inspector *)

Lemma lower_nil_iff (s : text) : lower s = [] <-> s = [].
Proof. destruct s; cbn; split; congruence. Qed.

(** X6: Two header blocks that differ in letter case only are analysed alike. *)
Theorem header_analysis_ignores_letter_case (raw raw' : text) :
  lower raw = lower raw' ->
  fake_header_analysis (Some raw) = fake_header_analysis (Some raw').
Proof.
  intros Hl. unfold fake_header_analysis.
  assert (Ht : truthy (Some raw) = truthy (Some raw')).
  { destruct raw, raw'; try reflexivity; discriminate. }
  rewrite Ht. cbn [default from_option]. unfold id. now rewrite Hl.
Qed.

Lemma header_analysis_ignores_letter_case_witness :
  lower (str "Authentication-Results: SPF=Fail") = lower (str "authentication-results: spf=fail") /\
  fake_header_analysis (Some (str "Authentication-Results: SPF=Fail"))
  = fake_header_analysis (Some (str "authentication-results: spf=fail")).
Proof.
  split; [reflexivity|].
  apply (header_analysis_ignores_letter_case
           (str "Authentication-Results: SPF=Fail")
           (str "authentication-results: spf=fail")).
  reflexivity.
Defined.

(** The flags of a header block that is there, by the three tests. *)
Lemma header_flags (raw : text) :
  raw <> [] ->
  suspicious_flags (fake_header_analysis (Some raw))
  = (if contains (str "spf=fail") (lower raw)
     then [str "SPF fail found in Authentication-Results"] else [])
    ++ (if contains (str "dkim=fail") (lower raw)
        then [str "DKIM fail found in Authentication-Results"] else [])
    ++ (if contains (str "dmarc=fail") (lower raw)
        then [str "DMARC fail found in Authentication-Results"] else []).
Proof.
  intros Hr. unfold fake_header_analysis.
  destruct raw as [|c raw]; [contradiction|]. cbn [truthy negb default from_option].
  unfold id.
  destruct (contains (str "spf=fail") _), (contains (str "dkim=fail") _),
    (contains (str "dmarc=fail") _); reflexivity.
Qed.

Lemma header_passes (raw : text) :
  raw <> [] ->
  spf_pass (fake_header_analysis (Some raw))
    = Some (contains (str "spf=pass") (lower raw)) /\
  dkim_pass (fake_header_analysis (Some raw))
    = Some (contains (str "dkim=pass") (lower raw)) /\
  dmarc_pass (fake_header_analysis (Some raw))
    = Some (contains (str "dmarc=pass") (lower raw)).
Proof.
  intros Hr. unfold fake_header_analysis.
  destruct raw as [|c raw]; [contradiction|]. cbn [truthy negb default from_option].
  unfold id. auto.
Qed.

(** X7: Header text put before or after a header block that is there turns no
    passed check into a failed one and removes no flag. *)
Theorem header_analysis_grows_with_text (pre raw post : text) :
  raw <> [] ->
  let before := fake_header_analysis (Some raw) in
  let after := fake_header_analysis (Some (pre ++ raw ++ post)) in
  (spf_pass before = Some true -> spf_pass after = Some true) /\
  (dkim_pass before = Some true -> dkim_pass after = Some true) /\
  (dmarc_pass before = Some true -> dmarc_pass after = Some true) /\
  (forall flag, In flag (suspicious_flags before) ->
                In flag (suspicious_flags after)).
Proof.
  intros Hr before after.
  assert (Hr' : pre ++ raw ++ post <> []).
  { destruct pre; [destruct raw; [contradiction | discriminate] | discriminate]. }
  assert (Hc : forall w, contains w (lower raw) = true ->
                 contains w (lower (pre ++ raw ++ post)) = true).
  { intros w Hw. rewrite !lower_app. now apply contains_inside. }
  subst before after.
  destruct (header_passes raw Hr) as (P1 & P2 & P3).
  destruct (header_passes _ Hr') as (Q1 & Q2 & Q3).
  rewrite P1, P2, P3, Q1, Q2, Q3.
  split; [|split; [|split]].
  - intros [= Hp]. f_equal. now apply Hc.
  - intros [= Hp]. f_equal. now apply Hc.
  - intros [= Hp]. f_equal. now apply Hc.
  - rewrite !header_flags by assumption. intros flag.
    destruct (contains (str "spf=fail") (lower raw)) eqn:E1;
    destruct (contains (str "dkim=fail") (lower raw)) eqn:E2;
    destruct (contains (str "dmarc=fail") (lower raw)) eqn:E3;
      rewrite ?(Hc _ E1), ?(Hc _ E2), ?(Hc _ E3);
      repeat match goal with
      | |- context [if ?b then _ else _] => destruct b
      end; cbn; tauto.
Qed.

Lemma header_analysis_grows_with_text_witness :
  str "dkim=fail" <> [] /\
  (forall flag,
     In flag (suspicious_flags (fake_header_analysis (Some (str "dkim=fail")))) ->
     In flag (suspicious_flags (fake_header_analysis
        (Some (str "spf=pass; " ++ str "dkim=fail" ++ str "; dmarc=fail"))))).
Proof.
  split; [discriminate|].
  apply (header_analysis_grows_with_text (str "spf=pass; ") (str "dkim=fail")
           (str "; dmarc=fail")).
  discriminate.
Defined.

(** ** The analysis report: reasons *)

Lemma heuristic_reason_head (subject body reason : text) :
  In reason (snd (simple_heuristic_score subject body)) ->
  exists c t, reason = c :: t /\ (c = "C"%char \/ c = "M"%char).
Proof.
  rewrite simple_heuristic_score_rules. cbn [snd]. intros Hin.
  apply in_map_iff in Hin as (r & <- & _).
  destruct r; cbn; eauto.
Qed.

Lemma lowest_score_iff_no_reason (subject body : text) :
  fst (simple_heuristic_score subject body) = 10
  <-> snd (simple_heuristic_score subject body) = [].
Proof.
  destruct (simple_heuristic_score_count subject body)
    as (k & link & fin & Hk & Hs & Hl).
  rewrite Hs, <- length_zero_iff_nil, Hl. destruct link, fin; lia.
Qed.

(** X8: The report always gives a reason.  The reason "No obvious phishing
    keywords found." is given exactly when the score is the lowest one, 10;
    the reason "Header flag: No headers provided" exactly when the request
    has no header block. *)
Theorem analyze_email_reasons (subject body : text) (raw_headers : option text) :
  let r := analyze_email subject body raw_headers in
  reasons r <> [] /\
  (In no_keywords_reason (reasons r) <-> risk_score r = 10) /\
  (In (str "Header flag: No headers provided") (reasons r)
   <-> truthy raw_headers = false).
Proof.
  unfold analyze_email.
  pose proof (lowest_score_iff_no_reason subject body) as Hlow.
  pose proof (heuristic_reason_head subject body) as Hhead.
  destruct (simple_heuristic_score subject body) as [score hs].
  cbn [fst snd] in Hlow, Hhead. cbn [app].
  set (flags := suspicious_flags (fake_header_analysis raw_headers)).
  assert (Hflags : (truthy raw_headers = false /\ flags = [str "No headers provided"])
                   \/ (truthy raw_headers = true /\
                       forall f, In f flags -> exists t, f = "S"%char :: t \/ f = "D"%char :: t)).
  { subst flags. destruct raw_headers as [[|c raw]|]; [left; now split| |left; now split].
    right. split; [reflexivity|]. rewrite header_flags by discriminate.
    intros f Hf.
    repeat match type of Hf with
    | context [if ?b then _ else _] => destruct b
    end; cbn in Hf; intuition (subst; eauto). }
  set (hreasons := if (0 <? length flags)%nat
                   then map (fun f => str "Header flag: " ++ f) flags else []).
  assert (Hr : forall base, (if (0 <? length flags)%nat
                then base ++ map (fun f => str "Header flag: " ++ f) flags
                else base) = base ++ hreasons).
  { intros base. subst hreasons. destruct (0 <? length flags)%nat;
      [reflexivity | now rewrite app_nil_r]. }
  rewrite Hr. cbn [reasons risk_score].
  assert (Hh : forall x, In x hreasons -> exists f, In f flags /\ x = str "Header flag: " ++ f).
  { intros x Hx. subst hreasons. destruct (0 <? length flags)%nat; [|contradiction].
    apply in_map_iff in Hx as (f & <- & Hf). eauto. }
  assert (Hh' : forall f, In f flags -> In (str "Header flag: " ++ f) hreasons).
  { intros f Hf. subst hreasons. destruct flags; [contradiction|].
    cbn [length Nat.ltb Nat.leb]. now apply (in_map (fun f => str "Header flag: " ++ f)). }
  clearbody hreasons.
  split; [|split].
  - destruct hs; cbn [length Nat.eqb app]; discriminate.
  - rewrite Hlow. split.
    + intros Hin. destruct hs as [|h hs]; [reflexivity|]. exfalso.
      cbn [length Nat.eqb] in Hin. apply in_app_or in Hin as [Hin|Hin].
      * destruct (Hhead _ Hin) as (c & t & E & [->| ->]); discriminate.
      * destruct (Hh _ Hin) as (f & _ & E). discriminate.
    + intros ->. cbn. now left.
  - split.
    + intros Hin. destruct Hflags as [[Ht _]|[_ Hf]]; [exact Ht|]. exfalso.
      apply in_app_or in Hin as [Hin|Hin].
      * destruct hs as [|h hs]; cbn [length Nat.eqb] in Hin.
        -- destruct Hin as [E|[]]. discriminate.
        -- destruct (Hhead _ Hin) as (c & t & E & [->| ->]); discriminate.
      * destruct (Hh _ Hin) as (f & Hfl & E).
        apply (app_inv_head (str "Header flag: ")) in E. subst f.
        destruct (Hf _ Hfl) as (t & [E|E]); discriminate.
    + intros Ht. destruct Hflags as [[_ Hf]|[Ht' _]]; [|congruence].
      apply in_or_app. right. apply Hh'. rewrite Hf. now left.
Qed.

(** ** More on the rewrite *)

Lemma re_sub_no_match (r : regex) (repl s : text) :
  re_search r s = false -> re_sub r repl s = s.
Proof.
  induction s as [|c s IH]; cbn [re_search].
  - destruct (match_at r []) eqn:E; [discriminate|]. intros _.
    unfold re_sub, scan. cbn [scan_fuel length]. now rewrite E.
  - destruct (match_at r (c :: s)) eqn:E; [discriminate|]. intros Hs.
    rewrite (re_sub_kept _ _ _ _ E). f_equal. now apply IH.
Qed.

(** A pattern that can only match where [w] starts, up to case, matches
    nowhere in a text that does not contain [w]. *)
Lemma re_search_guard (r : regex) (w : text) :
  (forall s, starts_with w (lower s) = false -> match_at r s = None) ->
  forall s, contains w (lower s) = false -> re_search r s = false.
Proof.
  intros Hg s. induction s as [|c s IH]; cbn [lower map contains re_search];
    intros Hc; apply orb_false_elim in Hc as [Hs Hc].
  - now rewrite (Hg [] Hs).
  - rewrite (Hg (c :: s) Hs). now apply IH.
Qed.

Lemma guard_lit_i (w : text) (cont : text -> option text) (s : text) :
  lower w = w -> starts_with w (lower s) = false -> match_k (lit_i w) s cont = None.
Proof. intros Hw Hs. now rewrite match_k_lit_i, Hw, Hs. Qed.

Lemma match_k_lit (w s : text) (cont : text -> option text) :
  match_k (lit w) s cont =
  if starts_with w s then cont (skipn (length w) s) else None.
Proof.
  revert s; induction w as [|c w IH]; intros s; [reflexivity|].
  destruct w as [|c2 w].
  - destruct s as [|c' s]; [reflexivity|]. cbn.
    now rewrite andb_true_r.
  - change (lit (c :: c2 :: w)) with (Cat (Chr (CLit c)) (lit (c2 :: w))).
    cbn [match_k]. destruct s as [|c' s]; [reflexivity|].
    cbn [cls_matches starts_with length skipn].
    destruct (ascii_eqb c c'); [|reflexivity].
    rewrite IH. reflexivity.
Qed.

Lemma starts_with_lower (w s : text) :
  starts_with w s = true -> starts_with (lower w) (lower s) = true.
Proof.
  rewrite !starts_with_spec. intros [r ->]. exists (lower r). apply lower_app.
Qed.

Lemma guard_lit (w : text) (cont : text -> option text) (s : text) :
  lower w = w -> starts_with w (lower s) = false -> match_k (lit w) s cont = None.
Proof.
  intros Hw Hs. rewrite match_k_lit.
  destruct (starts_with w s) eqn:E; [|reflexivity].
  apply starts_with_lower in E. congruence.
Qed.

Lemma apply_replacements_idle (table : list (text * text)) (s : text) :
  (forall bad good, In (bad, good) table -> re_search (lit_i bad) s = false) ->
  apply_replacements table s = s.
Proof.
  unfold apply_replacements. induction table as [|[bad good] table IH]; intros Hs;
    [reflexivity|].
  cbn [fold_left]. rewrite re_sub_no_match by (apply (Hs bad good); now left).
  apply IH. intros b g Hin. apply (Hs b g). now right.
Qed.

Lemma re_search_lit_i (w s : text) :
  lower w = w -> contains w (lower s) = false -> re_search (lit_i w) s = false.
Proof.
  intros Hw. apply re_search_guard. intros t Ht. unfold match_at.
  now apply guard_lit_i.
Qed.



Lemma harmless_body_steps (body : text) :
  (forall w, In w body_triggers -> contains w (lower body) = false) ->
  body_before_closing body = body.
Proof.
  intros Hb. unfold body_before_closing.
  assert (Hp : remove_patterns body = body).
  { unfold remove_patterns, patterns_to_remove. cbn [fold_left].
    rewrite (re_sub_no_match pat_click).
    2:{ apply (re_search_guard _ (str "click"));
          [|apply Hb; cbn; tauto].
        intros t Ht. unfold match_at, pat_click. cbn [match_k].
        now apply guard_lit_i. }
    rewrite (re_sub_no_match pat_enter).
    2:{ apply (re_search_guard _ (str "enter"));
          [|apply Hb; cbn; tauto].
        intros t Ht. unfold match_at, pat_enter. cbn [match_k].
        now apply guard_lit_i. }
    rewrite (re_sub_no_match pat_provide).
    2:{ apply (re_search_guard _ (str "provide"));
          [|apply Hb; cbn; tauto].
        intros t Ht. unfold match_at, pat_provide. cbn [match_k].
        now apply guard_lit_i. }
    reflexivity. }
  assert (Hu : remove_urls body = body).
  { unfold remove_urls. apply re_sub_no_match.
    apply (re_search_guard _ (str "http")); [|apply Hb; cbn; tauto].
    intros t Ht. unfold match_at, pat_url. cbn [match_k].
    now apply guard_lit. }
  rewrite Hp, Hu. apply apply_replacements_idle. intros bad good Hin.
  apply re_search_lit_i.
  - cbn in Hin. repeat destruct Hin as [[= <- <-]|Hin]; try reflexivity. contradiction.
  - apply Hb. unfold body_triggers. apply in_or_app. right.
    now apply (in_map fst) in Hin.
Qed.

Lemma snd_rewrite_to_safe (subject body : text) :
  snd (rewrite_to_safe subject body) = add_closing (body_before_closing body).
Proof. unfold rewrite_to_safe, body_before_closing. cbn [snd]. reflexivity. Qed.



Lemma add_closing_thanks (b : text) :
  contains (str "thank you") (lower (add_closing b)) = true.
Proof.
  unfold add_closing.
  destruct (contains (str "thank you") (lower b)) eqn:E; cbn [negb]; [exact E|].
  rewrite lower_app.
  rewrite <- (app_nil_r (lower closing)). apply contains_inside. reflexivity.
Qed.

(** X11: The rewritten body always thanks: it contains "thank you" in some
    letter case. *)
Theorem rewritten_body_thanks (subject body : text) :
  contains (str "thank you") (lower (snd (rewrite_to_safe subject body))) = true.
Proof. rewrite snd_rewrite_to_safe. apply add_closing_thanks. Qed.

Lemma blank_contains (p : ascii) (w t : text) :
  isspace p = false -> forallb isspace t = true -> contains (p :: w) t = false.
Proof.
  intros Hp. induction t as [|c t IH]; intros Ht; [reflexivity|].
  cbn [forallb] in Ht. apply andb_prop in Ht as [Hc Ht].
  cbn [contains starts_with]. rewrite (IH Ht), orb_false_r.
  destruct (ascii_eqb p c) eqn:E; [|reflexivity].
  unfold ascii_eqb in E. apply Ascii.eqb_eq in E. congruence.
Qed.

Lemma blank_lower (t : text) : forallb isspace (lower t) = forallb isspace t.
Proof.
  induction t as [|c t IH]; [reflexivity|].
  cbn [lower map forallb]. fold (lower t). now rewrite isspace_lower_char, IH.
Qed.

Lemma blank_lstrip (t : text) : forallb isspace t = true -> lstrip t = [].
Proof.
  induction t as [|c t IH]; [reflexivity|]. cbn [forallb lstrip].
  intros Ht. apply andb_prop in Ht as [Hc Ht]. rewrite Hc. now apply IH.
Qed.

Lemma blank_strip (t : text) : forallb isspace t = true -> strip t = [].
Proof. intros Ht. unfold strip. now rewrite blank_lstrip. Qed.

(** X12: An empty body, or one of whitespace only, is rewritten to the closing
    block alone. *)
Theorem blank_body_gets_closing (subject body : text) :
  forallb isspace body = true ->
  snd (rewrite_to_safe subject body) = closing.
Proof.
  intros Hb.
  assert (Hl : forallb isspace (lower body) = true) by now rewrite blank_lower.
  rewrite snd_rewrite_to_safe, harmless_body_steps.
  - unfold add_closing.
    change (str "thank you") with ("t"%char :: str "hank you").
    rewrite (blank_contains "t" (str "hank you") _ eq_refl Hl). cbn [negb].
    now rewrite blank_strip.
  - intros w Hin. cbn in Hin.
    repeat destruct Hin as [<-|Hin]; try (apply blank_contains; [reflexivity | exact Hl]).
    contradiction.
Qed.

Lemma blank_body_gets_closing_witness :
  forallb isspace (str "  ") = true /\
  snd (rewrite_to_safe (str "Hello") (str "  ")) = closing.
Proof.
  split; [reflexivity|].
  apply (blank_body_gets_closing (str "Hello") (str "  ")). reflexivity.
Defined.

(** *** A word the rewrite leaves nowhere *)

Section WordRemoved.

(** The word [p :: w'], in lower case, is replaced by [r0 :: R']; its first
    character is not in the replacement, and the first character of the
    replacement is not in the rest of the word. *)
Variables (p : ascii) (w' : text) (r0 : ascii) (R' : text).
Hypothesis word_lower : lower (p :: w') = p :: w'.
Hypothesis head_not_in_replacement :
  forallb (fun c => negb (ascii_eqb p (lower_char c))) (r0 :: R') = true.
Hypothesis replacement_head_not_in_tail :
  forallb (fun x => negb (ascii_eqb x (lower_char r0))) w' = true.

Lemma head_free (L o : text) :
  forallb (fun c => negb (ascii_eqb p (lower_char c))) L = true ->
  contains (p :: w') (lower (L ++ o)) = contains (p :: w') (lower o).
Proof.
  induction L as [|c L IH]; intros HL; [reflexivity|].
  cbn [forallb] in HL. apply andb_prop in HL as [Hc HL].
  apply negb_true_iff in Hc.
  cbn [app lower map contains starts_with]. fold (lower (L ++ o)).
  rewrite Hc. cbn [andb orb]. now apply IH.
Qed.

Lemma prefix_transfer (v : text) :
  forall s,
    forallb (fun x => negb (ascii_eqb x (lower_char r0))) v = true ->
    starts_with v (lower (re_sub (lit_i (p :: w')) (r0 :: R') s)) = true ->
    starts_with v (lower s) = true.
Proof.
  pose proof (consuming_lit_i p w') as Hcons.
  induction v as [|x v IH]; intros s Hv Hs; [reflexivity|].
  cbn [forallb] in Hv. apply andb_prop in Hv as [Hx Hv].
  apply negb_true_iff in Hx.
  destruct (match_at (lit_i (p :: w')) s) as [rest|] eqn:Hm.
  - rewrite (re_sub_matched _ _ _ _ Hcons Hm) in Hs.
    cbn [app lower map starts_with] in Hs. rewrite Hx in Hs. discriminate.
  - destruct s as [|c s].
    + rewrite (re_sub_nil _ _ Hcons) in Hs. discriminate.
    + rewrite (re_sub_kept _ _ _ _ Hm) in Hs.
      cbn [lower map starts_with] in Hs |- *.
      apply andb_prop in Hs as [Hc Hs]. rewrite Hc. cbn [andb].
      now apply IH.
Qed.

(** After the replacement the word occurs nowhere, in any letter case. *)
Lemma word_removed (s : text) :
  contains (p :: w') (lower (re_sub (lit_i (p :: w')) (r0 :: R') s)) = false.
Proof.
  pose proof (consuming_lit_i p w') as Hcons.
  remember (length s) as n eqn:Hn. revert s Hn.
  induction n as [n IH] using lt_wf_ind. intros s ->.
  destruct (match_at (lit_i (p :: w')) s) as [rest|] eqn:Hm.
  - rewrite (re_sub_matched _ _ _ _ Hcons Hm).
    rewrite (head_free _ _ head_not_in_replacement).
    apply (IH (length rest)); [|reflexivity].
    exact (match_at_shorter _ _ _ Hcons Hm).
  - destruct s as [|c s]; [now rewrite (re_sub_nil _ _ Hcons)|].
    rewrite (re_sub_kept _ _ _ _ Hm).
    cbn [lower map contains]. fold (lower (re_sub (lit_i (p :: w')) (r0 :: R') s)).
    rewrite (IH (length s)) by (cbn; lia || reflexivity). rewrite orb_false_r.
    destruct (starts_with (p :: w') (lower_char c :: lower (re_sub (lit_i (p :: w')) (r0 :: R') s)))
      eqn:E; [|reflexivity].
    exfalso. cbn [starts_with] in E. apply andb_prop in E as [Ec Et].
    apply (prefix_transfer _ _ replacement_head_not_in_tail) in Et.
    unfold match_at in Hm. rewrite match_k_lit_i, word_lower in Hm.
    cbn [lower map starts_with] in Hm. fold (lower s) in Hm.
    rewrite Ec, Et in Hm. discriminate.
Qed.

End WordRemoved.

Lemma strip_contains (w s : text) :
  contains w (lower s) = false -> contains w (lower (strip s)) = false.
Proof.
  intros Hs. destruct (contains w (lower (strip s))) eqn:E; [|reflexivity].
  destruct (strip_spec s) as (l & r & Hl & _).
  rewrite Hl, !lower_app, contains_inside in Hs; [discriminate | exact E].
Qed.

(** The closing step brings in no word that is not in the closing block
    and has no line feed. *)
Lemma add_closing_contains (w s : text) :
  lacks LF w = true -> w <> [] ->
  contains w (lower (tl closing)) = false ->
  contains w (lower s) = false ->
  contains w (lower (add_closing s)) = false.
Proof.
  intros Hlf Hw Hc Hs. unfold add_closing.
  destruct (negb (contains (str "thank you") (lower s))); [|exact Hs].
  rewrite lower_app.
  change (lower closing) with (LF :: lower (tl closing)).
  rewrite (contains_across LF w _ _ Hlf Hw), Hc, orb_false_r.
  now apply strip_contains.
Qed.

Lemma clash_starts (v R o : text) :
  clash v R = true -> starts_with v (lower (R ++ o)) = false.
Proof.
  revert R. induction v as [|x v IH]; intros [|r R] Hc; try discriminate.
  cbn [clash] in Hc. cbn [app lower map starts_with]. fold (lower (R ++ o)).
  destruct (ascii_eqb x (lower_char r)); [|reflexivity].
  cbn [negb orb] in Hc. cbn [andb]. now apply IH.
Qed.

Section WordKept.

(** The word [x :: v] is not in the text; [p :: w'] is replaced by [R]. *)
Variables (x : ascii) (v : text) (p : ascii) (w' R : text).
Hypothesis ends_clash : tails_clash v R = true.
Hypothesis word_clashes : clash_tails (x :: v) R = true.

Lemma head_free_clash (U o : text) :
  clash_tails (x :: v) U = true ->
  contains (x :: v) (lower (U ++ o)) = contains (x :: v) (lower o).
Proof.
  induction U as [|r U IH]; intros HU; [reflexivity|].
  cbn [clash_tails] in HU. apply andb_prop in HU as [Hc HU].
  change (lower ((r :: U) ++ o)) with (lower_char r :: lower (U ++ o)).
  cbn [contains].
  change (lower_char r :: lower (U ++ o)) with (lower ((r :: U) ++ o)).
  rewrite (clash_starts _ _ _ Hc). cbn [orb]. now apply IH.
Qed.

Lemma prefix_transfer_clash (u : text) :
  forall s,
    tails_clash u R = true ->
    starts_with u (lower (re_sub (lit_i (p :: w')) R s)) = true ->
    starts_with u (lower s) = true.
Proof.
  pose proof (consuming_lit_i p w') as Hcons.
  induction u as [|y u IH]; intros s Hu Hs; [reflexivity|].
  cbn [tails_clash] in Hu. apply andb_prop in Hu as [Hc Hu].
  destruct (match_at (lit_i (p :: w')) s) as [rest|] eqn:Hm.
  - rewrite (re_sub_matched _ _ _ _ Hcons Hm), (clash_starts _ _ _ Hc) in Hs.
    discriminate.
  - destruct s as [|c s].
    + rewrite (re_sub_nil _ _ Hcons) in Hs. discriminate.
    + rewrite (re_sub_kept _ _ _ _ Hm) in Hs.
      cbn [lower map starts_with] in Hs |- *.
      apply andb_prop in Hs as [Hy Hs]. rewrite Hy. cbn [andb].
      now apply IH.
Qed.

(** A replacement whose text clashes with the word in these two ways
    brings the word into no text that is without it. *)
Lemma word_kept_out (s : text) :
  contains (x :: v) (lower s) = false ->
  contains (x :: v) (lower (re_sub (lit_i (p :: w')) R s)) = false.
Proof.
  pose proof (consuming_lit_i p w') as Hcons.
  remember (length s) as n eqn:Hn. revert s Hn.
  induction n as [n IH] using lt_wf_ind. intros s -> Hs.
  destruct (match_at (lit_i (p :: w')) s) as [rest|] eqn:Hm.
  - rewrite (re_sub_matched _ _ _ _ Hcons Hm).
    rewrite (head_free_clash _ _ word_clashes).
    apply (IH (length rest)); [exact (match_at_shorter _ _ _ Hcons Hm) | reflexivity|].
    destruct (contains (x :: v) (lower rest)) eqn:E; [|reflexivity].
    destruct (match_at_sound _ _ _ Hm) as (m & -> & _).
    rewrite lower_app, <- (app_nil_r (lower rest)), contains_inside in Hs;
      [discriminate | exact E].
  - destruct s as [|c s]; [now rewrite (re_sub_nil _ _ Hcons)|].
    rewrite (re_sub_kept _ _ _ _ Hm).
    cbn [lower map contains] in Hs |- *. fold (lower s) in Hs.
    fold (lower (re_sub (lit_i (p :: w')) R s)).
    apply orb_false_elim in Hs as [Hst Hs].
    rewrite (IH (length s)) by (cbn; lia || reflexivity || exact Hs).
    rewrite orb_false_r.
    destruct (starts_with (x :: v) (lower_char c :: lower (re_sub (lit_i (p :: w')) R s)))
      eqn:E; [|reflexivity].
    exfalso. cbn [starts_with] in E, Hst. apply andb_prop in E as [Ec Et].
    apply (prefix_transfer_clash _ _ ends_clash) in Et.
    rewrite Ec, Et in Hst. discriminate.
Qed.

End WordKept.

(** X13: The rewritten body never contains "will be closed", "will be disabled",
    "immediately" or "urgent", in any letter case. *)
Theorem softened_phrases_gone (subject body : text) :
  let out := lower (snd (rewrite_to_safe subject body)) in
  contains (str "will be closed") out = false /\
  contains (str "will be disabled") out = false /\
  contains (str "immediately") out = false /\
  contains (str "urgent") out = false.
Proof.
  cbv zeta. rewrite snd_rewrite_to_safe.
  unfold body_before_closing, apply_replacements, body_replacements.
  cbn [fold_left].
  set (b0 := remove_urls (remove_patterns body)).
  set (b1 := re_sub (lit_i (str "will be closed")) (str "may require your attention") b0).
  set (b2 := re_sub (lit_i (str "will be disabled")) (str "may be temporarily limited") b1).
  set (b3 := re_sub (lit_i (str "within 24 hours")) (str "in the near future") b2).
  set (b4 := re_sub (lit_i (str "immediately")) (str "soon") b3).
  repeat split; apply add_closing_contains; try reflexivity; try discriminate.
  - do 4 (apply (word_kept_out "w" (str "ill be closed")); [reflexivity | reflexivity|]).
    apply (word_removed "w" (str "ill be closed") "m" (str "ay require your attention"));
      reflexivity.
  - do 3 (apply (word_kept_out "w" (str "ill be disabled")); [reflexivity | reflexivity|]).
    apply (word_removed "w" (str "ill be disabled") "m" (str "ay be temporarily limited"));
      reflexivity.
  - apply (word_kept_out "i" (str "mmediately")); [reflexivity | reflexivity|].
    apply (word_removed "i" (str "mmediately") "s" (str "oon")); reflexivity.
  - apply (word_removed "u" (str "rgent") "i" (str "mportant")); reflexivity.
Qed.



(** ** More on the diff *)

Section Disjoint.

Local Open Scope nat_scope.

Context {T : Type} `{Countable T}.
Variables (a b : list T).
Hypothesis disjoint : forall x, x ∈ a -> x ∉ b.

Lemma chain_b_None (x : T) : x ∉ b -> chain_b b !! x = None.
Proof.
  intros Hx.
  assert (Hl : fold_left b2j_add (enumerate b) ∅ !! x = None).
  { rewrite b2j_lookup. now destruct (decide (x ∈ b)). }
  unfold chain_b. cbv zeta. destruct (200 <=? length b); [|exact Hl].
  apply map_lookup_filter_None. now left.
Qed.

Lemma same_at_disjoint (i j : nat) : same_at a b i j = false.
Proof.
  destruct (same_at a b i j) eqn:E; [|reflexivity].
  apply same_at_Some in E as (x & Hi & Hj).
  exfalso. apply (disjoint x); eapply list_elem_of_lookup_2; eassumption.
Qed.

Lemma rows_disjoint (blo bhi : nat) (rows : list nat) :
  forall st, (fold_left (row_step a (chain_b b) blo bhi) rows st).2 = st.2.
Proof.
  induction rows as [|i rows IH]; intros [j2len best]; [reflexivity|].
  cbn [fold_left]. rewrite IH. unfold row_step.
  destruct (a !! i) as [x|] eqn:Hx; [|reflexivity].
  rewrite chain_b_None by (apply disjoint; eapply list_elem_of_lookup_2; eassumption).
  reflexivity.
Qed.

Lemma extend_disjoint (junk : bool) (alo ahi blo bhi : nat) (best : block) :
  extend junk a b alo ahi blo bhi best = best.
Proof.
  destruct best as [[besti bestj] bestsize]. unfold extend.
  assert (Hb : extend_back junk a b alo blo besti bestj bestsize
               = (besti, bestj, bestsize)).
  { destruct besti as [|i'], bestj as [|j']; try reflexivity.
    cbn [extend_back]. now rewrite same_at_disjoint, andb_false_r. }
  rewrite Hb.
  destruct (ahi - (besti + bestsize)) as [|fuel]; [reflexivity|].
  cbn [extend_fwd]. now rewrite same_at_disjoint, andb_false_r.
Qed.

Lemma find_longest_match_disjoint (alo ahi blo bhi : nat) :
  find_longest_match a b (chain_b b) alo ahi blo bhi = (alo, blo, 0).
Proof.
  unfold find_longest_match.
  pose proof (rows_disjoint blo bhi (seq alo (ahi - alo)) (∅, (alo, blo, 0))) as Hr.
  revert Hr.
  destruct (fold_left (row_step a (chain_b b) blo bhi) (seq alo (ahi - alo))
              (∅, (alo, blo, 0))) as [m best].
  cbn [snd]. intros ->. now rewrite !extend_disjoint.
Qed.

(** Without a common element there is no matching block but the closing
    one. *)
Lemma get_matching_blocks_disjoint :
  get_matching_blocks a b = Some [(length a, length b, 0)].
Proof.
  unfold get_matching_blocks. cbv zeta.
  replace (2 * length a + 1) with (S (2 * length a)) by lia.
  cbn [blocks_loop]. rewrite find_longest_match_disjoint.
  cbn [Nat.ltb Nat.leb]. rewrite blocks_loop_nil. reflexivity.
Qed.

End Disjoint.

Section DiffExtras.

Local Open Scope nat_scope.

Lemma emit_disjoint (a b : list text) :
  concat (map (emit a b) (opcodes_of [(length a, length b, 0)]))
  = map Removed a ++ map Added b.
Proof.
  unfold opcodes_of. cbn [fold_left opcode_step].
  destruct a as [|w ws], b as [|v vs];
    cbn [length Nat.ltb Nat.leb andb app map concat emit Nat.add];
    try change (S (length ws)) with (length (w :: ws));
    try change (S (length vs)) with (length (v :: vs));
    rewrite ?slice_all, ?app_nil_r; reflexivity.
Qed.

Lemma diff_segments_disjoint (original safe : text) :
  (forall w, In w (split original) -> ~ In w (split safe)) ->
  diff_segments original safe
  = Some (map Removed (split original) ++ map Added (split safe)).
Proof.
  intros Hd. unfold diff_segments, get_opcodes. cbv zeta.
  rewrite get_matching_blocks_disjoint.
  2:{ intros x Hx Hx'. apply list_elem_of_In in Hx, Hx'. exact (Hd x Hx Hx'). }
  now rewrite emit_disjoint.
Qed.

(** X15: Two texts without a token in common: the diff shows every token of the
    original as removed, then every token of the rewrite as added.  With an
    original of whitespace only everything is added, with such a rewrite
    everything removed. *)
Theorem diff_without_common_token (original safe : text) :
  (forall w, In w (split original) -> ~ In w (split safe)) ->
  diff_segments original safe
    = Some (map Removed (split original) ++ map Added (split safe)) /\
  diff_words_html original safe
    = Some (join (str " ")
              (map (fun w => del_open ++ w ++ str "</del>") (split original)
               ++ map (fun w => ins_open ++ w ++ str "</ins>") (split safe))).
Proof.
  intros Hd. pose proof (diff_segments_disjoint original safe Hd) as Hs.
  split; [exact Hs|]. unfold diff_words_html. rewrite Hs.
  now rewrite map_app, !map_map.
Qed.

Lemma diff_without_common_token_witness :
  (forall w, In w (split (str "pay now")) -> ~ In w (split (str " ok "))) /\
  diff_segments (str "pay now") (str " ok ")
    = Some (map Removed (split (str "pay now")) ++ map Added (split (str " ok "))).
Proof.
  assert (H : forall w, In w (split (str "pay now")) -> ~ In w (split (str " ok "))).
  { intros w Hw Hw'. cbn in Hw, Hw'.
    destruct Hw' as [<-|[]]. destruct Hw as [Hw|[Hw|[]]]; discriminate. }
  split; [exact H|].
  exact (proj1 (diff_without_common_token (str "pay now") (str " ok ") H)).
Defined.

Lemma unmarked_sides (segs : list segment) :
  forallb unmarked segs = true -> orig_side segs = new_side segs.
Proof.
  induction segs as [|[w|w|w] segs IH]; cbn; try discriminate; [reflexivity|].
  intros Hs. f_equal. now apply IH.
Qed.

(** X16: The diff marks nothing exactly when the two texts have the same
    tokens. *)
Theorem diff_marks_nothing_iff_same_tokens (original safe : text) :
  exists out_parts,
    diff_segments original safe = Some out_parts /\
    (forallb unmarked out_parts = true <-> split original = split safe).
Proof.
  destruct (diff_segments_sides original safe) as (out_parts & Hd & Ho & Hn).
  exists out_parts. split; [exact Hd|]. split.
  - intros Hu. rewrite <- Ho, <- Hn. now apply unmarked_sides.
  - intros Hs.
    assert (E : diff_segments original safe = diff_segments original original).
    { unfold diff_segments. cbv zeta. now rewrite Hs. }
    rewrite E, diff_segments_self in Hd. injection Hd as <-.
    apply unmarked_plain.
Qed.

End DiffExtras.

(** ** The rewrite endpoint: what it returns *)

Lemma split_from_tokens (s cur w : text) :
  In w (split_from cur s) -> w <> [].
Proof.
  revert cur. induction s as [|c s IH]; intros cur; cbn [split_from].
  - destruct cur; [intros [] | intros [<-|[]]; discriminate].
  - destruct (isspace c).
    + destruct cur; [apply IH|]. intros [<-|Hw]; [discriminate | now apply (IH [])].
    + apply IH.
Qed.

Lemma split_from_nonempty (s cur : text) : cur <> [] -> split_from cur s <> [].
Proof.
  revert cur. induction s as [|c s IH]; intros cur Hc; cbn [split_from].
  - destruct cur; [contradiction | discriminate].
  - destruct (isspace c).
    + destruct cur; [contradiction | discriminate].
    + apply IH. now destruct cur.
Qed.

Lemma split_from_has_token (l : text) (c : ascii) (r cur : text) :
  isspace c = false -> split_from cur (l ++ c :: r) <> [].
Proof.
  intros Hc. revert cur. induction l as [|x l IH]; intros cur; cbn [app split_from].
  - rewrite Hc. apply split_from_nonempty. now destruct cur.
  - destruct (isspace x); [|apply IH].
    destruct cur; [apply IH | discriminate].
Qed.

Lemma thanking_text_has_token (s : text) :
  contains (str "thank you") (lower s) = true -> split s <> [].
Proof.
  intros Hc. apply contains_lower_spec in Hc as (l & m & r & -> & Hm).
  destruct m as [|c m]; [discriminate|]. cbn in Hm. injection Hm as Hc _.
  unfold split. cbn [app]. apply split_from_has_token.
  rewrite <- isspace_lower_char, Hc. reflexivity.
Qed.

Lemma rewrite_safe_email_fields (subject body : text) :
  rewrite_safe_email subject body
  = match diff_words_html body (snd (rewrite_to_safe subject body)) with
    | Some diff_html =>
        Some (fst (rewrite_to_safe subject body),
              snd (rewrite_to_safe subject body), diff_html)
    | None => None
    end.
Proof.
  unfold rewrite_safe_email. now destruct (rewrite_to_safe subject body).
Qed.

Lemma render_segment_nonempty (s : segment) :
  (forall w, s = Plain w -> w <> []) -> render_segment s <> [].
Proof.
  destruct s as [w|w|w]; cbn [render_segment]; intros Hw.
  - now apply Hw.
  - discriminate.
  - discriminate.
Qed.

Lemma join_nonempty (sep x : text) (l : list text) :
  x <> [] -> join sep (x :: l) <> [].
Proof.
  intros Hx. cbn [join]. destruct l; [exact Hx|].
  destruct x; [contradiction | discriminate].
Qed.

(** X17: The endpoint always answers, with the rewrite of the subject and of
    the body and a diff of the body that is never empty. *)
Theorem rewrite_safe_email_answers (subject body : text) :
  exists diff_html,
    rewrite_safe_email subject body
      = Some (fst (rewrite_to_safe subject body),
              snd (rewrite_to_safe subject body), diff_html) /\
    diff_words_html body (snd (rewrite_to_safe subject body)) = Some diff_html /\
    diff_html <> [].
Proof.
  rewrite rewrite_safe_email_fields.
  assert (Ht : split (snd (rewrite_to_safe subject body)) <> []).
  { apply thanking_text_has_token. rewrite snd_rewrite_to_safe.
    apply add_closing_thanks. }
  set (safe_body := snd (rewrite_to_safe subject body)) in *. clearbody safe_body.
  destruct (diff_segments_sides body safe_body) as (segs & Hd & Ho & Hn).
  unfold diff_words_html. rewrite Hd. eexists. split; [reflexivity|].
  split; [reflexivity|].
  destruct segs as [|s segs]; [cbn in Hn; congruence|].
  cbn [map]. apply join_nonempty, render_segment_nonempty.
  intros w ->. apply (split_from_tokens body []). fold (split body).
  rewrite <- Ho. cbn. now left.
Qed.



(** *** A sequence against itself with more at its end *)

Section Appended.

Local Open Scope nat_scope.

Context {T : Type} `{Countable T}.
Variables (a c : list T).

Lemma lookup_appended (i : nat) : i < length a -> (a ++ c) !! i = a !! i.
Proof. intros Hi. now apply lookup_app_l. Qed.

Lemma same_at_appended (i : nat) : i < length a -> same_at a (a ++ c) i i = true.
Proof.
  intros Hi. apply same_at_Some. destruct (lookup_lt_is_Some_2 a i Hi) as [x Hx].
  exists x. split; [exact Hx|]. now rewrite lookup_appended.
Qed.

Lemma rows_appended (b2j : gmap T (list nat)) (blo bhi n : nat) :
  forall i st,
    i + n <= length a ->
    fold_left (row_step a b2j blo bhi) (seq i n) st
    = fold_left (row_step (a ++ c) b2j blo bhi) (seq i n) st.
Proof.
  induction n as [|n IH]; intros i st Hi; [reflexivity|].
  cbn [seq fold_left]. rewrite IH by lia. f_equal.
  destruct st as [j2len best]. unfold row_step.
  now rewrite lookup_appended by lia.
Qed.

Lemma extend_back_appended (i k : nat) :
  i <= length a -> extend_back false a (a ++ c) 0 0 i i k = (0, 0, k + i).
Proof.
  revert k. induction i as [|i IH]; intros k Hi; cbn [extend_back].
  - now rewrite Nat.add_0_r.
  - rewrite notjunk, same_at_appended by lia. cbn [Nat.ltb Nat.leb andb].
    rewrite IH by lia. f_equal. lia.
Qed.

Lemma extend_fwd_appended (fuel k : nat) :
  k + fuel <= length a ->
  extend_fwd false a (a ++ c) (length a) (length (a ++ c)) 0 0 fuel k = k + fuel.
Proof.
  revert k. induction fuel as [|fuel IH]; intros k Hk; cbn [extend_fwd Nat.add].
  - now rewrite Nat.add_0_r.
  - rewrite notjunk, same_at_appended by lia.
    destruct (Nat.ltb_spec k (length a)); [|lia].
    destruct (Nat.ltb_spec k (length (a ++ c))); [|rewrite length_app in *; lia].
    cbn [andb]. rewrite IH by lia. lia.
Qed.

Lemma extend_true_appended :
  extend true a (a ++ c) 0 (length a) 0 (length (a ++ c)) (0, 0, length a)
  = (0, 0, length a).
Proof.
  unfold extend. cbn [extend_back Nat.add]. now rewrite Nat.sub_diag.
Qed.

(** The longest match of a sequence with the sequence followed by more is
    the sequence itself. *)
Lemma find_longest_match_appended :
  find_longest_match a (a ++ c) (chain_b (a ++ c)) 0 (length a) 0 (length (a ++ c))
  = (0, 0, length a).
Proof.
  set (b := a ++ c). set (b2j := chain_b b).
  assert (Hs : b2j_sound b b2j) by apply chain_b_sound.
  unfold find_longest_match.
  pose proof (rows_good a b (0, length a, 0, length b) b2j (length a - 0) Hs 0
                (∅, (0, 0, 0))) as Hg.
  pose proof (rows_diag b b2j (chain_b_lookup b) (length a - 0) 0 (∅, (0, 0, 0))) as Hd.
  cbv beta iota zeta in Hg.
  rewrite <- (rows_appended b2j 0 (length b) (length a - 0) 0) in Hd by lia.
  revert Hg Hd.
  destruct (fold_left (row_step a b2j 0 (length b)) (seq 0 (length a - 0))
              (∅, (0, 0, 0))) as [m [[bi bj] bk]].
  cbn [fst snd]. intros Hg Hd.
  destruct Hg as [Hbox _]; try lia.
  { apply j2len_ok_empty. }
  { cbn. lia. }
  { cbn. intros d Hd'. lia. }
  unfold on_diagonal in Hd. cbn [fst snd] in Hd. rewrite <- Hd.
  - cbn in Hbox. unfold extend at 2. subst b.
    rewrite extend_back_appended by lia.
    rewrite extend_fwd_appended by lia.
    replace (bk + bi + (length a - (0 + (bk + bi)))) with (length a) by lia.
    apply extend_true_appended.
  - subst b. rewrite length_app. lia.
  - intros j k Hjk. now rewrite lookup_empty in Hjk.
  - intros j Hj. lia.
  - reflexivity.
  - reflexivity.
Qed.

End Appended.

Section AppendedDiff.

Local Open Scope nat_scope.

Lemma get_opcodes_appended {T} `{Countable T} (a c : list T) :
  get_opcodes a (a ++ c)
  = Some ((if 0 <? length a
           then [(Equal, 0, length a, 0, length a)] else [])
          ++ (if 0 <? length c
              then [(Insert, length a, length a, length a, length a + length c)]
              else [])).
Proof.
  unfold get_opcodes, get_matching_blocks. cbv zeta.
  replace (2 * length a + 1) with (S (2 * length a)) by lia.
  cbn [blocks_loop]. rewrite find_longest_match_appended, length_app.
  destruct (length a) as [|n].
  - cbn [Nat.ltb Nat.leb]. rewrite blocks_loop_nil.
    replace (merge_sort block_le []) with (@nil block) by reflexivity.
    unfold collapse, opcodes_of.
    cbn [fold_left collapse_step opcode_step Nat.ltb Nat.leb andb app Nat.add].
    destruct (length c); reflexivity.
  - replace (0 <? S n) with true by reflexivity.
    replace ((0 <? 0) && (0 <? 0)) with false by reflexivity.
    cbn [Nat.add]. rewrite Nat.ltb_irrefl. cbn [andb app].
    rewrite blocks_loop_nil.
    replace (merge_sort block_le [(0, 0, S n)]) with [(0, 0, S n)] by reflexivity.
    unfold collapse, opcodes_of. cbn [fold_left collapse_step Nat.add Nat.eqb andb].
    replace (0 <? S n) with true by reflexivity. cbn [app fold_left opcode_step].
    replace (0 <? S n) with true by reflexivity.
    replace (0 <? 0) with false by reflexivity.
    cbn [Nat.add andb app]. rewrite Nat.ltb_irrefl. cbn [andb].
    destruct (Nat.ltb_spec (S n) (S (n + length c))), (Nat.ltb_spec 0 (length c));
      try lia; reflexivity.
Qed.

Lemma slice_appended {X} (a c : list X) :
  slice (a ++ c) (length a) (length a + length c) = c.
Proof.
  unfold slice. replace (length a + length c - length a) with (length c) by lia.
  rewrite skipn_app, skipn_all, Nat.sub_diag. cbn [app skipn].
  apply firstn_all.
Qed.

Lemma emit_appended (a c : list text) :
  concat (map (emit a (a ++ c))
    ((if 0 <? length a then [(Equal, 0, length a, 0, length a)] else [])
     ++ (if 0 <? length c
         then [(Insert, length a, length a, length a, length a + length c)]
         else [])))
  = map Plain a ++ map Added c.
Proof.
  rewrite map_app, concat_app. f_equal.
  - destruct a as [|w ws]; [reflexivity|].
    replace (0 <? length (w :: ws)) with true by reflexivity.
    cbn [map concat emit]. now rewrite slice_all, app_nil_r.
  - destruct c as [|w ws]; [reflexivity|].
    replace (0 <? length (w :: ws)) with true by reflexivity.
    cbn [map concat emit]. now rewrite slice_appended, app_nil_r.
Qed.

(** X19: A rewrite whose tokens are those of the original followed by more:
    the diff shows the tokens of the original unchanged and the further
    ones added. *)
Theorem diff_of_appended_text (original safe : text) (extra : list text) :
  split safe = split original ++ extra ->
  diff_segments original safe
    = Some (map Plain (split original) ++ map Added extra) /\
  diff_words_html original safe
    = Some (join (str " ")
              (split original
               ++ map (fun w => ins_open ++ w ++ str "</ins>") extra)).
Proof.
  intros Hs.
  assert (Hd : diff_segments original safe
               = Some (map Plain (split original) ++ map Added extra)).
  { unfold diff_segments. cbv zeta.
    now rewrite Hs, get_opcodes_appended, emit_appended. }
  split; [exact Hd|]. unfold diff_words_html.
  now rewrite Hd, map_app, render_plain, map_map.
Qed.

Lemma diff_of_appended_text_witness :
  split (str "see you  Thanks, Bob") = split (str " see you") ++ [str "Thanks,"; str "Bob"] /\
  diff_segments (str " see you") (str "see you  Thanks, Bob")
    = Some (map Plain (split (str " see you"))
            ++ map Added [str "Thanks,"; str "Bob"]).
Proof.
  split; [reflexivity|].
  apply (diff_of_appended_text (str " see you") (str "see you  Thanks, Bob")
           [str "Thanks,"; str "Bob"]).
  reflexivity.
Defined.

End AppendedDiff.

(** *** The tokens of a body with the closing block *)








